(** * Relic Rush: a verified model of the game core

    A shallow embedding of the level solver, the session state machine, the
    scoring strategies and the session serialisation of the
    [enhanced_artifacts] application, with the properties of its design
    document proved (or refuted) against that embedding.

    Conventions.
    - A Python exception is a [Raise] in the [result] monad.
    - A Python [set] of strings is a [gset string]; a [dict] that the code
      iterates over is an association list in insertion order.
    - A Python [float] is an IEEE-754 binary64 number.  Its finite values are
      kept as the exact rationals they denote, and every operation rounds the
      exact result to nearest, ties to even ([PyFloat.rne]). *)

From Stdlib Require Import ZArith QArith Qround Qabs Qpower Lia Lqa.
From Stdlib Require Import SpecFloat.
From stdpp Require Import gmap strings list sorting.

(** * Python exceptions and the result monad *)

Inductive exn : Type :=
  | KeyError (key : string)
  | ValueError (msg : string)
  | TypeError (msg : string)
  | ZeroDivisionError
  | OverflowError
  | LevelValidationError (msg : string).

Inductive result (A : Type) : Type :=
  | Ok (a : A)
  | Raise (e : exn).
Arguments Ok {A} a.
Arguments Raise {A} e.

Definition bind {A B : Type} (r : result A) (k : A → result B) : result B :=
  match r with
  | Ok a => k a
  | Raise e => Raise e
  end.

Notation "'let*' x := r 'in' k" := (bind r (fun x => k))
  (at level 10, x name, r at level 100, k at level 200).

Definition returns {A : Type} (r : result A) : Prop := ∃ a, r = Ok a.

(** * Python floats: IEEE-754 binary64, round to nearest even *)

Module PyFloat.
Local Open Scope Q_scope.

(** A finite binary64 value, as the rational it denotes. *)
Definition float := Q.

(** [Qlog2 q] is the binade of a positive [q]: [2 ^ Qlog2 q <= q < 2 ^ (Qlog2 q + 1)]. *)
Definition Qlog2 (q : Q) : Z :=
  let l := (Z.log2 (Qnum q) - Z.log2 (Zpos (Qden q)))%Z in
  if Qle_bool (2 ^ l)%Q q then l else (l - 1)%Z.

(** The exponent of the unit in the last place: 53 significant bits, and the
    subnormal floor [2 ^ -1074]. *)
Definition ulp_exp (q : Q) : Z := Z.max (Qlog2 q - 52) (-1074).

Definition round_half_even (x : Q) : Z :=
  let f := Qfloor x in
  match ((x - inject_Z f) ?= (1 # 2))%Q with
  | Lt => f
  | Gt => (f + 1)%Z
  | Eq => if Z.even f then f else (f + 1)%Z
  end.

Definition rne_pos (q : Q) : Q :=
  let e := ulp_exp q in
  Qred (inject_Z (round_half_even (q / 2 ^ e)) * 2 ^ e).

(** Round to nearest, ties to even, with an unbounded exponent above. *)
Definition rne (q : Q) : Q :=
  match q ?= 0 with
  | Eq => 0
  | Gt => rne_pos q
  | Lt => - rne_pos (- q)
  end.

(** The rounded result leaves the binary64 range.  Python raises
    [OverflowError] at once for [int / int] and for [float(int)]; a product
    or a sum becomes [inf], and the [int()] that consumes it raises the same
    [OverflowError].  No float of the scoring code escapes an [int()], so the
    model raises at the operation. *)
Definition overflows (q : Q) : bool := Qle_bool (2 ^ 1024) (Qabs q).

Definition round64 (q : Q) : result float :=
  let r := rne q in
  if overflows r then Raise OverflowError else Ok r.

(** [float(z)] *)
Definition of_int (z : Z) : result float := round64 (inject_Z z).

(** [a / b] on two ints: the correctly rounded quotient. *)
Definition truediv (a b : Z) : result float :=
  if (b =? 0)%Z then Raise ZeroDivisionError
  else round64 (inject_Z a / inject_Z b).

Definition mul (x y : float) : result float := round64 (x * y).
Definition add (x y : float) : result float := round64 (x + y).

(** [z * x] and [z + x] with an int on the left: the int is converted first. *)
Definition int_mul (z : Z) (x : float) : result float :=
  let* f := of_int z in mul f x.
Definition int_add (z : Z) (x : float) : result float :=
  let* f := of_int z in add f x.

(** [min(x, y)]: the first argument unless the second is smaller. *)
Definition min (x y : float) : float := if Qle_bool x y then x else y.

(** [int(x)]: truncation towards zero. *)
Definition to_int (x : float) : Z :=
  if Qle_bool 0%Q x then Qfloor x else Qceiling x.

End PyFloat.

(** ** The same operations in the Standard Library's IEEE-754 specification

    [SpecFloat] computes binary64 results on sign, mantissa and exponent.  The
    comparisons below are evaluated on sample arguments to check [PyFloat]
    against it. *)

Module SpecCheck.
Definition of_Z (z : Z) : spec_float := binary_normalize 53 1024 z 0 false.

(** The rational a finite [spec_float] denotes; [None] for an infinity or a NaN. *)
Definition to_Q (f : spec_float) : option Q :=
  match f with
  | S754_zero _ => Some 0%Q
  | S754_finite s m e =>
      Some ((if s then -1 else 1) * inject_Z (Z.pos m) * 2 ^ e)%Q
  | S754_infinity _ | S754_nan => None
  end.

Definition agree (r : result PyFloat.float) (f : spec_float) : bool :=
  match r, to_Q f with
  | Ok q, Some q' => Qeq_bool q q'
  | Raise OverflowError, None => true
  | _, _ => false
  end.

(** The quotients [a / b] for [1 <= a, b <= n]. *)
Definition pairs (n : nat) : list (Z * Z) :=
  let r := Z.of_nat <$> seq 1 n in
  flat_map (λ a, (λ b, (a, b)) <$> r) r.

Definition truediv_agrees (ab : Z * Z) : bool :=
  agree (PyFloat.truediv ab.1 ab.2) (SFdiv 53 1024 (of_Z ab.1) (of_Z ab.2)).

(** [k * (a / b)] with an int [k] on the left. *)
Definition scaled_agrees (k : Z) (ab : Z * Z) : bool :=
  agree (let* q := PyFloat.truediv ab.1 ab.2 in PyFloat.int_mul k q)
        (SFmul 53 1024 (of_Z k) (SFdiv 53 1024 (of_Z ab.1) (of_Z ab.2))).

(** [base + k * x] and [base * (a / b) * 0.5], as the scoring code chains them. *)
Definition sum_agrees (base k : Z) (x : Q) (fx : spec_float) : bool :=
  agree (let* t := PyFloat.int_mul k x in PyFloat.int_add base t)
        (SFadd 53 1024 (of_Z base) (SFmul 53 1024 (of_Z k) fx)).

Definition penalty_agrees (base : Z) (ab : Z * Z) : bool :=
  agree (let* q := PyFloat.truediv ab.1 ab.2 in
         let* x := PyFloat.int_mul base q in
         PyFloat.mul x (1 # 2)%Q)
        (SFmul 53 1024
           (SFmul 53 1024 (of_Z base) (SFdiv 53 1024 (of_Z ab.1) (of_Z ab.2)))
           (SFdiv 53 1024 (of_Z 1) (of_Z 2))).
End SpecCheck.

(** * Domain model *)

(** ** models/domain/status.py *)
Module GameStatus.
Inductive t : Set := IN_PROGRESS | COMPLETED | GAME_OVER.

#[global] Instance eq_dec : EqDecision t.
Proof. solve_decision. Defined.

Definition value (s : t) : string :=
  match s with
  | IN_PROGRESS => "in_progress"
  | COMPLETED => "completed"
  | GAME_OVER => "game_over"
  end.

(** [GameStatus(v)]: lookup by value. *)
Definition of_value (v : string) : result t :=
  if String.eqb v "in_progress" then Ok IN_PROGRESS
  else if String.eqb v "completed" then Ok COMPLETED
  else if String.eqb v "game_over" then Ok GAME_OVER
  else Raise (ValueError "not a valid GameStatus").

Definition is_terminal (s : t) : bool :=
  match s with
  | COMPLETED | GAME_OVER => true
  | IN_PROGRESS => false
  end.
End GameStatus.

(** ** models/domain/player.py, models/domain/game_state.py *)
Module Player.
Record t : Type := mk { location : string }.
End Player.

Module GameState.
(** [datetime] values are opaque to the game core: they are produced by the
    clock and handed to the ISO-8601 codec. *)
Record t {datetime : Type} : Type := mk {
  level_id : string;
  player : Player.t;
  visited_rooms : gset string;
  collected_items : gset string;
  move_count : Z;
  status : GameStatus.t;
  message : option string;
  event_log : list string;
  started_at : datetime;
  updated_at : datetime;
  encountered_villain : bool
}.
Arguments t : clear implicits.
Arguments mk {datetime}.

Section mutation.
Context {datetime : Type}.
Implicit Type s : t datetime.

(** Assignments to the attributes that the game mutates. *)
Definition set_location (l : string) s : t datetime :=
  mk (level_id s) (Player.mk l) (visited_rooms s) (collected_items s) (move_count s)
     (status s) (message s) (event_log s) (started_at s) (updated_at s)
     (encountered_villain s).
Definition set_visited_rooms (v : gset string) s : t datetime :=
  mk (level_id s) (player s) v (collected_items s) (move_count s)
     (status s) (message s) (event_log s) (started_at s) (updated_at s)
     (encountered_villain s).
Definition set_collected_items (c : gset string) s : t datetime :=
  mk (level_id s) (player s) (visited_rooms s) c (move_count s)
     (status s) (message s) (event_log s) (started_at s) (updated_at s)
     (encountered_villain s).
Definition set_move_count (n : Z) s : t datetime :=
  mk (level_id s) (player s) (visited_rooms s) (collected_items s) n
     (status s) (message s) (event_log s) (started_at s) (updated_at s)
     (encountered_villain s).
Definition set_status (st : GameStatus.t) s : t datetime :=
  mk (level_id s) (player s) (visited_rooms s) (collected_items s) (move_count s)
     st (message s) (event_log s) (started_at s) (updated_at s)
     (encountered_villain s).
Definition set_message (m : option string) s : t datetime :=
  mk (level_id s) (player s) (visited_rooms s) (collected_items s) (move_count s)
     (status s) m (event_log s) (started_at s) (updated_at s)
     (encountered_villain s).
Definition set_event_log (l : list string) s : t datetime :=
  mk (level_id s) (player s) (visited_rooms s) (collected_items s) (move_count s)
     (status s) (message s) l (started_at s) (updated_at s)
     (encountered_villain s).
Definition set_updated_at (d : datetime) s : t datetime :=
  mk (level_id s) (player s) (visited_rooms s) (collected_items s) (move_count s)
     (status s) (message s) (event_log s) (started_at s) d
     (encountered_villain s).
Definition set_encountered_villain (b : bool) s : t datetime :=
  mk (level_id s) (player s) (visited_rooms s) (collected_items s) (move_count s)
     (status s) (message s) (event_log s) (started_at s) (updated_at s) b.

(** [event_log.append(e)] *)
Definition log (e : string) s : t datetime := set_event_log (event_log s ++ [e]) s.

(** [GameState.visit] *)
Definition visit (room_name : string) s : t datetime :=
  set_visited_rooms ({[ room_name ]} ∪ visited_rooms s) s.
End mutation.

(** [GameState.start]: the two timestamps are two readings of the clock. *)
Definition start {datetime : Type} (level_id start_room : string)
    (started updated : datetime) : t datetime :=
  let state := mk level_id (Player.mk start_room) ∅ ∅ 0 GameStatus.IN_PROGRESS None []
                 started updated false in
  set_visited_rooms ({[ start_room ]} ∪ visited_rooms state) state.
End GameState.

(** ** models/domain/item.py *)
Module Item.
(** The base class and its two subclasses; the subclasses fix the render key. *)
Inductive t : Set :=
  | Item (name render_key : string)
  | Relic (name : string)
  | Villain (name : string).

Definition name (i : t) : string :=
  match i with
  | Item n _ | Relic n | Villain n => n
  end.

Definition render_key (i : t) : string :=
  match i with
  | Item _ k => k
  | Relic _ => "relic"
  | Villain _ => "villain"
  end.

(** [isinstance(i, Villain)] *)
Definition is_Villain (i : t) : bool :=
  match i with
  | Villain _ => true
  | _ => false
  end.

(** The room-entry hook, overridden by the two subclasses. *)
Definition on_enter {datetime : Type} (i : t) (state : GameState.t datetime)
    : GameState.t datetime :=
  match i with
  | Item _ _ => state
  | Relic name =>
      if decide (name ∈ GameState.collected_items state) then state
      else
        let state :=
          GameState.set_collected_items ({[ name ]} ∪ GameState.collected_items state) state in
        let state := GameState.log ("Collected " +:+ name) state in
        GameState.set_message (Some ("Collected " +:+ name)) state
  | Villain _ =>
      if GameState.encountered_villain state then state
      else
        let state := GameState.set_encountered_villain true state in
        GameState.log "Encountered the villain" state
  end.
End Item.

(** ** models/domain/room.py, models/domain/map_graph.py *)

(** Dictionary lookup in an insertion-ordered dict. *)
Fixpoint dict_get {V : Type} (d : list (string * V)) (k : string) : option V :=
  match d with
  | [] => None
  | (k', v) :: d' => if String.eqb k' k then Some v else dict_get d' k
  end.

Definition dict_keys {V : Type} (d : list (string * V)) : list string := d.*1.

(** [d[k]] *)
Definition dict_item {V : Type} (d : list (string * V)) (k : string) : result V :=
  match dict_get d k with
  | Some v => Ok v
  | None => Raise (KeyError k)
  end.

Module Room.
Record t : Type := mk {
  name : string;
  exits : list (string * string);   (* direction → room name *)
  item : option Item.t
}.
End Room.

Module MapGraph.
Record t : Type := mk {
  rooms : list (string * Room.t);
  coords : list (string * (Z * Z))
}.

Definition neighbors (m : t) (room_name : string) : result (list (string * string)) :=
  let* r := dict_item (rooms m) room_name in Ok (Room.exits r).
End MapGraph.

(** ** models/behavior/scoring_policy.py *)
Module ScoringPolicy.
Inductive t : Set := EasyScoring | MediumScoring | HardScoring.

Definition multiplier (p : t) : PyFloat.float :=
  match p with
  | EasyScoring => 3 # 4     (* 0.75 *)
  | MediumScoring => 1       (* 1.0 *)
  | HardScoring => 5 # 4     (* 1.25 *)
  end%Q.
End ScoringPolicy.

Module VisibilityPolicy.
Inductive t : Set := EasyVisibility | MediumVisibility | HardVisibility.
End VisibilityPolicy.

Module ScoreStrategy.
Inductive t : Set := StandardScore | MaxMovesScore.
End ScoreStrategy.

(** ** models/domain/difficulty.py *)
Module Difficulty.
Inductive t : Set := EASY | MEDIUM | HARD.

Definition value (d : t) : string :=
  match d with
  | EASY => "easy"
  | MEDIUM => "medium"
  | HARD => "hard"
  end.

(** [Difficulty(v)] *)
Definition of_value (v : string) : result t :=
  if String.eqb v "easy" then Ok EASY
  else if String.eqb v "medium" then Ok MEDIUM
  else if String.eqb v "hard" then Ok HARD
  else Raise (ValueError "not a valid Difficulty").

Definition visibility_policy (d : t) : VisibilityPolicy.t :=
  match d with
  | EASY => VisibilityPolicy.EasyVisibility
  | MEDIUM => VisibilityPolicy.MediumVisibility
  | HARD => VisibilityPolicy.HardVisibility
  end.

Definition scoring_policy (d : t) : ScoringPolicy.t :=
  match d with
  | EASY => ScoringPolicy.EasyScoring
  | MEDIUM => ScoringPolicy.MediumScoring
  | HARD => ScoringPolicy.HardScoring
  end.

Definition scoring_strategy (d : t) : ScoreStrategy.t :=
  match d with
  | EASY => ScoreStrategy.StandardScore
  | MEDIUM => ScoreStrategy.StandardScore
  | HARD => ScoreStrategy.MaxMovesScore
  end.
End Difficulty.

(** ** models/domain/rules.py (data), models/domain/level.py *)
Module StandardRules.
Record t : Type := mk { required_items : gset string }.

(** [StandardRules.check]; [>=] on sets is the superset test. *)
Definition check {datetime : Type} (rules : t) (state : GameState.t datetime)
    (room : Room.t) : GameState.t datetime :=
  match Room.item room with
  | Some i =>
      if Item.is_Villain i then
        if decide (required_items rules ⊆ GameState.collected_items state) then
          let state := GameState.set_status GameStatus.COMPLETED state in
          GameState.set_message (Some "You defeated the villain!") state
        else
          let state := GameState.set_status GameStatus.GAME_OVER state in
          GameState.set_message (Some "You found the villain too soon.") state
      else state
  | None => state
  end.
End StandardRules.

Module Level.
Record t : Type := mk {
  id : string;
  name : string;
  difficulty : Difficulty.t;
  start_room : string;
  map : MapGraph.t;
  rules : StandardRules.t;
  visibility : VisibilityPolicy.t;
  scoring : ScoreStrategy.t;
  optimal_moves : option Z          (* int | None *)
}.
End Level.


(** * Level definitions (levels/seed_levels.py) *)

(** A level definition is a nested dict.  Keys that the code reads with
    [d[k]] and that may be absent are options; [exits] is read with
    [.get("exits", {})], so an absent key is an empty dict.  An item that is
    absent, [None] or an empty dict is falsy where the code tests it, and is
    [None] here; an item dict is one that is not empty. *)
Module LevelDefinition.
Record item_def : Type := mk_item {
  type : option string;
  item_name : option string
}.

Record room_def : Type := mk_room {
  exits : list (string * string);
  item : option item_def              (* falsy, or a dict that is not empty *)
}.

Record rules_def : Type := mk_rules {
  required_items : option (list string)
}.

Record t : Type := mk {
  id : option string;
  name : option string;
  difficulty : option string;
  start_room : option string;
  rooms : option (list (string * room_def));
  coords : option (list (string * (Z * Z)));
  rules : option rules_def
}.
End LevelDefinition.

(** * Level validation and solver (models/behavior/validation.py) *)

Module Validation.
Import LevelDefinition.

(** [k in d] *)
Definition dict_has {V : Type} (d : list (string * V)) (k : string) : bool :=
  bool_decide (is_Some (dict_get d k)).

(** The first exit, in iteration order, whose target is not a room. *)
Definition dangling_exit (rooms : list (string * room_def)) : option (string * string) :=
  head (filter (λ rt, dict_has rooms rt.2 = false)
          (flat_map (λ '(room, data), (λ '(_, target), (room, target)) <$> exits data) rooms)).

(** The room's item is of type villain. *)
Definition is_villain_def (r : room_def) : bool :=
  match item r with
  | Some i =>
      match type i with
      | Some type => String.eqb type "villain"
      | None => false
      end
  | None => false
  end.

(** [r.get("item") and r["item"]["type"] == "villain"]: an item dict
    without the key [type] raises [KeyError]. *)
Definition holds_villain_def (r : room_def) : result bool :=
  match item r with
  | Some i =>
      match type i with
      | Some type => Ok (String.eqb type "villain")
      | None => Raise (KeyError "type")
      end
  | None => Ok false
  end.

(** [[r for r in rooms.values() if r.get("item") and r["item"]["type"] == "villain"]] *)
Fixpoint villains (rooms : list room_def) : result (list room_def) :=
  match rooms with
  | [] => Ok []
  | r :: rooms =>
      let* keep := holds_villain_def r in
      let* rest := villains rooms in
      Ok (if keep then r :: rest else rest)
  end.

Definition validate_level_definition (defn : LevelDefinition.t) : result unit :=
  match id defn, name defn, difficulty defn, start_room defn,
        rooms defn, coords defn, rules defn with
  | Some _, Some _, Some _, Some start_room, Some rooms, Some coords, Some _ =>
      if negb (dict_has rooms start_room) then
        Raise (LevelValidationError "Start room does not exist")
      else
        match dangling_exit rooms with
        | Some (room, target) =>
            Raise (LevelValidationError
                     ("Room '" +:+ room +:+ "' has invalid exit to '" +:+ target +:+ "'"))
        | None =>
            match head (filter (λ room, dict_has coords room = false) (dict_keys rooms)) with
            | Some room =>
                Raise (LevelValidationError ("Room '" +:+ room +:+ "' missing coordinates"))
            | None =>
                let* villains := villains rooms.*2 in
                if negb (length villains =? 1)%nat then
                  Raise (LevelValidationError "Level must contain exactly one villain")
                else Ok tt
            end
        end
  | _, _, _, _, _, _, _ => Raise (LevelValidationError "Missing required keys")
  end.

Section solver.
Context (map_graph : MapGraph.t) (required_items : gset string).

(** The item pickup of one loop iteration. *)
Definition pick_up (room_item : option Item.t) (items : gset string) : gset string :=
  match room_item with
  | Some i =>
      if decide (Item.name i ∈ required_items ∧ Item.name i ∉ items)
      then items ∪ {[ Item.name i ]}
      else items
  | None => items
  end.

(** [room_item and room_item.render_key == "villain"] *)
Definition is_villain (room_item : option Item.t) : bool :=
  match room_item with
  | Some i => String.eqb (Item.render_key i) "villain"
  | None => false
  end.

(** The [while queue] loop; [None] when it is still running after [fuel]
    iterations. *)
Fixpoint bfs_loop (fuel : nat) (visited : gset (string * gset string))
    (queue : list (string * gset string * nat)) : option (result nat) :=
  match queue with
  | [] => Some (Raise (LevelValidationError "Level is not solvable"))
  | (room, items, dist) :: queue =>
      match fuel with
      | O => None
      | S fuel =>
          if decide ((room, items) ∈ visited) then bfs_loop fuel visited queue
          else
            let visited := {[ (room, items) ]} ∪ visited in
            match dict_get (MapGraph.rooms map_graph) room with
            | None => Some (Raise (KeyError room))
            | Some r =>
                let room_item := Room.item r in
                let items := pick_up room_item items in
                if is_villain room_item then
                  if decide (required_items ⊆ items) then Some (Ok dist)
                  else bfs_loop fuel visited queue
                else
                  (* [map_graph.neighbors(room)] is the exits of the same room *)
                  bfs_loop fuel visited
                    (queue ++ ((λ '(_, nxt), (nxt, items, S dist)) <$> Room.exits r))
            end
      end
  end.

Definition compute_optimal_moves (fuel : nat) (start_room : string)
    : option (result nat) :=
  bfs_loop fuel ∅ [ (start_room, ∅, 0) ].
End solver.

(** Iterations that suffice on any map: every state [(room, items)] is
    expanded at most once and queues at most one entry per exit. *)
Definition total_exits (m : MapGraph.t) : nat :=
  length (flat_map (λ nr, Room.exits nr.2) (MapGraph.rooms m)).

Definition solver_fuel (m : MapGraph.t) (required_items : gset string) : nat :=
  1 + (2 + total_exits m) * (length (MapGraph.rooms m) * 2 ^ size required_items).
End Validation.

(** * Level factory (models/behavior/level_factory.py) *)

Module LevelFactory.
Import LevelDefinition.

(** [d[k]] on a key that may be absent. *)
Definition required_key {A : Type} (key : string) (o : option A) : result A :=
  match o with
  | Some a => Ok a
  | None => Raise (KeyError key)
  end.

Definition build_item (item_def : LevelDefinition.item_def) : result Item.t :=
  let* type := required_key "type" (type item_def) in
  if String.eqb type "relic" then
    let* name := required_key "name" (item_name item_def) in Ok (Item.Relic name)
  else if String.eqb type "villain" then
    let* name := required_key "name" (item_name item_def) in Ok (Item.Villain name)
  else Raise (ValueError ("Unknown item type: " +:+ type)).

Definition build_room (room_name : string) (room_def : LevelDefinition.room_def)
    : result Room.t :=
  let* item :=
    match item room_def with
    | Some item_def => let* i := build_item item_def in Ok (Some i)
    | None => Ok None
    end in
  Ok (Room.mk room_name (exits room_def) item).

Fixpoint build_rooms (defs : list (string * LevelDefinition.room_def))
    : result (list (string * Room.t)) :=
  match defs with
  | [] => Ok []
  | (room_name, room_def) :: defs =>
      let* room := build_room room_name room_def in
      let* rooms := build_rooms defs in
      Ok ((room_name, room) :: rooms)
  end.

(** [from_definition]; [None] when the solver is still running after [fuel]
    iterations. *)
Definition from_definition (fuel : nat) (defn : LevelDefinition.t)
    : option (result Level.t) :=
  match Validation.validate_level_definition defn with
  | Raise e => Some (Raise e)
  | Ok _ =>
      match (let* room_defs := required_key "rooms" (rooms defn) in
             let* rooms := build_rooms room_defs in
             let* coords := required_key "coords" (coords defn) in
             let map_graph := MapGraph.mk rooms coords in
             let* rules := required_key "rules" (rules defn) in
             let* required_items := required_key "required_items" (required_items rules) in
             let* start_room := required_key "start_room" (start_room defn) in
             Ok (map_graph, (list_to_set required_items : gset string), start_room)) with
      | Raise e => Some (Raise e)
      | Ok (map_graph, required_items, start_room) =>
          match Validation.compute_optimal_moves map_graph required_items fuel start_room with
          | None => None
          | Some (Raise e) => Some (Raise e)
          | Some (Ok optimal_moves) =>
              Some (let* difficulty := required_key "difficulty" (difficulty defn) in
                    let* difficulty := Difficulty.of_value difficulty in
                    let* id := required_key "id" (id defn) in
                    let* name := required_key "name" (name defn) in
                    Ok (Level.mk id name difficulty start_room map_graph
                          (StandardRules.mk required_items)
                          (Difficulty.visibility_policy difficulty)
                          (Difficulty.scoring_strategy difficulty)
                          (Some (Z.of_nat optimal_moves))))
          end
      end
  end.
End LevelFactory.

(** * Scoring strategies (models/domain/scoring.py) *)

(** Python truthiness of an [int | None]: [None] and [0] are falsy. *)
Definition truthy_opt_int (o : option Z) : bool :=
  match o with
  | None => false
  | Some z => negb (z =? 0)%Z
  end.

Module StandardScore.
Section calculate.
Context {datetime : Type}.
Implicit Types (state : GameState.t datetime) (level : Level.t).

Definition WIN_BASE : Z := 1000.
Definition MAX_PROGRESS_SCORE : Z := 500.
Definition MAX_EFFICIENCY_SCORE : Z := 1000.

(** [collected = len(state.collected_items)] *)
Definition collected state : Z :=
  Z.of_nat (size (GameState.collected_items state)).

(** [total_required = len(level.rules.required_items)] *)
Definition total_required level : Z :=
  Z.of_nat (size (StandardRules.required_items (Level.rules level))).

(** [progress = collected / total_required if total_required else 0.0] *)
Definition progress state level : result PyFloat.float :=
  if negb (total_required level =? 0)%Z
  then PyFloat.truediv (collected state) (total_required level)
  else Ok 0%Q.

(** [progress_score = int(self.MAX_PROGRESS_SCORE * progress)] *)
Definition progress_score state level : result Z :=
  let* progress := progress state level in
  let* x := PyFloat.int_mul MAX_PROGRESS_SCORE progress in
  Ok (PyFloat.to_int x).

(** The [if not level.optimal_moves or state.move_count <= 0] branch. *)
Definition efficiency state level : result PyFloat.float :=
  if negb (truthy_opt_int (Level.optimal_moves level))
     || (GameState.move_count state <=? 0)%Z
  then Ok 1%Q
  else
    let* q := PyFloat.truediv (default 0%Z (Level.optimal_moves level))
                              (GameState.move_count state) in
    Ok (PyFloat.min q 1%Q).

(** [efficiency_score = int(self.MAX_EFFICIENCY_SCORE * efficiency)] *)
Definition efficiency_score state level : result Z :=
  let* efficiency := efficiency state level in
  let* y := PyFloat.int_mul MAX_EFFICIENCY_SCORE efficiency in
  Ok (PyFloat.to_int y).

(** [int(self.WIN_BASE + progress_score + efficiency_score * multiplier)] *)
Definition final_score (progress_score efficiency_score : Z)
    (multiplier : PyFloat.float) : result Z :=
  let* t := PyFloat.int_mul efficiency_score multiplier in
  let* s := PyFloat.int_add (WIN_BASE + progress_score) t in
  Ok (PyFloat.to_int s).

Definition calculate state level : result Z :=
  let* progress_score := progress_score state level in
  if negb (bool_decide (GameState.status state = GameStatus.COMPLETED))
  then Ok progress_score
  else
    let* efficiency_score := efficiency_score state level in
    let scoring_policy := Difficulty.scoring_policy (Level.difficulty level) in
    let multiplier := ScoringPolicy.multiplier scoring_policy in
    final_score progress_score efficiency_score multiplier.
End calculate.
End StandardScore.

Module MaxMovesScore.
Section calculate.
Context {datetime : Type}.
Implicit Types (state : GameState.t datetime) (level : Level.t).

Definition OVERAGE_PENALTY_FACTOR : PyFloat.float := (1 # 2)%Q.   (* 0.5 *)

(** [penalty_ratio = min(overage / level.optimal_moves, 1.0)] *)
Definition penalty_ratio (overage optimal_moves : Z) : result PyFloat.float :=
  let* q := PyFloat.truediv overage optimal_moves in
  Ok (PyFloat.min q 1%Q).

(** [penalty = int(base_score * penalty_ratio * self.OVERAGE_PENALTY_FACTOR)] *)
Definition penalty (base_score : Z) (penalty_ratio : PyFloat.float) : result Z :=
  let* x := PyFloat.int_mul base_score penalty_ratio in
  let* y := PyFloat.mul x OVERAGE_PENALTY_FACTOR in
  Ok (PyFloat.to_int y).

Definition calculate state level : result Z :=
  let* base_score := StandardScore.calculate state level in
  if negb (bool_decide (GameState.status state = GameStatus.COMPLETED))
  then Ok base_score
  else if negb (truthy_opt_int (Level.optimal_moves level))
  then Ok base_score
  else
    let optimal_moves := default 0%Z (Level.optimal_moves level) in
    if (GameState.move_count state <=? optimal_moves)%Z
    then Ok base_score
    else
      let overage := (GameState.move_count state - optimal_moves)%Z in
      let* penalty_ratio := penalty_ratio overage optimal_moves in
      let* penalty := penalty base_score penalty_ratio in
      Ok (Z.max (base_score - penalty) 0).
End calculate.
End MaxMovesScore.

(** [strategy.calculate(state, level)]: dispatch on the strategy's class. *)
Definition ScoreStrategy_calculate {datetime : Type} (strategy : ScoreStrategy.t)
    (state : GameState.t datetime) (level : Level.t) : result Z :=
  match strategy with
  | ScoreStrategy.StandardScore => StandardScore.calculate state level
  | ScoreStrategy.MaxMovesScore => MaxMovesScore.calculate state level
  end.

(** * Records (models/records) *)

Module GameSave.
Record t {datetime : Type} : Type := mk {
  user_email : string;
  level_id : string;
  state : GameState.t datetime;
  created_at : datetime;
  updated_at : datetime
}.
Arguments t : clear implicits.
Arguments mk {datetime}.
End GameSave.

Module GameResult.
(** The free-form [snapshot] dict written at finalization. *)
Record snapshot_t : Type := mk_snapshot {
  final_room : string;
  inventory : list string;
  encountered_villain : bool;
  optimal_moves : option Z
}.

Record t {datetime : Type} : Type := mk {
  user_email : string;
  level_id : string;
  status : GameStatus.t;
  score : Z;
  moves : Z;
  items_collected : Z;
  finished_at : datetime;
  snapshot : option snapshot_t
}.
Arguments t : clear implicits.
Arguments mk {datetime}.
End GameResult.

(** [sorted(s)] on a set of strings. *)
Definition string_le (a b : string) : Prop := String.leb a b = true.
#[global] Instance string_le_dec (a b : string) : Decision (string_le a b).
Proof. unfold string_le. solve_decision. Defined.
Definition sorted (s : gset string) : list string := merge_sort string_le (elements s).

(** * The game controller (controllers/game.py) *)

(** The controller talks to its collaborators through abstract interfaces:
    the level repository is a lookup, the clock is read one tick at a time,
    and the calls to the save and history repositories are recorded in order. *)
Module GameController.
Section controller.
Context {datetime : Type}.
Context (clock : nat → datetime).               (* the n-th [datetime.now(timezone.utc)] *)
Context (levels_get : string → option Level.t). (* [LevelRepository.get] *)

Inductive call : Type :=
  | upsert_active (save : GameSave.t datetime)
  | delete_active (user_email : string)
  | history_add (r : GameResult.t datetime).

Record world : Type := mk_world {
  ticks : nat;            (* readings of the clock so far *)
  calls : list call       (* repository calls so far, oldest first *)
}.

Definition M (A : Type) : Type := world → result (A * world).

Definition ret {A : Type} (a : A) : M A := fun w => Ok (a, w).
Definition mbind {A B : Type} (m : M A) (k : A → M B) : M B :=
  fun w => match m w with
           | Ok (a, w') => k a w'
           | Raise e => Raise e
           end.
Definition lift {A : Type} (r : result A) : M A :=
  fun w => match r with
           | Ok a => Ok (a, w)
           | Raise e => Raise e
           end.
Definition now : M datetime :=
  fun w => Ok (clock (ticks w), mk_world (S (ticks w)) (calls w)).
Definition emit (c : call) : M unit :=
  fun w => Ok (tt, mk_world (ticks w) (calls w ++ [c])).

Notation "'do' x <- m ; k" := (mbind m (fun x => k))
  (at level 10, x name, m at level 100, k at level 200).

Implicit Types (state : GameState.t datetime) (level : Level.t).

Definition _require_level (level_id : string) : M Level.t :=
  match levels_get level_id with
  | Some level => ret level
  | None => lift (Raise (ValueError ("Unknown level_id: " +:+ level_id)))
  end.

Definition _autosave (user_email level_id : string) state : M (GameState.t datetime) :=
  do t <- now;
  let state := GameState.set_updated_at t state in
  do created_at <- now;
  do updated_at <- now;
  let save := GameSave.mk user_email level_id state created_at updated_at in
  do _ <- emit (upsert_active save);
  ret state.

Definition _persist_or_finalize (user_email level_id : string) state
    : M (GameState.t datetime) :=
  if negb (GameStatus.is_terminal (GameState.status state)) then
    _autosave user_email level_id state
  else
    do t <- now;
    let state := GameState.set_updated_at t state in
    do level <- _require_level level_id;
    do score <- lift (ScoreStrategy_calculate (Level.scoring level) state level);
    do finished_at <- now;
    let result :=
      GameResult.mk user_email level_id (GameState.status state) score
        (GameState.move_count state)
        (Z.of_nat (size (GameState.collected_items state)))
        finished_at
        (Some (GameResult.mk_snapshot
                 (Player.location (GameState.player state))
                 (sorted (GameState.collected_items state))
                 (GameState.encountered_villain state)
                 (Level.optimal_moves level))) in
    do _ <- emit (history_add result);
    do _ <- emit (delete_active user_email);
    ret state.

Definition start_new_run (user_email level_id : string) : M (GameState.t datetime) :=
  do level <- _require_level level_id;
  do started_at <- now;
  do updated_at <- now;
  let state := GameState.start level_id (Level.start_room level) started_at updated_at in
  let state := GameState.set_message (Some ("Started " +:+ Level.name level)) state in
  let state := GameState.log ("Started level " +:+ Level.name level) state in
  _autosave user_email level_id state.

Definition move (user_email level_id : string) state (direction : string)
    : M (GameState.t datetime) :=
  if GameStatus.is_terminal (GameState.status state) then
    ret (GameState.set_message (Some "Game already ended.") state)
  else
    do level <- _require_level level_id;
    do room <- lift (dict_item (MapGraph.rooms (Level.map level))
                               (Player.location (GameState.player state)));
    match dict_get (Room.exits room) direction with
    | None =>
        let state := GameState.set_move_count (GameState.move_count state + 1) state in
        let state := GameState.set_message (Some "You bumped into a wall.") state in
        let state := GameState.log "Bumped into a wall" state in
        _autosave user_email level_id state
    | Some next_room =>
        let state := GameState.set_location next_room state in
        let state := GameState.set_move_count (GameState.move_count state + 1) state in
        let state := GameState.visit next_room state in
        let state :=
          GameState.log ("Moved " +:+ direction +:+ " to " +:+ next_room) state in
        let state := GameState.set_message None state in
        do entered_room <- lift (dict_item (MapGraph.rooms (Level.map level)) next_room);
        let state :=
          match Room.item entered_room with
          | Some i => Item.on_enter i state
          | None => state
          end in
        let state := StandardRules.check (Level.rules level) state entered_room in
        _persist_or_finalize user_email level_id state
    end.
End controller.
End GameController.

(** * Session serialisation (models/records/serialization.py) *)

(** JSON-compatible Python values. *)
Unset Elimination Schemes.
Inductive pyvalue : Type :=
  | PNone
  | PBool (b : bool)
  | PInt (z : Z)
  | PStr (s : string)
  | PList (l : list pyvalue)
  | PDict (d : list (string * pyvalue)).
Set Elimination Schemes.

Module Serialization.
(** The state's attributes are typed; a value of another type in their
    place is reported as a [TypeError]. *)
Definition as_dict (v : pyvalue) : result (list (string * pyvalue)) :=
  match v with PDict d => Ok d | _ => Raise (TypeError "dict expected") end.
Definition as_str (v : pyvalue) : result string :=
  match v with PStr s => Ok s | _ => Raise (TypeError "str expected") end.
Definition as_int (v : pyvalue) : result Z :=
  match v with PInt z => Ok z | _ => Raise (TypeError "int expected") end.
Definition as_bool (v : pyvalue) : result bool :=
  match v with PBool b => Ok b | _ => Raise (TypeError "bool expected") end.
Definition as_opt_str (v : pyvalue) : result (option string) :=
  match v with
  | PNone => Ok None
  | PStr s => Ok (Some s)
  | _ => Raise (TypeError "str or None expected")
  end.
Fixpoint as_strs (l : list pyvalue) : result (list string) :=
  match l with
  | [] => Ok []
  | v :: l' => let* s := as_str v in let* r := as_strs l' in Ok (s :: r)
  end.
Definition as_str_list (v : pyvalue) : result (list string) :=
  match v with PList l => as_strs l | _ => Raise (TypeError "list expected") end.

(** [d.get(k, default)] *)
Definition get_default (d : list (string * pyvalue)) (k : string) (default : pyvalue)
    : pyvalue :=
  match dict_get d k with
  | Some v => v
  | None => default
  end.

Section codec.
Context {datetime : Type}.
Context (isoformat : datetime → string).               (* [datetime.isoformat] *)
Context (fromisoformat : string → result datetime).    (* [datetime.fromisoformat] *)

Definition gamestate_to_dict (state : GameState.t datetime) : pyvalue :=
  PDict [
    ("level_id", PStr (GameState.level_id state));
    ("player", PDict [ ("location", PStr (Player.location (GameState.player state))) ]);
    ("visited_rooms", PList (PStr <$> elements (GameState.visited_rooms state)));
    ("collected_items", PList (PStr <$> elements (GameState.collected_items state)));
    ("move_count", PInt (GameState.move_count state));
    ("status", PStr (GameStatus.value (GameState.status state)));
    ("message", match GameState.message state with Some m => PStr m | None => PNone end);
    ("event_log", PList (PStr <$> GameState.event_log state));
    ("encountered_villain", PBool (GameState.encountered_villain state));
    ("started_at", PStr (isoformat (GameState.started_at state)));
    ("updated_at", PStr (isoformat (GameState.updated_at state)))
  ].

Definition gamestate_from_dict (data : pyvalue) : result (GameState.t datetime) :=
  let* data := as_dict data in
  let* player_data := dict_item data "player" in
  let* player_data := as_dict player_data in
  let* location := dict_item player_data "location" in
  let* location := as_str location in
  let player := Player.mk location in
  let* level_id := dict_item data "level_id" in
  let* level_id := as_str level_id in
  let* visited_rooms := as_str_list (get_default data "visited_rooms" (PList [])) in
  let* collected_items := as_str_list (get_default data "collected_items" (PList [])) in
  let* move_count := as_int (get_default data "move_count" (PInt 0)) in
  let* status := as_str (get_default data "status"
                           (PStr (GameStatus.value GameStatus.IN_PROGRESS))) in
  let* status := GameStatus.of_value status in
  let* message := as_opt_str (get_default data "message" PNone) in
  let* event_log := as_str_list (get_default data "event_log" (PList [])) in
  let* encountered_villain := as_bool (get_default data "encountered_villain" (PBool false)) in
  let* started_at := dict_item data "started_at" in
  let* started_at := as_str started_at in
  let* started_at := fromisoformat started_at in
  let* updated_at := dict_item data "updated_at" in
  let* updated_at := as_str updated_at in
  let* updated_at := fromisoformat updated_at in
  let state :=
    GameState.mk level_id player (list_to_set visited_rooms) (list_to_set collected_items)
      move_count status message event_log started_at updated_at encountered_villain in
  (* Reassert core invariant: current location is always visited *)
  Ok (GameState.visit (Player.location (GameState.player state)) state).

(** The session states of a running application: started by the
    controller, advanced by its moves, and restored from a save. *)
Inductive reachable (clock : nat → datetime) (levels_get : string → option Level.t)
    : GameState.t datetime → Prop :=
  | reachable_start user_email level_id w state w' :
      GameController.start_new_run clock levels_get user_email level_id w = Ok (state, w') →
      reachable clock levels_get state
  | reachable_move user_email level_id direction state w state' w' :
      reachable clock levels_get state →
      GameController.move clock levels_get user_email level_id state direction w
        = Ok (state', w') →
      reachable clock levels_get state'
  | reachable_restore state state' :
      reachable clock levels_get state →
      gamestate_from_dict (gamestate_to_dict state) = Ok state' →
      reachable clock levels_get state'.
End codec.
End Serialization.

(** ** Vocabulary of the scoring properties *)

(** [dataclasses.replace(level, optimal_moves=o)] *)
Definition with_optimal_moves (o : option Z) (level : Level.t) : Level.t :=
  Level.mk (Level.id level) (Level.name level) (Level.difficulty level)
    (Level.start_room level) (Level.map level) (Level.rules level)
    (Level.visibility level) (Level.scoring level) o.

(** The same level at another difficulty: the factory resolves the visibility
    policy and the scoring strategy from the difficulty. *)
Definition with_difficulty (d : Difficulty.t) (level : Level.t) : Level.t :=
  Level.mk (Level.id level) (Level.name level) d
    (Level.start_room level) (Level.map level) (Level.rules level)
    (Difficulty.visibility_policy d) (Difficulty.scoring_strategy d)
    (Level.optimal_moves level).

(** What a running game can hand to a scoring strategy: set sizes and the move
    counter fit a machine word, and the optimum, when there is one, is a
    distance found by the solver. *)
Definition in_range {datetime : Type} (state : GameState.t datetime) (level : Level.t) : Prop :=
  (Z.of_nat (size (GameState.collected_items state)) < 2 ^ 63)%Z ∧
  (GameState.move_count state < 2 ^ 63)%Z ∧
  match Level.optimal_moves level with
  | Some o => (0 ≤ o < 2 ^ 63)%Z
  | None => True
  end.

(** The score of a state on a level set to difficulty [d], computed by the
    strategy that difficulty resolves to. *)
Definition score_at {datetime : Type} (d : Difficulty.t)
    (state : GameState.t datetime) (level : Level.t) : result Z :=
  ScoreStrategy_calculate (Difficulty.scoring_strategy d) state (with_difficulty d level).

Section scoring_statements.
Context {datetime : Type}.
Implicit Types (state : GameState.t datetime) (level : Level.t).

(** Progress counted over the required items only, as the design document
    words it ([collected_required / total_required]). *)
Definition progress_score_as_stated state level : result Z :=
  let required := StandardRules.required_items (Level.rules level) in
  let collected_required := Z.of_nat (size (GameState.collected_items state ∩ required)) in
  let total_required := Z.of_nat (size required) in
  let* progress :=
    if negb (total_required =? 0)%Z
    then PyFloat.truediv collected_required total_required
    else Ok 0%Q in
  let* x := PyFloat.int_mul 500 progress in
  Ok (Qfloor x).

(** [floor(1000 + progress_score + efficiency_score * multiplier)] with
    [efficiency_score = floor(1000 * eff)], for a given efficiency. *)
Definition completed_score_from (eff : PyFloat.float) state level : Prop :=
  ∃ (progress_score : Z) (y t s : PyFloat.float),
    StandardScore.progress_score state level = Ok progress_score ∧
    PyFloat.int_mul 1000 eff = Ok y ∧
    PyFloat.int_mul (Qfloor y)
      (ScoringPolicy.multiplier (Difficulty.scoring_policy (Level.difficulty level))) = Ok t ∧
    PyFloat.int_add (1000 + progress_score) t = Ok s ∧
    StandardScore.calculate state level = Ok (Qfloor s).

(** The efficiency as the design document states it: the quotient whenever
    the optimum is defined and a move was made. *)
Definition efficiency_as_stated state level (eff : PyFloat.float) : Prop :=
  match Level.optimal_moves level with
  | Some o =>
      if (0 <? GameState.move_count state)%Z
      then ∃ q, PyFloat.truediv o (GameState.move_count state) = Ok q ∧ eff = PyFloat.min q 1%Q
      else eff = 1%Q
  | None => eff = 1%Q
  end.

(** The efficiency with a zero optimum read as an undefined one. *)
Definition efficiency_rule state level (eff : PyFloat.float) : Prop :=
  match Level.optimal_moves level with
  | Some o =>
      if negb (o =? 0)%Z && (0 <? GameState.move_count state)%Z
      then ∃ q, PyFloat.truediv o (GameState.move_count state) = Ok q ∧ eff = PyFloat.min q 1%Q
      else eff = 1%Q
  | None => eff = 1%Q
  end.

Definition completed_score_as_stated state level : Prop :=
  GameState.status state = GameStatus.COMPLETED →
  ∃ eff, efficiency_as_stated state level eff ∧ completed_score_from eff state level.

(** [max(base - floor(base * min(overage / optimal, 1.0) * 0.5), 0)] *)
Definition penalized_from (base optimal : Z) state level : Prop :=
  ∃ (q x y : PyFloat.float),
    PyFloat.truediv (GameState.move_count state - optimal) optimal = Ok q ∧
    PyFloat.int_mul base (PyFloat.min q 1%Q) = Ok x ∧
    PyFloat.mul x (1 # 2)%Q = Ok y ∧
    MaxMovesScore.calculate state level = Ok (Z.max (base - Qfloor y) 0).

(** The penalised variant as the design document states it. *)
Definition penalized_score_as_stated state level : Prop :=
  ∃ base, StandardScore.calculate state level = Ok base ∧
    (∀ o, GameState.status state = GameStatus.COMPLETED →
          Level.optimal_moves level = Some o →
          (o < GameState.move_count state)%Z →
          penalized_from base o state level) ∧
    (GameState.status state ≠ GameStatus.COMPLETED ∨
     Level.optimal_moves level = None ∨
     (∃ o, Level.optimal_moves level = Some o ∧ (GameState.move_count state ≤ o)%Z) →
     MaxMovesScore.calculate state level = Ok base).

(** The hard strategy applies no overage penalty. *)
Definition no_overage_penalty state level : Prop :=
  GameState.status state ≠ GameStatus.COMPLETED ∨
  Level.optimal_moves level = None ∨
  Level.optimal_moves level = Some 0%Z ∨
  (∃ o, Level.optimal_moves level = Some o ∧ (GameState.move_count state ≤ o)%Z).

(** Scores ordered by difficulty, as the design document states it. *)
Definition difficulty_monotone state level : Prop :=
  ∃ e m h, score_at Difficulty.EASY state level = Ok e ∧
           score_at Difficulty.MEDIUM state level = Ok m ∧
           score_at Difficulty.HARD state level = Ok h ∧
           (e ≤ m)%Z ∧ (m ≤ h)%Z.
End scoring_statements.

(** ** Sample sessions on the seeded easy level's rule set *)

Definition six_stones : gset string :=
  {[ "Blue Stone"; "Yellow Stone"; "Red Stone"; "Purple Stone"; "Green Stone"; "Orange Stone" ]}.

Definition five_stones : gset string :=
  {[ "Blue Stone"; "Yellow Stone"; "Red Stone"; "Purple Stone"; "Green Stone" ]}.

Definition sample_level (d : Difficulty.t) (required : gset string)
    (optimal_moves : option Z) : Level.t :=
  Level.mk "level" "Level" d "Avengers Campus" (MapGraph.mk [] [])
    (StandardRules.mk required)
    (Difficulty.visibility_policy d) (Difficulty.scoring_strategy d) optimal_moves.

Definition sample_state (collected : gset string) (move_count : Z)
    (status : GameStatus.t) : GameState.t unit :=
  GameState.mk "level" (Player.mk "Avengers Compound") {[ "Avengers Compound" ]}
    collected move_count status None [] tt tt true.

(** ** A two-room level: A, then the villain's room B to the east *)

Definition two_rooms : MapGraph.t :=
  MapGraph.mk
    [ ("A", Room.mk "A" [("east", "B")] None);
      ("B", Room.mk "B" [("west", "A")] (Some (Item.Villain "Villain"))) ]
    [ ("A", (0, 0)%Z); ("B", (1, 0)%Z) ].

Definition two_rooms_level : Level.t :=
  Level.mk "level_test" "Test Level" Difficulty.EASY "A" two_rooms
    (StandardRules.mk ∅)
    (Difficulty.visibility_policy Difficulty.EASY)
    (Difficulty.scoring_strategy Difficulty.EASY) (Some 1%Z).

Definition two_rooms_repo (level_id : string) : option Level.t :=
  if String.eqb level_id "level_test" then Some two_rooms_level else None.

(** A clock that reads its own tick count. *)
Definition tick_clock (n : nat) : nat := n.

Definition two_rooms_start : GameState.t nat :=
  GameState.start "level_test" "A" 0 1.

Definition fresh_world : GameController.world (datetime := nat) :=
  GameController.mk_world 2 [].

(** ** Vocabulary of the movement properties *)

(** What the rules make of entering [entered_room]: [before] is the state
    the move started from, [after] the state it returned. *)
Definition rules_outcome {datetime : Type} (level : Level.t) (entered_room : Room.t)
    (before after : GameState.t datetime) : Prop :=
  match Room.item entered_room with
  | Some (Item.Villain _) =>
      if decide (StandardRules.required_items (Level.rules level)
                   ⊆ GameState.collected_items before)
      then GameState.status after = GameStatus.COMPLETED ∧
           GameState.message after = Some "You defeated the villain!"
      else GameState.status after = GameStatus.GAME_OVER ∧
           GameState.message after = Some "You found the villain too soon."
  | _ => GameState.status after = GameState.status before
  end.

(** ** A codec and a clock for sample sessions: timestamps kept as ISO-8601 text *)

Definition text_isoformat (t : string) : string := t.
Definition text_fromisoformat (s : string) : result string := Ok s.
Definition noon_clock (n : nat) : string := "2026-01-01T12:00:00+00:00".

Definition text_world : GameController.world (datetime := string) :=
  GameController.mk_world 0 [].

(** The session that [start_new_run] opens on the two-room level. *)
Definition started_session : GameState.t string :=
  GameState.set_updated_at (noon_clock 2)
    (GameState.log "Started level Test Level"
       (GameState.set_message (Some "Started Test Level")
          (GameState.start "level_test" "A" (noon_clock 0) (noon_clock 1)))).

(** ** Vocabulary of the solver's properties *)

Module Solvability.
Import LevelDefinition.

Section paths.
Context (room_defs : list (string * room_def)) (required : gset string).

Definition holds_villain (room : string) : Prop :=
  ∃ r, dict_get room_defs room = Some r ∧ Validation.is_villain_def r = true.

(** Some exit of room [a] leads to room [b]. *)
Definition exit_to (a b : string) : Prop :=
  ∃ r d, dict_get room_defs a = Some r ∧ (d, b) ∈ exits r.

(** The name that the search picks up in a room: the name of the room's
    item, of whatever type, when it is listed as required. *)
Definition found_in (room : string) : gset string :=
  match dict_get room_defs room with
  | Some r =>
      match item r with
      | Some i =>
          match item_name i with
          | Some n => if decide (n ∈ required) then {[ n ]} else ∅
          | None => ∅
          end
      | None => ∅
      end
  | None => ∅
  end.

(** The names that the search picks up along [p], in its first room as
    in every other. *)
Definition collected_along (p : list string) : gset string := ⋃ (found_in <$> p).

(** A sequence of rooms joined by exits that never leaves the villain's
    room: entering it ends the path. *)
Inductive legal : list string → Prop :=
  | legal_one room : legal [room]
  | legal_step a b p :
      exit_to a b → ¬ holds_villain a → legal (b :: p) → legal (a :: b :: p).

(** A path from [start] that ends in the villain's room with every
    required name picked up along it. *)
Definition winning_path (start : string) (p : list string) : Prop :=
  head p = Some start ∧ legal p ∧
  (∃ v, last p = Some v ∧ holds_villain v) ∧
  required ⊆ collected_along p.

(** The moves of a path: one per room entered. *)
Definition moves (p : list string) : nat := pred (length p).

Definition solvable (start : string) : Prop := ∃ p, winning_path start p.

(** [n] is the least number of moves of a winning path. *)
Definition optimal (start : string) (n : nat) : Prop :=
  (∃ p, winning_path start p ∧ moves p = n) ∧
  (∀ p, winning_path start p → n ≤ moves p).
End paths.

(** A definition that passes the structural validation and the factory's
    own checks: the seven keys and the required-item list are present, the
    difficulty is one of the three, the rooms form a dict whose exits stay
    inside it, every room has a coordinate, exactly one room holds a
    villain, and every item is a named relic or villain. *)
Record well_formed (defn : LevelDefinition.t)
    (room_defs : list (string * room_def)) (required : list string) (start : string)
    : Prop := {
  wf_id : is_Some (id defn);
  wf_name : is_Some (name defn);
  wf_difficulty :
    ∃ d, difficulty defn = Some d ∧ d ∈ ["easy"; "medium"; "hard"];
  wf_start : start_room defn = Some start;
  wf_rooms : rooms defn = Some room_defs;
  wf_rules : rules defn = Some (mk_rules (Some required));
  wf_dict : NoDup (dict_keys room_defs);
  wf_start_room : start ∈ dict_keys room_defs;
  wf_exits :
    Forall (λ nr, Forall (λ dt, dt.2 ∈ dict_keys room_defs) (exits nr.2)) room_defs;
  wf_coords :
    ∃ coords, LevelDefinition.coords defn = Some coords ∧
              Forall (λ room, room ∈ dict_keys coords) (dict_keys room_defs);
  wf_villain :
    length (filter (λ r, Validation.is_villain_def r = true) room_defs.*2) = 1;
  wf_items :
    Forall (λ nr, match item nr.2 with
                  | Some i => type i ∈ [Some "relic"; Some "villain"] ∧
                              is_Some (item_name i)
                  | None => True
                  end) room_defs
}.
End Solvability.

(** ** The seeded easy level (levels/seed_levels.py) *)

Definition relic (name : string) : option LevelDefinition.item_def :=
  Some (LevelDefinition.mk_item (Some "relic") (Some name)).

Definition level_easy : LevelDefinition.t :=
  LevelDefinition.mk (Some "level_easy") (Some "Relic Rush - Easy") (Some "easy")
    (Some "Avengers Campus")
    (Some [
      ("Space Room", LevelDefinition.mk_room
         [("south", "Reality Room"); ("east", "Avengers Campus")] (relic "Blue Stone"));
      ("Avengers Campus", LevelDefinition.mk_room
         [("south", "Power Room"); ("east", "Mind Room"); ("west", "Space Room")] None);
      ("Mind Room", LevelDefinition.mk_room
         [("south", "Time Room"); ("west", "Avengers Campus")] (relic "Yellow Stone"));
      ("Reality Room", LevelDefinition.mk_room
         [("north", "Space Room"); ("south", "Soul Room"); ("east", "Power Room")]
         (relic "Red Stone"));
      ("Power Room", LevelDefinition.mk_room
         [("north", "Avengers Campus"); ("east", "Time Room"); ("west", "Reality Room")]
         (relic "Purple Stone"));
      ("Time Room", LevelDefinition.mk_room
         [("north", "Mind Room"); ("south", "Avengers Compound"); ("west", "Power Room")]
         (relic "Green Stone"));
      ("Soul Room", LevelDefinition.mk_room
         [("north", "Reality Room")] (relic "Orange Stone"));
      ("Avengers Compound", LevelDefinition.mk_room
         [("north", "Time Room")]
         (Some (LevelDefinition.mk_item (Some "villain") (Some "Villain"))))
    ])
    (Some [
      ("Space Room", (1, 0)%Z); ("Avengers Campus", (2, 0)%Z); ("Mind Room", (3, 0)%Z);
      ("Reality Room", (1, 1)%Z); ("Power Room", (2, 1)%Z); ("Time Room", (3, 1)%Z);
      ("Soul Room", (1, 2)%Z); ("Avengers Compound", (3, 2)%Z)
    ])
    (Some (LevelDefinition.mk_rules (Some [
      "Blue Stone"; "Yellow Stone"; "Red Stone"; "Purple Stone"; "Green Stone"; "Orange Stone"
    ]))).

(** A relic in the start room: the solver counts it as collected before the
    first move (tests/models/behavior/test_validation.py). *)
Definition level_relic_at_start : LevelDefinition.t :=
  LevelDefinition.mk (Some "level_relic") (Some "Relic Level") (Some "hard") (Some "A")
    (Some [
      ("A", LevelDefinition.mk_room [("east", "B")] (relic "Relic1"));
      ("B", LevelDefinition.mk_room []
              (Some (LevelDefinition.mk_item (Some "villain") (Some "Villain"))))
    ])
    (Some [ ("A", (0, 0)%Z); ("B", (1, 0)%Z) ])
    (Some (LevelDefinition.mk_rules (Some [ "Relic1" ]))).

(** The villain's room cannot be reached. *)
Definition level_unreachable : LevelDefinition.t :=
  LevelDefinition.mk (Some "level_unreachable") (Some "No Way") (Some "easy") (Some "A")
    (Some [
      ("A", LevelDefinition.mk_room [] None);
      ("B", LevelDefinition.mk_room []
              (Some (LevelDefinition.mk_item (Some "villain") (Some "Villain"))))
    ])
    (Some [ ("A", (0, 0)%Z); ("B", (1, 0)%Z) ])
    (Some (LevelDefinition.mk_rules (Some []))).

(** The test suite's minimal level: A, then the villain's room B. *)
Definition level_test : LevelDefinition.t :=
  LevelDefinition.mk (Some "level_test") (Some "Test Level") (Some "easy") (Some "A")
    (Some [
      ("A", LevelDefinition.mk_room [("east", "B")] None);
      ("B", LevelDefinition.mk_room [("west", "A")]
              (Some (LevelDefinition.mk_item (Some "villain") (Some "Villain"))))
    ])
    (Some [ ("A", (0, 0)%Z); ("B", (1, 0)%Z) ])
    (Some (LevelDefinition.mk_rules (Some []))).

(** ** The solver's search space *)

(** The states [(room, items)] of the breadth-first search, their
    transitions, and the loop invariant. *)
Module SearchSpace.
Import Validation.

Definition state : Type := string * gset string.

Fixpoint sublists {A : Type} (l : list A) : list (list A) :=
  match l with
  | [] => [[]]
  | x :: l => sublists l ++ (cons x <$> sublists l)
  end.

Section search.
Context (m : MapGraph.t) (required : gset string) (start : string).

Definition init : state := (start, ∅).

(** One move: out of a room that does not hold the villain, through one
    of its exits, with the room's item picked up. *)
Definition edge (s t : state) : Prop :=
  ∃ r d, dict_get (MapGraph.rooms m) s.1 = Some r ∧
         is_villain (Room.item r) = false ∧
         (d, t.1) ∈ Room.exits r ∧
         t.2 = pick_up required (Room.item r) s.2.

Definition winning (s : state) : Prop :=
  ∃ r, dict_get (MapGraph.rooms m) s.1 = Some r ∧
       is_villain (Room.item r) = true ∧
       required ⊆ pick_up required (Room.item r) s.2.

(** [walk n s]: [s] is reached from the initial state in [n] moves. *)
Inductive walk : nat → state → Prop :=
  | walk_O : walk 0 init
  | walk_S n s t : walk n s → edge s t → walk (S n) t.

(** Every state that a queue entry can hold. *)
Definition universe : gset state :=
  list_to_set
    (flat_map (λ room, (λ l, (room, list_to_set l)) <$> sublists (elements required))
              (dict_keys (MapGraph.rooms m))).

(** The iterations left are bounded by the queue length plus, for every
    state not yet visited, one pop and one push per exit. *)
Definition potential (visited : gset state) (queue : list (state * nat)) : nat :=
  length queue + (2 + total_exits m) * size (universe ∖ visited).

Record invariant (visited : gset state) (queue : list (state * nat)) : Prop := {
  inv_walk : ∀ s k, (s, k) ∈ queue → walk k s;
  inv_sorted :
    ∃ d q1 q2, queue = q1 ++ q2 ∧
               Forall (λ e, e.2 = d) q1 ∧ Forall (λ e, e.2 = S d) q2;
  inv_nowin : ∀ s, s ∈ visited → ¬ winning s;
  inv_succ : ∀ u i t, u ∈ visited → walk i u → edge u t →
                      t ∈ visited ∨ ∃ k, (t, k) ∈ queue ∧ k ≤ S i;
  inv_init : init ∈ visited ∨ (init, 0) ∈ queue
}.

(** What the loop may return. *)
Definition post (r : result nat) : Prop :=
  match r with
  | Ok n => (∃ s, walk n s ∧ winning s) ∧ ∀ n' s', walk n' s' → winning s' → n ≤ n'
  | Raise e => e = LevelValidationError "Level is not solvable" ∧
               ∀ n s, walk n s → ¬ winning s
  end.
End search.

(** A room built by the factory mirrors its definition. *)
Definition mirrors (room_def : LevelDefinition.room_def) (r : Room.t) : Prop :=
  Room.exits r = LevelDefinition.exits room_def ∧
  is_villain (Room.item r) = is_villain_def room_def ∧
  Item.name <$> Room.item r
    = LevelDefinition.item room_def ≫= LevelDefinition.item_name.
End SearchSpace.


(** * Further vocabulary: levels, sessions, projections, repositories *)

(** ** Level definitions and built levels *)

(** The checks of [validate_level_definition] that precede the villain
    count: the seven keys, the start room, the exits and the coordinates. *)
Definition passes_checks (defn : LevelDefinition.t)
    (rooms : list (string * LevelDefinition.room_def)) : Prop :=
  ∃ coords start,
    is_Some (LevelDefinition.id defn) ∧ is_Some (LevelDefinition.name defn) ∧
    is_Some (LevelDefinition.difficulty defn) ∧ is_Some (LevelDefinition.rules defn) ∧
    LevelDefinition.rooms defn = Some rooms ∧
    LevelDefinition.coords defn = Some coords ∧
    LevelDefinition.start_room defn = Some start ∧
    start ∈ dict_keys rooms ∧
    (∀ room data direction target,
       (room, data) ∈ rooms → (direction, target) ∈ LevelDefinition.exits data →
       target ∈ dict_keys rooms) ∧
    (∀ room, room ∈ dict_keys rooms → room ∈ dict_keys coords).

(** Every item dict has the key [type]. *)
Definition items_typed (rooms : list LevelDefinition.room_def) : Prop :=
  Forall (λ data, ∀ i, LevelDefinition.item data = Some i →
                       is_Some (LevelDefinition.type i)) rooms.

(** What [validate_level_definition] accepts: the checks pass, every item
    has a type and exactly one room holds an item of type villain. *)
Definition structurally_valid (defn : LevelDefinition.t) : Prop :=
  ∃ rooms,
    passes_checks defn rooms ∧ items_typed rooms.*2 ∧
    length (filter (λ r, Validation.is_villain_def r = true) rooms.*2) = 1.

(** The invariants that models/domain/map_graph.py and models/domain/level.py
    document for a constructed level. *)
Module LevelInvariants.
Definition holds_Villain (r : Room.t) : Prop :=
  ∃ name, Room.item r = Some (Item.Villain name).
#[global] Instance holds_Villain_dec (r : Room.t) : Decision (holds_Villain r).
Proof.
  unfold holds_Villain. destruct (Room.item r) as [[n k|n|n]|].
  - right. by intros [? ?].
  - right. by intros [? ?].
  - left. by exists n.
  - right. by intros [? ?].
Defined.

Record t (level : Level.t) : Prop := {
  rooms_named :
    ∀ room r, (room, r) ∈ MapGraph.rooms (Level.map level) → Room.name r = room;
  start_exists :
    Level.start_room level ∈ dict_keys (MapGraph.rooms (Level.map level));
  exits_closed :
    ∀ room r direction target,
      (room, r) ∈ MapGraph.rooms (Level.map level) →
      (direction, target) ∈ Room.exits r →
      target ∈ dict_keys (MapGraph.rooms (Level.map level));
  coords_complete :
    ∀ room, room ∈ dict_keys (MapGraph.rooms (Level.map level)) →
            room ∈ dict_keys (MapGraph.coords (Level.map level));
  items_built :
    ∀ room r i, (room, r) ∈ MapGraph.rooms (Level.map level) → Room.item r = Some i →
                ∃ name, i = Item.Relic name ∨ i = Item.Villain name;
  one_villain :
    length (filter holds_Villain (MapGraph.rooms (Level.map level)).*2) = 1;
  policies :
    Level.visibility level = Difficulty.visibility_policy (Level.difficulty level) ∧
    Level.scoring level = Difficulty.scoring_strategy (Level.difficulty level);
  optimum : ∃ n, Level.optimal_moves level = Some (Z.of_nat n)
}.
End LevelInvariants.

(** A room built by the factory against its definition: the same exits, and
    the item of the definition's type and name. *)
Definition built_from (room_def : LevelDefinition.room_def) (r : Room.t) : Prop :=
  Room.exits r = LevelDefinition.exits room_def ∧
  match LevelDefinition.item room_def, Room.item r with
  | None, None => True
  | Some i, Some it =>
      ∃ name, LevelDefinition.item_name i = Some name ∧
              ((LevelDefinition.type i = Some "relic" ∧ it = Item.Relic name) ∨
               (LevelDefinition.type i = Some "villain" ∧ it = Item.Villain name))
  | _, _ => False
  end.

(** The sizes that the scoring arithmetic is proved for: the room count and
    the optimum fit a machine word. *)
Definition level_in_range (level : Level.t) : Prop :=
  (Z.of_nat (length (MapGraph.rooms (Level.map level))) < 2 ^ 63)%Z ∧
  match Level.optimal_moves level with
  | Some o => (0 ≤ o < 2 ^ 63)%Z
  | None => True
  end.

(** The item that entering a room adds to the collection. *)
Definition relic_of (r : Room.t) : gset string :=
  match Room.item r with
  | Some (Item.Relic name) => {[ name ]}
  | _ => ∅
  end.

(** ** Sessions (controllers/game.py, callbacks/game.py) *)

Module Session.
Section session.
Context {datetime : Type}.
Context (isoformat : datetime → string) (fromisoformat : string → result datetime).
Context (clock : nat → datetime) (levels_get : string → option Level.t).
Context (user_email level_id : string).

Implicit Types (state : GameState.t datetime) (level : Level.t).
Implicit Types (w : GameController.world (datetime := datetime)).

(** The state a blocked move leaves, before the autosave stamps it. *)
Definition bumped state : GameState.t datetime :=
  let state := GameState.set_move_count (GameState.move_count state + 1) state in
  let state := GameState.set_message (Some "You bumped into a wall.") state in
  GameState.log "Bumped into a wall" state.

(** The state after the player walked through [direction] into
    [entered_room], named [next_room], before it is saved or finalised. *)
Definition arrived level (direction next_room : string) (entered_room : Room.t) state
    : GameState.t datetime :=
  let state := GameState.set_location next_room state in
  let state := GameState.set_move_count (GameState.move_count state + 1) state in
  let state := GameState.visit next_room state in
  let state := GameState.log ("Moved " +:+ direction +:+ " to " +:+ next_room) state in
  let state := GameState.set_message None state in
  let state :=
    match Room.item entered_room with
    | Some i => Item.on_enter i state
    | None => state
    end in
  StandardRules.check (Level.rules level) state entered_room.

(** The record that finalisation adds to the history. *)
Definition final_result level state (score : Z) (finished_at : datetime)
    : GameResult.t datetime :=
  GameResult.mk user_email level_id (GameState.status state) score
    (GameState.move_count state)
    (Z.of_nat (size (GameState.collected_items state)))
    finished_at
    (Some (GameResult.mk_snapshot
             (Player.location (GameState.player state))
             (sorted (GameState.collected_items state))
             (GameState.encountered_villain state)
             (Level.optimal_moves level))).

(** One game of one user: opened by [start_new_run] on the world [w0],
    then advanced by [move], each time on the state the last call returned
    or on that state read back from its serialised form, as the move
    callback does. *)
Inductive run w0 : GameState.t datetime → GameController.world → Prop :=
  | run_start state w :
      GameController.start_new_run clock levels_get user_email level_id w0 = Ok (state, w) →
      run w0 state w
  | run_move state w direction state' w' :
      run w0 state w →
      GameController.move clock levels_get user_email level_id state direction w
        = Ok (state', w') →
      run w0 state' w'
  | run_restore state w state' :
      run w0 state w →
      Serialization.gamestate_from_dict fromisoformat
        (Serialization.gamestate_to_dict isoformat state) = Ok state' →
      run w0 state' w.

(** The invariants that models/domain/game_state.py documents for a
    session state, read on the level being played, with what the rules
    make of the villain. *)
Record consistent level state : Prop := {
  location_valid :
    Player.location (GameState.player state) ∈ dict_keys (MapGraph.rooms (Level.map level));
  location_visited :
    Player.location (GameState.player state) ∈ GameState.visited_rooms state;
  visited_valid :
    ∀ room, room ∈ GameState.visited_rooms state →
            room ∈ dict_keys (MapGraph.rooms (Level.map level));
  collected_found :
    ∀ name, name ∈ GameState.collected_items state →
      ∃ room r, room ∈ GameState.visited_rooms state ∧
                dict_get (MapGraph.rooms (Level.map level)) room = Some r ∧
                Room.item r = Some (Item.Relic name);
  moves_counted : (0 ≤ GameState.move_count state)%Z;
  level_bound : GameState.level_id state = level_id;
  villain_met :
    GameState.encountered_villain state = true ↔
    GameState.status state ≠ GameStatus.IN_PROGRESS;
  villain_place :
    GameState.status state ≠ GameStatus.IN_PROGRESS →
    ∃ r, dict_get (MapGraph.rooms (Level.map level))
           (Player.location (GameState.player state)) = Some r ∧
         LevelInvariants.holds_Villain r;
  outcome :
    match GameState.status state with
    | GameStatus.COMPLETED =>
        StandardRules.required_items (Level.rules level) ⊆ GameState.collected_items state
    | GameStatus.GAME_OVER =>
        ¬ StandardRules.required_items (Level.rules level) ⊆ GameState.collected_items state
    | GameStatus.IN_PROGRESS => True
    end
}.

(** A game in progress is shadowed by the solver's search: some walk of
    the search, no longer than the moves made, ends in the player's room,
    which does not hold the villain, having picked up every required item
    that the player holds. *)
Definition shadowed level state : Prop :=
  ∃ (k : nat) (s : SearchSpace.state) (r : Room.t),
    SearchSpace.walk (Level.map level) (StandardRules.required_items (Level.rules level))
      (Level.start_room level) k s ∧
    s.1 = Player.location (GameState.player state) ∧
    (Z.of_nat k ≤ GameState.move_count state)%Z ∧
    dict_get (MapGraph.rooms (Level.map level)) s.1 = Some r ∧
    Validation.is_villain (Room.item r) = false ∧
    GameState.collected_items state ∩ StandardRules.required_items (Level.rules level)
      ⊆ Validation.pick_up (StandardRules.required_items (Level.rules level))
          (Room.item r) s.2.

(** Levels on which the search and the play collect alike: the start room
    holds no item, the villain is not itself listed as a required item, and
    the exits of a room, a dict, have distinct directions. *)
Definition plain level : Prop :=
  (∃ r, dict_get (MapGraph.rooms (Level.map level)) (Level.start_room level) = Some r ∧
        Room.item r = None) ∧
  (∀ room r name,
     (room, r) ∈ MapGraph.rooms (Level.map level) →
     Room.item r = Some (Item.Villain name) →
     name ∉ StandardRules.required_items (Level.rules level)) ∧
  (∀ room r, (room, r) ∈ MapGraph.rooms (Level.map level) → NoDup (Room.exits r).*1).

(** [move] once for each direction in turn. *)
Fixpoint play (directions : list string) state
    : GameController.M (GameState.t datetime) :=
  match directions with
  | [] => GameController.ret state
  | direction :: directions =>
      GameController.mbind
        (GameController.move clock levels_get user_email level_id state direction)
        (play directions)
  end.
End session.
End Session.

(** ** Play against the solver *)

(** A relic that play can collect: the relic of a room that some exit of the
    map leads to.  [start_new_run] places the player without calling
    [on_enter], and [move] calls it on the room behind the exit only. *)
Definition entered_relic (level : Level.t) (name : string) : Prop :=
  ∃ room r direction next_room entered_room,
    dict_get (MapGraph.rooms (Level.map level)) room = Some r ∧
    dict_get (Room.exits r) direction = Some next_room ∧
    dict_get (MapGraph.rooms (Level.map level)) next_room = Some entered_room ∧
    Room.item entered_room = Some (Item.Relic name).

(** The level that the factory builds from [level_relic_at_start]. *)
Definition relic_level : Level.t :=
  Level.mk "level_relic" "Relic Level" Difficulty.HARD "A"
    (MapGraph.mk
       [ ("A", Room.mk "A" [("east", "B")] (Some (Item.Relic "Relic1")));
         ("B", Room.mk "B" [] (Some (Item.Villain "Villain"))) ]
       [ ("A", (0, 0)%Z); ("B", (1, 0)%Z) ])
    (StandardRules.mk (list_to_set [ "Relic1" ]))
    (Difficulty.visibility_policy Difficulty.HARD)
    (Difficulty.scoring_strategy Difficulty.HARD) (Some 1%Z).

Definition relic_repo (level_id : string) : option Level.t :=
  if String.eqb level_id "level_relic" then Some relic_level else None.

(** Three rooms in a row: a relic on the way to the villain. *)
Definition level_three_rooms : LevelDefinition.t :=
  LevelDefinition.mk (Some "level_three") (Some "Three Rooms") (Some "medium") (Some "A")
    (Some [
      ("A", LevelDefinition.mk_room [("east", "B")] None);
      ("B", LevelDefinition.mk_room [("west", "A"); ("east", "C")] (relic "Relic1"));
      ("C", LevelDefinition.mk_room [("west", "B")]
              (Some (LevelDefinition.mk_item (Some "villain") (Some "Villain"))))
    ])
    (Some [ ("A", (0, 0)%Z); ("B", (1, 0)%Z); ("C", (2, 0)%Z) ])
    (Some (LevelDefinition.mk_rules (Some [ "Relic1" ]))).

(** The level that the factory builds from [level_three_rooms]. *)
Definition three_rooms_level : Level.t :=
  Level.mk "level_three" "Three Rooms" Difficulty.MEDIUM "A"
    (MapGraph.mk
       [ ("A", Room.mk "A" [("east", "B")] None);
         ("B", Room.mk "B" [("west", "A"); ("east", "C")] (Some (Item.Relic "Relic1")));
         ("C", Room.mk "C" [("west", "B")] (Some (Item.Villain "Villain"))) ]
       [ ("A", (0, 0)%Z); ("B", (1, 0)%Z); ("C", (2, 0)%Z) ])
    (StandardRules.mk (list_to_set [ "Relic1" ]))
    (Difficulty.visibility_policy Difficulty.MEDIUM)
    (Difficulty.scoring_strategy Difficulty.MEDIUM) (Some 2%Z).

Definition three_rooms_repo (level_id : string) : option Level.t :=
  if String.eqb level_id "level_three" then Some three_rooms_level else None.

(** An item dict without the key [type]. *)
Definition level_untyped_item : LevelDefinition.t :=
  LevelDefinition.mk (Some "level_untyped") (Some "Untyped") (Some "easy") (Some "A")
    (Some [
      ("A", LevelDefinition.mk_room [("east", "B")]
              (Some (LevelDefinition.mk_item None (Some "Relic1"))));
      ("B", LevelDefinition.mk_room []
              (Some (LevelDefinition.mk_item (Some "villain") (Some "Villain"))))
    ])
    (Some [ ("A", (0, 0)%Z); ("B", (1, 0)%Z) ])
    (Some (LevelDefinition.mk_rules (Some []))).

(** ** In-memory repositories (models/repositories) *)

(** [lst[:limit]] *)
Definition slice_to {A : Type} (limit : Z) (l : list A) : list A :=
  if (0 <=? limit)%Z then take (Z.to_nat limit) l
  else take (length l - Z.to_nat (- limit)) l.

(** Scores in decreasing order. *)
Definition score_ge {datetime : Type} (x y : GameResult.t datetime) : Prop :=
  (GameResult.score y ≤ GameResult.score x)%Z.

Module InMemoryHistoryRepository.
Section repo.
Context {datetime : Type}.

(** [self._results] *)
Definition t : Type := list (GameResult.t datetime).

Definition init : t := [].

Definition add (result : GameResult.t datetime) (repo : t) : t := repo ++ [result].

Definition by_user (user_email : string) (repo : t) : list (GameResult.t datetime) :=
  filter (λ r, GameResult.user_email r = user_email) repo.

(** [sorted(results, key=lambda r: r.score, reverse=True)]: a stable sort
    by decreasing score; results of equal score keep their order. *)
Fixpoint insert_by_score (r : GameResult.t datetime) (l : list (GameResult.t datetime))
    : list (GameResult.t datetime) :=
  match l with
  | [] => [r]
  | x :: l' =>
      if (GameResult.score x <=? GameResult.score r)%Z then r :: x :: l'
      else x :: insert_by_score r l'
  end.

Definition sorted_by_score (l : list (GameResult.t datetime))
    : list (GameResult.t datetime) :=
  foldr insert_by_score [] l.

Definition top_scores (level_id : string) (limit : Z) (repo : t)
    : list (GameResult.t datetime) :=
  slice_to limit
    (sorted_by_score (filter (λ r, GameResult.level_id r = level_id) repo)).

(** The history after the controller's calls, oldest first. *)
Definition record (calls : list (GameController.call (datetime := datetime))) (repo : t) : t :=
  foldl (λ repo c,
           match c with
           | GameController.history_add r => add r repo
           | _ => repo
           end) repo calls.
End repo.
End InMemoryHistoryRepository.

(** A dict whose keys may be [None]: [d.get(k)] and [d[k] = v], a present
    key keeping its place. *)
Fixpoint odict_get {V : Type} (d : list (option string * V)) (k : option string) : option V :=
  match d with
  | [] => None
  | (k', v) :: d' => if decide (k' = k) then Some v else odict_get d' k
  end.

Fixpoint odict_set {V : Type} (d : list (option string * V)) (k : option string) (v : V)
    : list (option string * V) :=
  match d with
  | [] => [(k, v)]
  | (k', v') :: d' =>
      if decide (k' = k) then (k', v) :: d' else (k', v') :: odict_set d' k v
  end.

Module InMemoryLevelRepository.
(** [self._levels], keyed by [defn.get("id")] *)
Definition t : Type := list (option string * Level.t).

(** [__init__]: the loop over the definitions; [None] when a solver is
    still running after [fuel] iterations. *)
Fixpoint load (fuel : nat) (level_defs : list LevelDefinition.t) (levels : t)
    : option (result t) :=
  match level_defs with
  | [] => Some (Ok levels)
  | defn :: level_defs =>
      let level_id := LevelDefinition.id defn in
      match LevelFactory.from_definition fuel defn with
      | None => None
      | Some (Raise e) => Some (Raise e)
      | Some (Ok level) => load fuel level_defs (odict_set levels level_id level)
      end
  end.

Definition init (fuel : nat) (level_defs : list LevelDefinition.t) : option (result t) :=
  load fuel level_defs [].

Definition get (repo : t) (level_id : string) : option Level.t :=
  odict_get repo (Some level_id).

Definition list (repo : t) : list Level.t := repo.*2.
End InMemoryLevelRepository.

(** ** The UI projection (models/behavior/visibility.py, models/domain/level.py) *)

Module LevelUIProjection.
Record t : Type := mk {
  show_full_map : bool;
  show_items : bool;
  show_villain : bool;
  discovered_rooms : gset string
}.

Definition can_render_room (p : t) (room_name : string) : bool :=
  show_full_map p || bool_decide (room_name ∈ discovered_rooms p).
End LevelUIProjection.

(** [policy.project(level, state)]: dispatch on the policy's class. *)
Definition VisibilityPolicy_project {datetime : Type} (policy : VisibilityPolicy.t)
    (level : Level.t) (state : GameState.t datetime) : LevelUIProjection.t :=
  match policy with
  | VisibilityPolicy.EasyVisibility =>
      LevelUIProjection.mk true true true
        (list_to_set (dict_keys (MapGraph.rooms (Level.map level))))
  | VisibilityPolicy.MediumVisibility =>
      LevelUIProjection.mk true false true
        (list_to_set (dict_keys (MapGraph.rooms (Level.map level))))
  | VisibilityPolicy.HardVisibility =>
      LevelUIProjection.mk false false false
        (GameState.visited_rooms state ∪ {[ Player.location (GameState.player state) ]})
  end.

Module Projection.
(** One entry of the projection's ["rooms"] dict. *)
Record cell : Type := mk_cell { x : Z; y : Z; render : string }.

(** The dict that [Level.ui_projection] returns; [width] and [height] are
    the two entries of its ["grid"] dict. *)
Record t : Type := mk {
  player_room : string;
  width : Z;
  height : Z;
  rooms : list (string * cell)
}.

Section projection.
Context {datetime : Type}.

(** The [render] value that the loop body computes for one room. *)
Definition render_room (visibility : LevelUIProjection.t) (state : GameState.t datetime)
    (room_name : string) (room : Room.t) : string :=
  if negb (LevelUIProjection.can_render_room visibility room_name) then "hidden"
  else if String.eqb room_name (Player.location (GameState.player state)) then "player"
  else
    match Room.item room with
    | Some item =>
        if String.eqb (Item.render_key item) "villain" then
          if LevelUIProjection.show_villain visibility then "villain" else "empty"
        else if String.eqb (Item.render_key item) "relic" then
          if LevelUIProjection.show_items visibility
             && negb (bool_decide (Item.name item ∈ GameState.collected_items state))
          then "relic" else "empty"
        else "empty"
    | None => "empty"
    end.

(** The loop over [self.map.rooms.items()]: the cells so far and the two
    running maxima.  The keys of a dict are distinct, so every assignment
    [rooms[room_name] = ...] adds an entry. *)
Fixpoint project_rooms (visibility : LevelUIProjection.t) (state : GameState.t datetime)
    (coords : list (string * (Z * Z))) (items : list (string * Room.t))
    (rooms : list (string * cell)) (max_x max_y : Z)
    : result (list (string * cell) * Z * Z) :=
  match items with
  | [] => Ok (rooms, max_x, max_y)
  | (room_name, room) :: items =>
      let* xy := dict_item coords room_name in
      let max_x := Z.max max_x xy.1 in
      let max_y := Z.max max_y xy.2 in
      let render := render_room visibility state room_name room in
      project_rooms visibility state coords items
        (rooms ++ [(room_name, mk_cell xy.1 xy.2 render)]) max_x max_y
  end.

(** [Level.ui_projection] *)
Definition ui_projection (level : Level.t) (state : GameState.t datetime) : result t :=
  let visibility := VisibilityPolicy_project (Level.visibility level) level state in
  let* projected :=
    project_rooms visibility state (MapGraph.coords (Level.map level))
      (MapGraph.rooms (Level.map level)) [] 0 0 in
  let '(rooms, max_x, max_y) := projected in
  Ok (mk (Player.location (GameState.player state)) (max_x + 1) (max_y + 1) rooms).
End projection.
End Projection.


(** * Facts about the binary64 model *)

Module PyFloatFacts.
Import PyFloat.
Local Open Scope Q_scope.

Lemma two_neq_0 : ¬ 2 == 0.
Proof. intros H; discriminate H. Qed.

Lemma pow2_pos (e : Z) : 0 < 2 ^ e.
Proof. apply Qpower_0_lt. reflexivity. Qed.

Lemma pow2_add (a b : Z) : 2 ^ (a + b) == 2 ^ a * 2 ^ b.
Proof. apply Qpower_plus, two_neq_0. Qed.

Lemma pow2_succ (a : Z) : 2 ^ (a + 1) == 2 * 2 ^ a.
Proof. rewrite pow2_add. change (2 ^ 1) with 2. ring. Qed.

Lemma pow2_le (a b : Z) : (a ≤ b)%Z → 2 ^ a <= 2 ^ b.
Proof. intros H. apply Qpower_le_compat_l; [exact H | discriminate]. Qed.

Lemma pow2_lt (a b : Z) : (a < b)%Z → 2 ^ a < 2 ^ b.
Proof.
  intros H. apply Qlt_le_trans with (2 ^ (a + 1)).
  - rewrite pow2_succ. pose proof (pow2_pos a). lra.
  - apply pow2_le. lia.
Qed.

Lemma pow2_Z (k : Z) : (0 ≤ k)%Z → 2 ^ k == inject_Z (2 ^ k).
Proof. intros H. symmetry. apply (Zpower_Qpower 2 k H). Qed.

Lemma Qlog2_spec (q : Q) : 0 < q → 2 ^ Qlog2 q <= q ∧ q < 2 ^ (Qlog2 q + 1).
Proof.
  intros Hq. destruct q as [n d]. unfold Qlog2. cbn [Qnum Qden].
  assert (Hn : (0 < n)%Z) by (unfold Qlt in Hq; cbn in Hq; lia).
  set (a := Z.log2 n). set (b := Z.log2 (Z.pos d)).
  destruct (Z.log2_spec n Hn) as [Ha1 Ha2]. fold a in Ha1, Ha2.
  destruct (Z.log2_spec (Z.pos d) eq_refl) as [Hb1 Hb2]. fold b in Hb1, Hb2.
  assert (Ha0 : (0 ≤ a)%Z) by apply Z.log2_nonneg.
  assert (Hb0 : (0 ≤ b)%Z) by apply Z.log2_nonneg.
  assert (Hqd : (n # d) * inject_Z (Z.pos d) == inject_Z n).
  { unfold Qeq, Qmult, inject_Z. cbn. lia. }
  assert (HA : 2 ^ a <= inject_Z n ∧ inject_Z n < 2 * 2 ^ a).
  { rewrite <- pow2_succ, !pow2_Z by lia. rewrite <- Zle_Qle, <- Zlt_Qlt.
    replace (a + 1)%Z with (Z.succ a) by lia. done. }
  assert (HB : 2 ^ b <= inject_Z (Z.pos d) ∧ inject_Z (Z.pos d) < 2 * 2 ^ b).
  { rewrite <- pow2_succ, !pow2_Z by lia. rewrite <- Zle_Qle, <- Zlt_Qlt.
    replace (b + 1)%Z with (Z.succ b) by lia. done. }
  assert (Hab : 2 ^ (a - b) * 2 ^ b == 2 ^ a).
  { rewrite <- pow2_add. replace (a - b + b)%Z with a by lia. reflexivity. }
  pose proof (pow2_pos a) as Hpa. pose proof (pow2_pos b) as Hpb.
  pose proof (pow2_pos (a - b)) as Hpl.
  assert (Hl1 : 2 ^ (a - b - 1) * 2 == 2 ^ (a - b)).
  { replace (a - b)%Z with (a - b - 1 + 1)%Z at 2 by lia. rewrite pow2_succ. ring. }
  set (q := n # d) in *. set (D := inject_Z (Z.pos d)) in *. set (N := inject_Z n) in *.
  set (A := 2 ^ a) in *. set (B := 2 ^ b) in *. set (L := 2 ^ (a - b)) in *.
  assert (Hlo : 2 ^ (a - b - 1) <= q).
  { set (L' := 2 ^ (a - b - 1)) in *.
    destruct (Qlt_le_dec q L') as [Hlt|]; [|done]. exfalso.
    assert (q * D < L' * D) by (apply Qmult_lt_compat_r; lra).
    assert (L' * D < L' * (2 * B)) by (apply Qmult_lt_l; [subst L'; apply pow2_pos | lra]).
    nra. }
  assert (Hhi : q < 2 ^ (a - b + 1)).
  { rewrite pow2_succ. fold L.
    destruct (Qlt_le_dec q (2 * L)) as [|Hge]; [done|]. exfalso.
    assert (2 * L * D <= q * D) by (apply Qmult_le_compat_r; lra).
    assert (2 * L * B <= 2 * L * D) by (apply Qmult_le_l; lra).
    nra. }
  destruct (Qle_bool L q) eqn:Hc.
  - apply Qle_bool_iff in Hc. split; [done|]. exact Hhi.
  - split; [exact Hlo|].
    replace (a - b - 1 + 1)%Z with (a - b)%Z by lia. fold L.
    apply Qnot_le_lt. intros HH. apply Qle_bool_iff in HH. congruence.
Qed.


Lemma Qlog2_unique (q : Q) (l : Z) : 2 ^ l <= q → q < 2 ^ (l + 1) → Qlog2 q = l.
Proof.
  intros H1 H2.
  assert (Hq : 0 < q) by (pose proof (pow2_pos l); lra).
  destruct (Qlog2_spec q Hq) as [H3 H4].
  destruct (Z.lt_trichotomy (Qlog2 q) l) as [Hlt | [Heq | Hgt]]; [|done|].
  - pose proof (pow2_le (Qlog2 q + 1) l ltac:(lia)). lra.
  - pose proof (pow2_le (l + 1) (Qlog2 q) ltac:(lia)). lra.
Qed.

Lemma Qlog2_mono (x y : Q) : 0 < x → x <= y → (Qlog2 x ≤ Qlog2 y)%Z.
Proof.
  intros Hx Hxy.
  destruct (Qlog2_spec x Hx) as [H1 H2].
  destruct (Qlog2_spec y ltac:(lra)) as [H3 H4].
  destruct (Z_le_gt_dec (Qlog2 x) (Qlog2 y)) as [|Hgt]; [done|].
  pose proof (pow2_le (Qlog2 y + 1) (Qlog2 x) ltac:(lia)). lra.
Qed.

Lemma Qlog2_pow2 (k : Z) : Qlog2 (2 ^ k) = k.
Proof. apply Qlog2_unique; [lra | apply pow2_lt; lia]. Qed.

Lemma ulp_exp_mono (x y : Q) : 0 < x → x <= y → (ulp_exp x ≤ ulp_exp y)%Z.
Proof. intros Hx Hxy. unfold ulp_exp. pose proof (Qlog2_mono x y Hx Hxy). lia. Qed.

(** ** Rounding a rational to the nearest integer, ties to even *)

Lemma round_half_even_bounds (x : Q) :
  (Qfloor x ≤ round_half_even x ≤ Qfloor x + 1)%Z.
Proof.
  unfold round_half_even. destruct (_ ?= _); [destruct (Z.even _)| |]; lia.
Qed.

Lemma round_half_even_Z (z : Z) : round_half_even (inject_Z z) = z.
Proof.
  unfold round_half_even. rewrite Qfloor_Z.
  assert (H : ((inject_Z z - inject_Z z) ?= (1 # 2)) = Lt).
  { apply Qlt_alt. ring_simplify (inject_Z z - inject_Z z). reflexivity. }
  rewrite H. reflexivity.
Qed.

Lemma round_half_even_mono (x y : Q) :
  x <= y → (round_half_even x ≤ round_half_even y)%Z.
Proof.
  intros Hxy. pose proof (Qfloor_resp_le x y Hxy) as Hf.
  destruct (Z.eq_dec (Qfloor x) (Qfloor y)) as [Heq|Hne].
  - unfold round_half_even. rewrite <- Heq.
    destruct (Qcompare_spec (x - inject_Z (Qfloor x)) (1 # 2)) as [Hx|Hx|Hx];
      destruct (Qcompare_spec (y - inject_Z (Qfloor x)) (1 # 2)) as [Hy|Hy|Hy];
      try (destruct (Z.even (Qfloor x))); try lia; exfalso; lra.
  - pose proof (round_half_even_bounds x). pose proof (round_half_even_bounds y). lia.
Qed.

Lemma round_half_even_nonneg (x : Q) : 0 <= x → (0 ≤ round_half_even x)%Z.
Proof.
  intros Hx. rewrite <- (round_half_even_Z 0) at 1. by apply round_half_even_mono.
Qed.


#[global] Instance round_half_even_proper : Proper (Qeq ==> eq) round_half_even.
Proof.
  intros x y Hxy0. assert (Hxy : x == y) by exact Hxy0. clear Hxy0.
  unfold round_half_even. rewrite <- (Qfloor_comp x y Hxy).
  assert (H : x - inject_Z (Qfloor x) == y - inject_Z (Qfloor x)).
  { unfold Qminus. apply Qplus_comp; [exact Hxy | reflexivity]. }
  rewrite (Qcompare_comp _ _ H _ _ (Qeq_refl (1 # 2))). reflexivity.
Qed.

(** ** Rounding to 53 bits *)

Lemma Qlog2_Qeq (x y : Q) : 0 < x → x == y → Qlog2 x = Qlog2 y.
Proof.
  intros Hx Hxy. destruct (Qlog2_spec x Hx) as [H1 H2].
  symmetry. apply Qlog2_unique; rewrite <- Hxy; done.
Qed.

Lemma rne_pos_eq (q : Q) :
  rne_pos q == inject_Z (round_half_even (q / 2 ^ ulp_exp q)) * 2 ^ ulp_exp q.
Proof. unfold rne_pos. apply Qred_correct. Qed.

Lemma rne_pos_Qeq (x y : Q) : 0 < x → x == y → rne_pos x = rne_pos y.
Proof.
  intros Hx Hxy. unfold rne_pos, ulp_exp. rewrite (Qlog2_Qeq x y Hx Hxy).
  apply Qred_complete. rewrite Hxy. reflexivity.
Qed.

Lemma rne_Qeq (x y : Q) : x == y → rne x = rne y.
Proof.
  intros Hxy. unfold rne. rewrite <- Hxy.
  destruct (Qcompare_spec x 0) as [H|H|H]; [done| |].
  - f_equal. apply rne_pos_Qeq; [lra | by rewrite Hxy].
  - by apply rne_pos_Qeq.
Qed.

Lemma rne_pos_nonneg (x : Q) : 0 < x → 0 <= rne_pos x.
Proof.
  intros Hx. rewrite rne_pos_eq. pose proof (pow2_pos (ulp_exp x)) as Hp.
  apply Qmult_le_0_compat; [|lra].
  change 0 with (inject_Z 0). rewrite <- Zle_Qle.
  apply round_half_even_nonneg. apply Qle_shift_div_l; lra.
Qed.

(** A grid point [m * 2 ^ k] at or above the ulp of [x] bounds the rounding of
    [x] wherever it bounds [x]. *)
Lemma grid_point (m e k : Z) :
  (e ≤ k)%Z → inject_Z m * 2 ^ k == inject_Z (m * 2 ^ (k - e)) * 2 ^ e.
Proof.
  intros Hek. rewrite inject_Z_mult, <- pow2_Z by lia.
  rewrite <- Qmult_assoc, <- pow2_add. replace (k - e + e)%Z with k by lia. reflexivity.
Qed.

Lemma rne_pos_le_grid (x : Q) (m k : Z) :
  0 < x → (ulp_exp x ≤ k)%Z → x <= inject_Z m * 2 ^ k → rne_pos x <= inject_Z m * 2 ^ k.
Proof.
  intros Hx Hk Hle. rewrite rne_pos_eq. set (e := ulp_exp x) in *.
  pose proof (pow2_pos e) as Hp. rewrite (grid_point m e k Hk) in *.
  apply Qmult_le_compat_r; [|lra]. rewrite <- Zle_Qle.
  rewrite <- (round_half_even_Z (m * 2 ^ (k - e))). apply round_half_even_mono.
  apply Qle_shift_div_r; lra.
Qed.

Lemma rne_pos_ge_grid (x : Q) (m k : Z) :
  0 < x → (ulp_exp x ≤ k)%Z → inject_Z m * 2 ^ k <= x → inject_Z m * 2 ^ k <= rne_pos x.
Proof.
  intros Hx Hk Hle. rewrite rne_pos_eq. set (e := ulp_exp x) in *.
  pose proof (pow2_pos e) as Hp. rewrite (grid_point m e k Hk) in *.
  apply Qmult_le_compat_r; [|lra]. rewrite <- Zle_Qle.
  rewrite <- (round_half_even_Z (m * 2 ^ (k - e))) at 1. apply round_half_even_mono.
  apply Qle_shift_div_l; lra.
Qed.

Lemma rne_pos_mono (x y : Q) : 0 < x → x <= y → rne_pos x <= rne_pos y.
Proof.
  intros Hx Hxy. assert (Hy : 0 < y) by lra.
  pose proof (ulp_exp_mono x y Hx Hxy) as He.
  destruct (Z.eq_dec (ulp_exp x) (ulp_exp y)) as [Heq|Hne].
  - rewrite !rne_pos_eq, <- Heq. pose proof (pow2_pos (ulp_exp x)) as Hp.
    apply Qmult_le_compat_r; [|lra]. rewrite <- Zle_Qle.
    apply round_half_even_mono. apply Qmult_le_compat_r; [done|].
    apply Qlt_le_weak, Qinv_lt_0_compat, Hp.
  - destruct (Qlog2_spec x Hx) as [Hx1 Hx2]. destruct (Qlog2_spec y Hy) as [Hy1 Hy2].
    set (K := Z.max (Qlog2 x + 1) (ulp_exp x)).
    assert (HK : (K ≤ Qlog2 y)%Z) by (unfold ulp_exp in *; lia).
    apply Qle_trans with (inject_Z 1 * 2 ^ K).
    + apply rne_pos_le_grid; [done | lia |].
      pose proof (pow2_le (Qlog2 x + 1) K ltac:(lia)).
      change (inject_Z 1) with 1. lra.
    + apply Qle_trans with (inject_Z 1 * 2 ^ Qlog2 y).
      * pose proof (pow2_le K (Qlog2 y) HK). change (inject_Z 1) with 1. lra.
      * apply rne_pos_ge_grid; [done | unfold ulp_exp in *; lia |].
        change (inject_Z 1) with 1. lra.
Qed.

Lemma rne_nonneg (x : Q) : 0 <= x → 0 <= rne x.
Proof.
  intros Hx. unfold rne. destruct (Qcompare_spec x 0) as [H|H|H]; [lra | lra |].
  by apply rne_pos_nonneg.
Qed.

Lemma rne_mono (x y : Q) : x <= y → rne x <= rne y.
Proof.
  intros Hxy. unfold rne.
  destruct (Qcompare_spec x 0) as [Hx|Hx|Hx]; destruct (Qcompare_spec y 0) as [Hy|Hy|Hy];
    try lra.
  - pose proof (rne_pos_nonneg y Hy). lra.
  - pose proof (rne_pos_nonneg (- x) ltac:(lra)). lra.
  - pose proof (rne_pos_mono (- y) (- x) ltac:(lra) ltac:(lra)). lra.
  - pose proof (rne_pos_nonneg (- x) ltac:(lra)). pose proof (rne_pos_nonneg y Hy). lra.
  - by apply rne_pos_mono.
Qed.

(** Values on the grid of their own binade are fixed points: every binary64
    number rounds to itself. *)
Lemma rne_grid (x : Q) (m k : Z) :
  0 < x → (ulp_exp x ≤ k)%Z → x == inject_Z m * 2 ^ k → rne x == x.
Proof.
  intros Hx Hk Heq. unfold rne. destruct (Qcompare_spec x 0) as [H|H|H]; [lra | lra |].
  apply Qle_antisym.
  - rewrite Heq at 2. apply rne_pos_le_grid; [done | done | lra].
  - rewrite Heq at 1. apply rne_pos_ge_grid; [done | done | lra].
Qed.

Lemma rne_pow2 (k : Z) : (-1074 ≤ k)%Z → rne (2 ^ k) == 2 ^ k.
Proof.
  intros Hk. apply (rne_grid _ 1 k); [apply pow2_pos | | change (inject_Z 1) with 1; ring].
  unfold ulp_exp. rewrite Qlog2_pow2. lia.
Qed.

Lemma rne_0 : rne 0 = 0.
Proof. reflexivity. Qed.

(** Integers below [2 ^ 53] are binary64 numbers. *)
Lemma rne_int (m : Z) : (0 ≤ m < 2 ^ 53)%Z → rne (inject_Z m) == inject_Z m.
Proof.
  intros [H0 H53]. destruct (Z.eq_dec m 0%Z) as [->|Hm]; [reflexivity|].
  assert (Hpos : 0 < inject_Z m) by (change 0 with (inject_Z 0); rewrite <- Zlt_Qlt; lia).
  apply (rne_grid _ m 0); [done | | change (2 ^ 0) with 1; ring].
  destruct (Qlog2_spec _ Hpos) as [H1 _].
  assert (Qlog2 (inject_Z m) < 53)%Z; [|unfold ulp_exp; lia].
  destruct (Z_lt_ge_dec (Qlog2 (inject_Z m)) 53) as [|Hge]; [done|exfalso].
  pose proof (pow2_le 53 (Qlog2 (inject_Z m)) ltac:(lia)) as Hle.
  assert (Hm53 : inject_Z m < 2 ^ 53).
  { rewrite pow2_Z by lia. rewrite <- Zlt_Qlt. done. }
  lra.
Qed.


(** ** The operations stay in range on bounded non-negative arguments *)

Lemma round64_bounded (q : Q) (k : Z) :
  (-1074 ≤ k ≤ 1023)%Z → 0 <= q → q <= 2 ^ k →
  ∃ r, round64 q = Ok r ∧ r = rne q ∧ 0 <= r ∧ r <= 2 ^ k.
Proof.
  intros Hk H0 Hq. exists (rne q).
  pose proof (rne_nonneg q H0) as Hr0.
  assert (Hr : rne q <= 2 ^ k).
  { rewrite <- (rne_pow2 k) by lia. by apply rne_mono. }
  split; [|done]. unfold round64, overflows.
  destruct (Qle_bool (2 ^ 1024) (Qabs (rne q))) eqn:Hov; [exfalso|done].
  apply Qle_bool_iff in Hov. rewrite Qabs_pos in Hov by done.
  pose proof (pow2_lt k 1024 ltac:(lia)). lra.
Qed.

Lemma inject_Z_pow2_le (z k : Z) : (0 ≤ k)%Z → (z ≤ 2 ^ k)%Z → inject_Z z <= 2 ^ k.
Proof. intros Hk Hz. rewrite pow2_Z by done. by rewrite <- Zle_Qle. Qed.

Lemma of_int_bounded (z k : Z) :
  (0 ≤ k ≤ 1023)%Z → (0 ≤ z ≤ 2 ^ k)%Z →
  ∃ r, of_int z = Ok r ∧ r = rne (inject_Z z) ∧ 0 <= r ∧ r <= 2 ^ k.
Proof.
  intros Hk [Hz0 Hz]. apply round64_bounded; [lia | | by apply inject_Z_pow2_le; lia].
  change 0 with (inject_Z 0). by rewrite <- Zle_Qle.
Qed.

Lemma truediv_bounded (a b k : Z) :
  (0 ≤ k ≤ 1023)%Z → (0 ≤ a ≤ 2 ^ k)%Z → (0 < b)%Z →
  ∃ r, truediv a b = Ok r ∧ r = rne (inject_Z a / inject_Z b) ∧ 0 <= r ∧ r <= 2 ^ k.
Proof.
  intros Hk [Ha0 Ha] Hb. unfold truediv.
  destruct (Z.eqb_spec b 0) as [->|_]; [lia|].
  assert (HA : 0 <= inject_Z a) by (change 0 with (inject_Z 0); rewrite <- Zle_Qle; lia).
  assert (HB : 1 <= inject_Z b) by (change 1 with (inject_Z 1); rewrite <- Zle_Qle; lia).
  pose proof (inject_Z_pow2_le a k ltac:(lia) Ha) as HA'.
  apply round64_bounded; [lia | |].
  - apply Qle_shift_div_l; lra.
  - apply Qle_shift_div_r; [lra|]. pose proof (pow2_pos k). nra.
Qed.

Lemma mul_bounded (x y : Q) (kx ky : Z) :
  (-1074 ≤ kx + ky ≤ 1023)%Z → 0 <= x → x <= 2 ^ kx → 0 <= y → y <= 2 ^ ky →
  ∃ r, mul x y = Ok r ∧ r = rne (x * y) ∧ 0 <= r ∧ r <= 2 ^ (kx + ky).
Proof.
  intros Hk Hx0 Hx Hy0 Hy. apply round64_bounded; [lia | nra |].
  rewrite pow2_add. pose proof (pow2_pos kx). pose proof (pow2_pos ky). nra.
Qed.

Lemma add_bounded (x y : Q) (k : Z) :
  (-1074 ≤ k + 1 ≤ 1023)%Z → 0 <= x → x <= 2 ^ k → 0 <= y → y <= 2 ^ k →
  ∃ r, add x y = Ok r ∧ r = rne (x + y) ∧ 0 <= r ∧ r <= 2 ^ (k + 1).
Proof.
  intros Hk Hx0 Hx Hy0 Hy. apply round64_bounded; [lia | lra |].
  rewrite pow2_succ. lra.
Qed.

Lemma int_mul_bounded (z : Z) (x : Q) (kz kx : Z) :
  (0 ≤ kz)%Z → (-1074 ≤ kz + kx ≤ 1023)%Z → (kz ≤ 1023)%Z →
  (0 ≤ z ≤ 2 ^ kz)%Z → 0 <= x → x <= 2 ^ kx →
  ∃ r, int_mul z x = Ok r ∧ r = rne (rne (inject_Z z) * x) ∧ 0 <= r ∧ r <= 2 ^ (kz + kx).
Proof.
  intros Hkz Hk Hkz' Hz Hx0 Hx. unfold int_mul.
  destruct (of_int_bounded z kz ltac:(lia) Hz) as (f & -> & -> & Hf0 & Hf). cbn.
  by apply mul_bounded.
Qed.

Lemma int_add_bounded (z : Z) (x : Q) (k : Z) :
  (0 ≤ k)%Z → (k + 1 ≤ 1023)%Z → (0 ≤ z ≤ 2 ^ k)%Z → 0 <= x → x <= 2 ^ k →
  ∃ r, int_add z x = Ok r ∧ r = rne (rne (inject_Z z) + x) ∧ 0 <= r ∧ r <= 2 ^ (k + 1).
Proof.
  intros Hk0 Hk Hz Hx0 Hx. unfold int_add.
  destruct (of_int_bounded z k ltac:(lia) Hz) as (f & -> & -> & Hf0 & Hf). cbn.
  apply add_bounded; [lia|done..].
Qed.

(** ** [int()] and [min] *)

Lemma to_int_floor (x : Q) : 0 <= x → to_int x = Qfloor x.
Proof.
  intros Hx. unfold to_int. destruct (Qle_bool 0 x) eqn:H; [done|].
  apply Qle_bool_iff in Hx. congruence.
Qed.

Lemma to_int_mono (x y : Q) : x <= y → (to_int x ≤ to_int y)%Z.
Proof.
  intros Hxy. unfold to_int.
  destruct (Qle_bool 0 x) eqn:Hx; destruct (Qle_bool 0 y) eqn:Hy.
  - by apply Qfloor_resp_le.
  - apply Qle_bool_iff in Hx. exfalso. assert (0 <= y) by lra.
    apply Qle_bool_iff in H. congruence.
  - assert (Hx' : x < 0).
    { apply Qnot_le_lt. intros H. apply Qle_bool_iff in H. congruence. }
    apply Qle_bool_iff in Hy.
    assert (H1 : (Qceiling x ≤ 0)%Z).
    { rewrite <- (Qceiling_Z 0). apply Qceiling_resp_le. change (inject_Z 0) with 0. lra. }
    assert (H2 : (0 ≤ Qfloor y)%Z).
    { rewrite <- (Qfloor_Z 0). apply Qfloor_resp_le. done. }
    lia.
  - by apply Qceiling_resp_le.
Qed.

Lemma to_int_nonneg (x : Q) : 0 <= x → (0 ≤ to_int x)%Z.
Proof.
  intros Hx. rewrite to_int_floor by done.
  rewrite <- (Qfloor_Z 0). by apply Qfloor_resp_le.
Qed.

Lemma to_int_le_pow2 (x : Q) (k : Z) : (0 ≤ k)%Z → 0 <= x → x <= 2 ^ k → (to_int x ≤ 2 ^ k)%Z.
Proof.
  intros Hk Hx0 Hx. rewrite to_int_floor by done.
  rewrite <- (Qfloor_Z (2 ^ k)). apply Qfloor_resp_le. by rewrite <- pow2_Z.
Qed.

Lemma min_le_r (x y : Q) : min x y <= y.
Proof.
  unfold min. destruct (Qle_bool x y) eqn:H; [by apply Qle_bool_iff | lra].
Qed.

Lemma min_nonneg (x y : Q) : 0 <= x → 0 <= y → 0 <= min x y.
Proof. intros Hx Hy. unfold min. by destruct (Qle_bool x y). Qed.

Lemma min_ge_r (x y : Q) : y <= x → min x y == y.
Proof.
  intros Hyx. unfold min. destruct (Qle_bool x y) eqn:H; [|reflexivity].
  apply Qle_bool_iff in H. lra.
Qed.


(** ** Agreement with [SpecFloat] on samples *)

Lemma truediv_agrees_to_40 : forallb SpecCheck.truediv_agrees (SpecCheck.pairs 40) = true.
Proof. vm_compute. reflexivity. Qed.

Lemma progress_product_agrees_to_24 :
  forallb (SpecCheck.scaled_agrees 500) (SpecCheck.pairs 24) = true.
Proof. vm_compute. reflexivity. Qed.

Lemma efficiency_product_agrees_to_24 :
  forallb (SpecCheck.scaled_agrees 1000) (SpecCheck.pairs 24) = true.
Proof. vm_compute. reflexivity. Qed.

Lemma penalty_agrees_samples :
  forallb (λ base, forallb (SpecCheck.penalty_agrees base) (SpecCheck.pairs 12))
    [1100; 1500; 2000; 2125; 2250; 2593; 2750]%Z = true.
Proof. vm_compute. reflexivity. Qed.

Lemma final_sum_agrees_samples :
  forallb (λ k, SpecCheck.sum_agrees 1500 k (3 # 4)
                  (SFdiv 53 1024 (SpecCheck.of_Z 3) (SpecCheck.of_Z 4))
                && SpecCheck.sum_agrees 1416 k (5 # 4)
                     (SFdiv 53 1024 (SpecCheck.of_Z 5) (SpecCheck.of_Z 4)))
    [0; 1; 333; 500; 875; 999; 1000]%Z = true.
Proof. vm_compute. reflexivity. Qed.

(** Conversions round to even and overflow where binary64 does. *)
Lemma of_int_agrees_samples :
  forallb (λ z, SpecCheck.agree (of_int z) (SpecCheck.of_Z z))
    [0; 1; 2 ^ 53 + 1; 2 ^ 53 + 3; 2 ^ 1024 - 2 ^ 970 - 1; 2 ^ 1024 - 2 ^ 970; 2 ^ 1024]%Z
  = true.
Proof. vm_compute. reflexivity. Qed.

(** The penalty of the hard strategy is computed in binary64, not in exact
    arithmetic: [int(1100 * (7 / 55) * 0.5)] is 69, where [1100 * 7 / 55 / 2 = 70]. *)
Lemma penalty_is_rounded :
  MaxMovesScore.penalty 1100 (rne (7 # 55)) = Ok 69%Z.
Proof. vm_compute. reflexivity. Qed.

End PyFloatFacts.


(** * Facts about the scoring strategies *)

Module ScoringFacts.
Import PyFloat PyFloatFacts.

Section facts.
Context {datetime : Type}.
Implicit Types (state : GameState.t datetime) (level : Level.t).

Lemma progress_ok state level :
  (StandardScore.collected state < 2 ^ 63)%Z →
  ∃ p, StandardScore.progress state level = Ok p ∧ (0 <= p)%Q ∧ (p <= 2 ^ 63)%Q.
Proof.
  intros Hc. unfold StandardScore.progress.
  assert (0 ≤ StandardScore.collected state)%Z by (unfold StandardScore.collected; lia).
  assert (0 ≤ StandardScore.total_required level)%Z
    by (unfold StandardScore.total_required; lia).
  destruct (Z.eqb_spec (StandardScore.total_required level) 0) as [Ht|Ht]; cbn.
  - exists 0%Q. split; [done|]. split; [lra|]. pose proof (pow2_pos 63). lra.
  - destruct (truediv_bounded (StandardScore.collected state)
      (StandardScore.total_required level) 63) as (r & Hr & _ & Hr0 & Hr1); [lia..|].
    eauto.
Qed.

Lemma progress_score_ok state level :
  (StandardScore.collected state < 2 ^ 63)%Z →
  ∃ ps, StandardScore.progress_score state level = Ok ps ∧ (0 ≤ ps ≤ 2 ^ 72)%Z.
Proof.
  intros Hc. unfold StandardScore.progress_score.
  destruct (progress_ok state level Hc) as (p & -> & Hp0 & Hp1). cbn.
  destruct (int_mul_bounded StandardScore.MAX_PROGRESS_SCORE p 9 63)
    as (x & -> & _ & Hx0 & Hx1); [unfold StandardScore.MAX_PROGRESS_SCORE; lia..|done|done|].
  cbn. eexists; split; [done|]. split.
  - by apply to_int_nonneg.
  - by apply to_int_le_pow2.
Qed.

Lemma efficiency_ok state level :
  in_range state level →
  ∃ e, StandardScore.efficiency state level = Ok e ∧ (0 <= e)%Q ∧ (e <= 1)%Q.
Proof.
  intros (_ & Hmc & Hopt). unfold StandardScore.efficiency.
  destruct (negb _ || _) eqn:Hguard.
  - exists 1%Q. split; [done|]. split; lra.
  - apply orb_false_iff in Hguard as [Ho Hm]. apply negb_false_iff in Ho.
    destruct (Level.optimal_moves level) as [o|]; [|done]. cbn in *.
    apply Z.leb_gt in Hm.
    destruct (truediv_bounded o (GameState.move_count state) 63)
      as (q & -> & _ & Hq0 & Hq1); [lia..|].
    cbn. eexists; split; [done|]. split.
    + apply min_nonneg; [done|lra].
    + apply min_le_r.
Qed.

Lemma efficiency_score_ok state level :
  in_range state level →
  ∃ es, StandardScore.efficiency_score state level = Ok es ∧ (0 ≤ es ≤ 2 ^ 10)%Z.
Proof.
  intros Hr. unfold StandardScore.efficiency_score.
  destruct (efficiency_ok state level Hr) as (e & -> & He0 & He1). cbn.
  destruct (int_mul_bounded StandardScore.MAX_EFFICIENCY_SCORE e 10 0)
    as (x & -> & _ & Hx0 & Hx1);
    [unfold StandardScore.MAX_EFFICIENCY_SCORE; lia..|done|done|].
  cbn. eexists; split; [done|]. split.
  - by apply to_int_nonneg.
  - by apply to_int_le_pow2.
Qed.

(** The last step, in closed form. *)
Lemma final_score_ok (ps es : Z) (m : Q) :
  (0 ≤ ps ≤ 2 ^ 72)%Z → (0 ≤ es ≤ 2 ^ 10)%Z → (0 <= m)%Q → (m <= 2)%Q →
  ∃ t s, int_mul es m = Ok t ∧
         int_add (StandardScore.WIN_BASE + ps) t = Ok s ∧
         t = rne (rne (inject_Z es) * m) ∧
         s = rne (rne (inject_Z (StandardScore.WIN_BASE + ps)) + t) ∧
         (0 <= s)%Q ∧ (s <= 2 ^ 74)%Q ∧
         StandardScore.final_score ps es m = Ok (Qfloor s).
Proof.
  intros Hps Hes Hm0 Hm1. unfold StandardScore.final_score.
  destruct (int_mul_bounded es m 10 1) as (t & Ht & Ht' & Ht0 & Ht1); [lia..|done|done|done|].
  rewrite Ht. cbn.
  assert (Ht2 : (t <= 2 ^ 73)%Q).
  { pose proof (pow2_le (10 + 1) 73 ltac:(lia)). lra. }
  destruct (int_add_bounded (StandardScore.WIN_BASE + ps) t 73)
    as (s & Hs & Hs' & Hs0 & Hs1); [lia|lia|unfold StandardScore.WIN_BASE; lia|done|done|].
  rewrite Hs. cbn. exists t, s. rewrite to_int_floor by done. done.
Qed.

Lemma final_score_mono (ps es : Z) (m1 m2 : Q) (v1 v2 : Z) :
  (0 ≤ ps ≤ 2 ^ 72)%Z → (0 ≤ es ≤ 2 ^ 10)%Z → (0 <= m1)%Q → (m1 <= m2)%Q → (m2 <= 2)%Q →
  StandardScore.final_score ps es m1 = Ok v1 →
  StandardScore.final_score ps es m2 = Ok v2 →
  (v1 ≤ v2)%Z.
Proof.
  intros Hps Hes H0 H12 H2 Hv1 Hv2.
  destruct (final_score_ok ps es m1) as (t1 & s1 & _ & _ & Ht1 & Hs1 & _ & _ & E1);
    [done|done|done|lra|].
  destruct (final_score_ok ps es m2) as (t2 & s2 & _ & _ & Ht2 & Hs2 & _ & _ & E2);
    [done|done|lra|done|].
  rewrite E1 in Hv1. rewrite E2 in Hv2.
  injection Hv1 as <-. injection Hv2 as <-.
  apply Qfloor_resp_le. subst s1 s2. apply rne_mono.
  apply Qplus_le_r. subst t1 t2. apply rne_mono.
  assert (Hf : (0 <= rne (inject_Z es))%Q).
  { apply rne_nonneg. change 0%Q with (inject_Z 0). rewrite <- Zle_Qle. lia. }
  nra.
Qed.

Lemma multiplier_range (d : Difficulty.t) :
  (0 <= ScoringPolicy.multiplier (Difficulty.scoring_policy d))%Q ∧
  (ScoringPolicy.multiplier (Difficulty.scoring_policy d) <= 2)%Q.
Proof. destruct d; cbn; split; lra. Qed.

Lemma StandardScore_returns state level :
  in_range state level →
  ∃ v, StandardScore.calculate state level = Ok v ∧ (0 ≤ v ≤ 2 ^ 74)%Z.
Proof.
  intros Hr. unfold StandardScore.calculate.
  destruct (progress_score_ok state level) as (ps & -> & Hps); [apply Hr|]. cbn.
  destruct (negb _).
  - exists ps. split; [done|lia].
  - destruct (efficiency_score_ok state level Hr) as (es & -> & Hes). cbn.
    destruct (multiplier_range (Level.difficulty level)) as [Hm0 Hm1].
    destruct (final_score_ok ps es _ Hps Hes Hm0 Hm1)
      as (t & s & _ & _ & _ & _ & Hs0 & Hs1 & ->).
    eexists; split; [done|]. split.
    + rewrite <- (Qfloor_Z 0). by apply Qfloor_resp_le.
    + rewrite <- (Qfloor_Z (2 ^ 74)). apply Qfloor_resp_le. by rewrite <- pow2_Z.
Qed.

(** A state that is not completed scores its progress, whatever the strategy. *)
Lemma StandardScore_not_completed state level :
  GameState.status state ≠ GameStatus.COMPLETED →
  StandardScore.calculate state level = StandardScore.progress_score state level.
Proof.
  intros Hs. unfold StandardScore.calculate.
  destruct (StandardScore.progress_score state level); [|done]. cbn.
  by rewrite bool_decide_eq_false_2.
Qed.

Lemma MaxMovesScore_not_completed state level :
  GameState.status state ≠ GameStatus.COMPLETED →
  MaxMovesScore.calculate state level = StandardScore.progress_score state level.
Proof.
  intros Hs. unfold MaxMovesScore.calculate.
  rewrite StandardScore_not_completed by done.
  destruct (StandardScore.progress_score state level); [|done]. cbn.
  by rewrite bool_decide_eq_false_2.
Qed.

(** The two outcomes of the penalised strategy. *)
Lemma MaxMovesScore_cases state level :
  in_range state level →
  ∃ base, StandardScore.calculate state level = Ok base ∧ (0 ≤ base)%Z ∧
    (∀ o, GameState.status state = GameStatus.COMPLETED →
          Level.optimal_moves level = Some o → o ≠ 0%Z →
          (o < GameState.move_count state)%Z →
          penalized_from base o state level ∧
          ∃ h, MaxMovesScore.calculate state level = Ok h ∧ (0 ≤ h ≤ base)%Z) ∧
    (no_overage_penalty state level → MaxMovesScore.calculate state level = Ok base).
Proof.
  intros Hr. destruct (StandardScore_returns state level Hr) as (base & Hb & Hb0 & Hb1).
  exists base. split; [done|]. split; [done|].
  destruct Hr as (_ & Hmc & Hopt). split.
  - intros o Hst Ho Hne Hlt. rewrite Ho in Hopt.
    unfold penalized_from, MaxMovesScore.calculate. rewrite Hb, Hst, Ho. cbn.
    destruct (Z.eqb_spec o 0) as [|_]; [done|]. cbn.
    destruct (Z.leb_spec (GameState.move_count state) o) as [|_]; [lia|].
    unfold MaxMovesScore.penalty_ratio.
    destruct (truediv_bounded (GameState.move_count state - o) o 63)
      as (q & Hq & _ & Hq0 & Hq1); [lia..|].
    rewrite Hq. cbn. unfold MaxMovesScore.penalty.
    pose proof (min_nonneg q 1 Hq0 ltac:(lra)) as Hr0.
    pose proof (min_le_r q 1) as Hr1.
    destruct (int_mul_bounded base (PyFloat.min q 1%Q) 74 0)
      as (x & Hx & _ & Hx0 & Hx1); [lia..|done|done|].
    rewrite Hx. cbn.
    destruct (mul_bounded x MaxMovesScore.OVERAGE_PENALTY_FACTOR (74 + 0) 0)
      as (y & Hy & _ & Hy0 & Hy1); [lia|done|done|done|done|].
    rewrite Hy. cbn. rewrite to_int_floor by done.
    assert (0 ≤ Qfloor y)%Z.
    { rewrite <- (Qfloor_Z 0). by apply Qfloor_resp_le. }
    split; [by exists q, x, y|]. eexists; split; [done|lia].
  - intros Hno. unfold MaxMovesScore.calculate. rewrite Hb. cbn.
    destruct Hno as [Hs | [Ho | [Ho | (o & Ho & Hle)]]].
    + by rewrite bool_decide_eq_false_2.
    + rewrite Ho. cbn. by destruct (negb _).
    + rewrite Ho. cbn. by destruct (negb _).
    + rewrite Ho. cbn. destruct (Z.leb_spec (GameState.move_count state) o); [|lia].
      by repeat destruct (negb _).
Qed.
End facts.
End ScoringFacts.


(** * The scoring properties of the design document *)

Module ScoringSpec.
Import PyFloat PyFloatFacts ScoringFacts.

(** ** Progress-only scores *)

(** Five of six relics and a lost game: [floor(500 * 5/6) = 416]. *)
Lemma five_of_six_scores_416 (d : Difficulty.t) :
  ScoreStrategy_calculate (Difficulty.scoring_strategy d)
    (sample_state five_stones 9 GameStatus.GAME_OVER)
    (sample_level d six_stones (Some 7%Z)) = Ok 416%Z.
Proof. destruct d; vm_compute; reflexivity. Qed.

(** For every state that is not completed, both strategies return the
    progress score [floor(500 * progress)] and nothing else; the progress is
    the size of [collected_items] over the size of the required set, and 0 for
    an empty required set. *)
Lemma not_completed_scores_progress {datetime : Type}
    (strategy : ScoreStrategy.t) (state : GameState.t datetime) (level : Level.t) :
  GameState.status state ≠ GameStatus.COMPLETED →
  (Z.of_nat (size (GameState.collected_items state)) < 2 ^ 63)%Z →
  ∃ (progress x : float),
    StandardScore.progress state level = Ok progress ∧
    (if decide (size (StandardRules.required_items (Level.rules level)) = 0)
     then progress = 0%Q
     else truediv (Z.of_nat (size (GameState.collected_items state)))
            (Z.of_nat (size (StandardRules.required_items (Level.rules level))))
          = Ok progress) ∧
    int_mul 500 progress = Ok x ∧
    ScoreStrategy_calculate strategy state level = Ok (Qfloor x).
Proof.
  intros Hs Hc.
  assert (Hcalc : ScoreStrategy_calculate strategy state level
                  = StandardScore.progress_score state level).
  { destruct strategy; cbn;
      [by apply StandardScore_not_completed | by apply MaxMovesScore_not_completed]. }
  rewrite Hcalc. unfold StandardScore.progress_score.
  destruct (progress_ok state level Hc) as (p & Hp & Hp0 & Hp1).
  rewrite Hp. cbn.
  destruct (int_mul_bounded StandardScore.MAX_PROGRESS_SCORE p 9 63)
    as (x & Hx & _ & Hx0 & Hx1); [unfold StandardScore.MAX_PROGRESS_SCORE; lia..|done|done|].
  rewrite Hx. cbn. exists p, x. rewrite to_int_floor by done.
  split; [done|]. split; [|done].
  unfold StandardScore.progress, StandardScore.total_required, StandardScore.collected in Hp.
  destruct (decide _) as [Hz|Hz].
  - rewrite Hz in Hp. change (negb (Z.of_nat 0 =? 0)%Z) with false in Hp. congruence.
  - destruct (Z.eqb_spec (Z.of_nat (size (StandardRules.required_items (Level.rules level)))) 0);
      [lia|done].
Qed.

(** C1, at the failing input: with the relics A and B collected and A and C
    required, the code scores [floor(500 * 2/2) = 500], where the progress over
    the required items only is [floor(500 * 1/2) = 250]. *)
Theorem progress_counts_unrequired_items :
  let state := sample_state {[ "A"; "B" ]} 4 GameStatus.GAME_OVER in
  let level := sample_level Difficulty.EASY {[ "A"; "C" ]} (Some 3%Z) in
  StandardScore.calculate state level = Ok 500%Z ∧
  progress_score_as_stated state level = Ok 250%Z.
Proof. split; vm_compute; reflexivity. Qed.

(** ** The completed score *)

(** C4, as stated, fails for a level whose optimum is 0: the code awards the
    full efficiency bonus (2250 on the easy level), the stated rule none. *)
Lemma completed_score_as_stated_fails :
  ¬ completed_score_as_stated
      (sample_state six_stones 5 GameStatus.COMPLETED)
      (sample_level Difficulty.EASY six_stones (Some 0%Z)).
Proof.
  intros H. destruct (H eq_refl) as (eff & Heff & ps & y & t & s & Hps & Hy & Ht & Hs & Hc).
  cbn in Heff. destruct Heff as (q & Hq & ->).
  vm_compute in Hq. injection Hq as <-.
  vm_compute in Hps. injection Hps as <-.
  vm_compute in Hy. injection Hy as <-.
  vm_compute in Ht. injection Ht as <-.
  vm_compute in Hs. injection Hs as <-.
  vm_compute in Hc. discriminate Hc.
Qed.

(** C4, amended: for every completed state in range, the standard score is
    [floor(1000 + progress_score + efficiency_score * multiplier)] with
    [efficiency_score = floor(1000 * efficiency)], where [efficiency] is
    [min(optimal_moves / move_count, 1.0)] when the optimum is defined and not
    zero and [move_count > 0], and [1.0] otherwise; the computation returns (no
    division by zero, no other exception). *)
Theorem completed_score {datetime : Type} (state : GameState.t datetime) (level : Level.t) :
  GameState.status state = GameStatus.COMPLETED →
  in_range state level →
  ∃ eff, efficiency_rule state level eff ∧ completed_score_from eff state level.
Proof.
  intros Hst Hr.
  destruct (efficiency_ok state level Hr) as (eff & Heff & He0 & He1).
  exists eff. split.
  - unfold efficiency_rule. unfold StandardScore.efficiency in Heff.
    destruct (Level.optimal_moves level) as [o|]; cbn in *; [|congruence].
    destruct (Z.eqb_spec o 0) as [|Ho]; cbn in *; [congruence|].
    destruct (Z.leb_spec (GameState.move_count state) 0) as [Hm|Hm];
      destruct (Z.ltb_spec 0 (GameState.move_count state)); try lia; [congruence|].
    destruct (truediv o (GameState.move_count state)) as [q|]; cbn in Heff; [|done].
    exists q. split; [done|congruence].
  - unfold completed_score_from.
    destruct (progress_score_ok state level) as (ps & Hps & Hps'); [apply Hr|].
    destruct (int_mul_bounded 1000 eff 10 0) as (y & Hy & _ & Hy0 & Hy1); [lia..|done|done|].
    destruct (multiplier_range (Level.difficulty level)) as [Hm0 Hm1].
    assert (Hes : (0 ≤ Qfloor y ≤ 2 ^ 10)%Z).
    { rewrite <- to_int_floor by done. split;
        [by apply to_int_nonneg | by apply to_int_le_pow2]. }
    destruct (final_score_ok ps (Qfloor y) _ Hps' Hes Hm0 Hm1)
      as (t & s & Ht & Hs & _ & _ & _ & _ & Hf).
    exists ps, y, t, s. repeat split; try done.
    unfold StandardScore.calculate, StandardScore.efficiency_score.
    rewrite Hps, Heff. cbn. rewrite Hst. cbn.
    unfold StandardScore.MAX_EFFICIENCY_SCORE. rewrite Hy. cbn.
    rewrite to_int_floor by done. exact Hf.
Qed.

Lemma completed_score_witness :
  ∃ eff, efficiency_rule (sample_state six_stones 7 GameStatus.COMPLETED)
           (sample_level Difficulty.EASY six_stones (Some 7%Z)) eff ∧
         completed_score_from eff (sample_state six_stones 7 GameStatus.COMPLETED)
           (sample_level Difficulty.EASY six_stones (Some 7%Z)).
Proof.
  apply completed_score; [reflexivity|].
  repeat split; vm_compute; congruence.
Defined.

(** The scenario of the design document: seven moves on the easy level with
    all six relics score [1000 + 500 + 1000 * 0.75 = 2250]. *)
Lemma seven_moves_score_2250 :
  StandardScore.calculate (sample_state six_stones 7 GameStatus.COMPLETED)
    (sample_level Difficulty.EASY six_stones (Some 7%Z)) = Ok 2250%Z.
Proof. vm_compute. reflexivity. Qed.


(** ** A zero optimum *)

(** C10: for every completed state and every level whose optimum is 0, the
    standard strategy uses the efficiency 1.0, as it does for an undefined
    optimum, so the efficiency score is the full 1000; and the penalised
    strategy returns the standard score unchanged, whatever the move count. *)
Theorem zero_optimum_is_undefined {datetime : Type}
    (state : GameState.t datetime) (level : Level.t) :
  GameState.status state = GameStatus.COMPLETED →
  Level.optimal_moves level = Some 0%Z →
  StandardScore.efficiency state level = Ok 1%Q ∧
  StandardScore.efficiency_score state level = Ok 1000%Z ∧
  StandardScore.calculate state level
    = StandardScore.calculate state (with_optimal_moves None level) ∧
  MaxMovesScore.calculate state level = StandardScore.calculate state level.
Proof.
  intros Hst Ho.
  assert (He : StandardScore.efficiency state level = Ok 1%Q).
  { unfold StandardScore.efficiency. by rewrite Ho. }
  assert (Hes : StandardScore.efficiency_score state level = Ok 1000%Z).
  { unfold StandardScore.efficiency_score. rewrite He. reflexivity. }
  repeat split; try done.
  - unfold StandardScore.calculate. rewrite Hes.
    change (StandardScore.progress_score state (with_optimal_moves None level))
      with (StandardScore.progress_score state level).
    destruct (StandardScore.progress_score state level) as [ps|]; [|done]. cbn.
    by destruct (negb _).
  - unfold MaxMovesScore.calculate.
    destruct (StandardScore.calculate state level) as [base|]; [|done]. cbn.
    rewrite Ho. cbn. by destruct (negb _).
Qed.

Lemma zero_optimum_is_undefined_witness :
  let state := sample_state six_stones 5 GameStatus.COMPLETED in
  let level := sample_level Difficulty.HARD six_stones (Some 0%Z) in
  StandardScore.efficiency state level = Ok 1%Q ∧
  StandardScore.efficiency_score state level = Ok 1000%Z ∧
  StandardScore.calculate state level
    = StandardScore.calculate state (with_optimal_moves None level) ∧
  MaxMovesScore.calculate state level = StandardScore.calculate state level.
Proof. apply zero_optimum_is_undefined; reflexivity. Defined.

(** ** The penalised variant *)

(** C5, as stated, fails for a level whose optimum is 0: the stated penalty
    divides the overage by the optimum, the code returns the base score. *)
Lemma penalized_score_as_stated_fails :
  ¬ penalized_score_as_stated
      (sample_state six_stones 3 GameStatus.COMPLETED)
      (sample_level Difficulty.HARD six_stones (Some 0%Z)).
Proof.
  intros (base & _ & Hpen & _).
  destruct (Hpen 0%Z eq_refl eq_refl eq_refl) as (q & x & y & Hq & _).
  vm_compute in Hq. discriminate Hq.
Qed.

(** C5, amended: for every state and level in range, the penalised strategy
    computes the standard score as base; if the state is completed, the
    optimum is defined and not zero, and [move_count > optimal_moves], it
    returns
    [max(base - floor(base * min((move_count - optimal_moves) / optimal_moves, 1.0) * 0.5), 0)];
    it returns base unchanged when the state is not completed, or the optimum
    is undefined or zero, or [move_count <= optimal_moves]. *)
Theorem penalized_score {datetime : Type} (state : GameState.t datetime) (level : Level.t) :
  in_range state level →
  ∃ base, StandardScore.calculate state level = Ok base ∧
    (∀ o, GameState.status state = GameStatus.COMPLETED →
          Level.optimal_moves level = Some o → o ≠ 0%Z →
          (o < GameState.move_count state)%Z →
          penalized_from base o state level) ∧
    (no_overage_penalty state level → MaxMovesScore.calculate state level = Ok base).
Proof.
  intros Hr. destruct (MaxMovesScore_cases state level Hr) as (base & Hb & _ & Hpen & Hno).
  exists base. split; [done|]. split; [|done].
  intros o Hst Ho Hne Hlt. by destruct (Hpen o Hst Ho Hne Hlt).
Qed.

Lemma penalized_score_witness :
  let state := sample_state six_stones 14 GameStatus.COMPLETED in
  let level := sample_level Difficulty.HARD six_stones (Some 7%Z) in
  ∃ base, StandardScore.calculate state level = Ok base ∧
    (∀ o, GameState.status state = GameStatus.COMPLETED →
          Level.optimal_moves level = Some o → o ≠ 0%Z →
          (o < GameState.move_count state)%Z →
          penalized_from base o state level) ∧
    (no_overage_penalty state level → MaxMovesScore.calculate state level = Ok base).
Proof. apply penalized_score. repeat split; vm_compute; congruence. Defined.

(** Fourteen moves against an optimum of seven: the hard level scores
    [2125 - floor(2125 * 1.0 * 0.5) = 1063], below its own base. *)
Lemma fourteen_moves_hard_score :
  let state := sample_state six_stones 14 GameStatus.COMPLETED in
  let level := sample_level Difficulty.HARD six_stones (Some 7%Z) in
  StandardScore.calculate state level = Ok 2125%Z ∧
  MaxMovesScore.calculate state level = Ok 1063%Z.
Proof. split; vm_compute; reflexivity. Qed.

(** ** Scores across difficulties *)

(** C2, as stated, fails once the hard strategy charges its penalty: fourteen
    moves against an optimum of seven score 2000 on medium and 1063 on hard. *)
Lemma difficulty_monotone_fails :
  ¬ difficulty_monotone
      (sample_state six_stones 14 GameStatus.COMPLETED)
      (sample_level Difficulty.MEDIUM six_stones (Some 7%Z)).
Proof.
  intros (e & m & h & _ & Hm & Hh & _ & Hmh).
  vm_compute in Hm. vm_compute in Hh.
  injection Hm as <-. injection Hh as <-. lia.
Qed.

Lemma in_range_with_difficulty {datetime : Type} (d : Difficulty.t)
    (state : GameState.t datetime) (level : Level.t) :
  in_range state level → in_range state (with_difficulty d level).
Proof. done. Qed.

(** The standard score at each difficulty: one progress score, one efficiency
    score, and the difficulty's multiplier. *)
Lemma standard_score_by_difficulty {datetime : Type}
    (state : GameState.t datetime) (level : Level.t) :
  in_range state level →
  ∃ ps, (0 ≤ ps ≤ 2 ^ 72)%Z ∧
    ((GameState.status state ≠ GameStatus.COMPLETED ∧
      ∀ d, StandardScore.calculate state (with_difficulty d level) = Ok ps) ∨
     (GameState.status state = GameStatus.COMPLETED ∧
      ∃ es, (0 ≤ es ≤ 2 ^ 10)%Z ∧
        ∀ d, StandardScore.calculate state (with_difficulty d level)
             = StandardScore.final_score ps es
                 (ScoringPolicy.multiplier (Difficulty.scoring_policy d)))).
Proof.
  intros Hr.
  destruct (progress_score_ok state level) as (ps & Hps & Hps'); [apply Hr|].
  exists ps. split; [done|].
  destruct (decide (GameState.status state = GameStatus.COMPLETED)) as [Hst|Hst].
  - right. split; [done|].
    destruct (efficiency_score_ok state level Hr) as (es & Hes & Hes').
    exists es. split; [done|]. intros d. unfold StandardScore.calculate.
    change (StandardScore.progress_score state (with_difficulty d level))
      with (StandardScore.progress_score state level).
    change (StandardScore.efficiency_score state (with_difficulty d level))
      with (StandardScore.efficiency_score state level).
    rewrite Hps, Hes, Hst. reflexivity.
  - left. split; [done|]. intros d.
    rewrite StandardScore_not_completed by done. exact Hps.
Qed.

(** C2, amended: for every state and level in range, identical except for the
    difficulty, [score(easy) <= score(medium)], and the medium score is at
    most the hard level's score before its overage penalty; the hard score is
    that base whenever no penalty applies (the state is not completed, the
    optimum is undefined or zero, or [move_count <= optimal_moves]), so that
    [score(easy) <= score(medium) <= score(hard)] there, and it is never above
    that base. *)
Theorem difficulty_order {datetime : Type} (state : GameState.t datetime) (level : Level.t) :
  in_range state level →
  ∃ e m h base,
    score_at Difficulty.EASY state level = Ok e ∧
    score_at Difficulty.MEDIUM state level = Ok m ∧
    score_at Difficulty.HARD state level = Ok h ∧
    StandardScore.calculate state (with_difficulty Difficulty.HARD level) = Ok base ∧
    (e ≤ m)%Z ∧ (m ≤ base)%Z ∧ (h ≤ base)%Z ∧
    (no_overage_penalty state level → h = base).
Proof.
  intros Hr.
  destruct (StandardScore_returns state (with_difficulty Difficulty.EASY level) Hr)
    as (e & He & _).
  destruct (StandardScore_returns state (with_difficulty Difficulty.MEDIUM level) Hr)
    as (m & Hm & _).
  destruct (MaxMovesScore_cases state (with_difficulty Difficulty.HARD level) Hr)
    as (base & Hb & Hb0 & Hpen & Hno).
  assert (Hh : ∃ h, MaxMovesScore.calculate state (with_difficulty Difficulty.HARD level) = Ok h
                    ∧ (h ≤ base)%Z).
  { destruct (decide (GameState.status state = GameStatus.COMPLETED)) as [Hst|Hst];
      [|exists base; split; [apply Hno; by left | lia]].
    destruct (Level.optimal_moves level) as [o|] eqn:Ho;
      [|exists base; split; [apply Hno; right; by left | lia]].
    destruct (decide (o = 0%Z)) as [->|Hne];
      [exists base; split; [apply Hno; right; right; by left | lia]|].
    destruct (Z_lt_le_dec o (GameState.move_count state)) as [Hlt|Hle];
      [|exists base; split; [apply Hno; right; right; right; by exists o | lia]].
    destruct (Hpen o Hst Ho Hne Hlt) as (_ & h & Hh & Hh'). exists h. split; [done|lia]. }
  destruct Hh as (h & Hh & Hhb).
  exists e, m, h, base. unfold score_at. cbn. repeat split; try done.
  - destruct (standard_score_by_difficulty state level Hr)
      as (ps & Hps & [[_ Hall] | [_ (es & Hes & Hall)]]).
    + rewrite Hall in He, Hm. assert (e = m) by congruence. lia.
    + rewrite Hall in He, Hm.
      refine (final_score_mono ps es _ _ e m Hps Hes _ _ _ He Hm); cbn; lra.
  - destruct (standard_score_by_difficulty state level Hr)
      as (ps & Hps & [[_ Hall] | [_ (es & Hes & Hall)]]).
    + rewrite Hall in Hm, Hb. assert (m = base) by congruence. lia.
    + rewrite Hall in Hm, Hb.
      refine (final_score_mono ps es _ _ m base Hps Hes _ _ _ Hm Hb); cbn; lra.
  - intros Hnp. apply Hno in Hnp. congruence.
Qed.

Lemma difficulty_order_witness :
  let state := sample_state six_stones 14 GameStatus.COMPLETED in
  let level := sample_level Difficulty.MEDIUM six_stones (Some 7%Z) in
  ∃ e m h base,
    score_at Difficulty.EASY state level = Ok e ∧
    score_at Difficulty.MEDIUM state level = Ok m ∧
    score_at Difficulty.HARD state level = Ok h ∧
    StandardScore.calculate state (with_difficulty Difficulty.HARD level) = Ok base ∧
    (e ≤ m)%Z ∧ (m ≤ base)%Z ∧ (h ≤ base)%Z ∧
    (no_overage_penalty state level → h = base).
Proof. apply difficulty_order. repeat split; vm_compute; congruence. Defined.

End ScoringSpec.


(** * The movement operation *)

Module ControllerSpec.
Import ScoringFacts.

Section spec.
Context {datetime : Type}.
Context (clock : nat → datetime) (levels_get : string → option Level.t).
Implicit Types (state : GameState.t datetime) (level : Level.t).
Implicit Types (w : GameController.world (datetime := datetime)).

Lemma ScoreStrategy_returns (strategy : ScoreStrategy.t) state level :
  in_range state level → ∃ v, ScoreStrategy_calculate strategy state level = Ok v.
Proof.
  intros Hr. destruct strategy; cbn.
  - destruct (StandardScore_returns state level Hr) as (v & Hv & _). eauto.
  - destruct (MaxMovesScore_cases state level Hr) as (base & Hb & _ & Hpen & Hno).
    destruct (decide (GameState.status state = GameStatus.COMPLETED)) as [Hst|Hst];
      [|exists base; apply Hno; by left].
    destruct (Level.optimal_moves level) as [o|] eqn:Ho;
      [|exists base; apply Hno; right; by left].
    destruct (decide (o = 0%Z)) as [->|Hne];
      [exists base; apply Hno; right; right; by left|].
    destruct (Z_lt_le_dec o (GameState.move_count state)) as [Hlt|Hle];
      [|exists base; apply Hno; right; right; right; by exists o].
    destruct (Hpen o Hst eq_refl Hne Hlt) as (_ & h & Hh & _). eauto.
Qed.

(** C7: on a state whose status is completed or game over, [move] with any
    direction returns normally, reads no clock and calls no repository; the
    returned state is the given one with the message "Game already ended.",
    so the location, the move count, the status and every other field are
    unchanged. *)
Theorem move_on_terminal_state (user_email level_id : string) state (direction : string) w :
  GameState.status state = GameStatus.COMPLETED ∨
  GameState.status state = GameStatus.GAME_OVER →
  ∃ state',
    GameController.move clock levels_get user_email level_id state direction w = Ok (state', w) ∧
    state' = GameState.set_message (Some "Game already ended.") state ∧
    GameState.player state' = GameState.player state ∧
    GameState.move_count state' = GameState.move_count state ∧
    GameState.status state' = GameState.status state ∧
    GameState.level_id state' = GameState.level_id state ∧
    GameState.visited_rooms state' = GameState.visited_rooms state ∧
    GameState.collected_items state' = GameState.collected_items state ∧
    GameState.event_log state' = GameState.event_log state ∧
    GameState.encountered_villain state' = GameState.encountered_villain state ∧
    GameState.started_at state' = GameState.started_at state ∧
    GameState.updated_at state' = GameState.updated_at state.
Proof.
  intros Hst. eexists. split; [|by repeat split].
  unfold GameController.move. by destruct Hst as [-> | ->].
Qed.

(** C8: on a state in progress whose room has no exit in the requested
    direction, [move] returns normally; the move count grows by exactly 1,
    "Bumped into a wall" is appended to the event log, the message is
    "You bumped into a wall.", the location and the status are unchanged, and
    the state is autosaved. *)
Theorem move_into_wall (user_email level_id : string) state (direction : string) w
    level (room : Room.t) :
  GameState.status state = GameStatus.IN_PROGRESS →
  levels_get level_id = Some level →
  dict_get (MapGraph.rooms (Level.map level)) (Player.location (GameState.player state))
    = Some room →
  dict_get (Room.exits room) direction = None →
  ∃ state' w',
    GameController.move clock levels_get user_email level_id state direction w = Ok (state', w') ∧
    GameState.move_count state' = (GameState.move_count state + 1)%Z ∧
    GameState.event_log state' = GameState.event_log state ++ ["Bumped into a wall"] ∧
    GameState.message state' = Some "You bumped into a wall." ∧
    GameState.player state' = GameState.player state ∧
    GameState.status state' = GameState.status state ∧
    GameState.visited_rooms state' = GameState.visited_rooms state ∧
    GameState.collected_items state' = GameState.collected_items state ∧
    GameState.encountered_villain state' = GameState.encountered_villain state ∧
    ∃ save, GameController.calls w' = GameController.calls w ++ [GameController.upsert_active save]
            ∧ GameSave.state save = state'.
Proof.
  intros Hst Hlevel Hroom Hexit.
  unfold GameController.move, GameController.mbind, GameController._require_level,
    GameController.lift, dict_item.
  rewrite Hst, Hlevel. cbn. rewrite Hroom, Hexit. cbn.
  do 2 eexists. split; [reflexivity|]. cbn. repeat split; try done.
  eexists. split; reflexivity.
Qed.

(** C6: a move from a state in progress through an exit returns normally.
    When the room entered holds the villain, the status becomes completed
    with the message "You defeated the villain!" if the collected items
    include every required item, and game over with the message "You found
    the villain too soon." otherwise.  When the room entered does not hold
    the villain, the status is unchanged. *)
Theorem move_checks_rules (user_email level_id : string) state (direction : string) w
    level (room entered_room : Room.t) (next_room : string) :
  GameState.status state = GameStatus.IN_PROGRESS →
  levels_get level_id = Some level →
  dict_get (MapGraph.rooms (Level.map level)) (Player.location (GameState.player state))
    = Some room →
  dict_get (Room.exits room) direction = Some next_room →
  dict_get (MapGraph.rooms (Level.map level)) next_room = Some entered_room →
  in_range (GameState.set_move_count (GameState.move_count state + 1) state) level →
  ∃ state' w',
    GameController.move clock levels_get user_email level_id state direction w = Ok (state', w') ∧
    Player.location (GameState.player state') = next_room ∧
    rules_outcome level entered_room state state'.
Proof.
  intros Hst Hlevel Hroom Hexit Hentered Hr.
  unfold rules_outcome, GameController.move, GameController.mbind, GameController._require_level,
    GameController.lift, dict_item.
  rewrite Hst, Hlevel. cbn. rewrite Hroom, Hexit. cbn. rewrite Hentered.
  unfold StandardRules.check.
  destruct (Room.item entered_room) as [[n k | n | n]|] eqn:Hitem; cbn.
  - unfold GameController._persist_or_finalize. cbn. rewrite Hst. cbn.
    do 2 eexists. split; [reflexivity|]. by cbn.
  - unfold GameController._persist_or_finalize.
    destruct (decide (n ∈ _)); cbn; rewrite Hst; cbn;
      (do 2 eexists; split; [reflexivity|]; by cbn).
  - set (entered := if GameState.encountered_villain _ then _ else _).
    assert (Hc : GameState.collected_items entered = GameState.collected_items state).
    { subst entered. cbn. by destruct (GameState.encountered_villain state). }
    assert (Hm : GameState.move_count entered = (GameState.move_count state + 1)%Z).
    { subst entered. cbn. by destruct (GameState.encountered_villain state). }
    assert (Hl : Player.location (GameState.player entered) = next_room).
    { subst entered. cbn. by destruct (GameState.encountered_villain state). }
    rewrite Hc.
    destruct (decide (_ ⊆ _)) as [Hsub|Hsub];
      unfold GameController._persist_or_finalize, GameController.mbind,
        GameController._require_level, GameController.lift; cbn; rewrite Hlevel; cbn.
    + match goal with |- context [ScoreStrategy_calculate ?s ?st ?lv] =>
        destruct (ScoreStrategy_returns s st lv) as (v & ->) end.
      { destruct Hr as (H1 & H2 & H3). repeat split; cbn; [by rewrite Hc | by rewrite Hm | done]. }
      cbn. do 2 eexists. split; [reflexivity|]. by cbn.
    + match goal with |- context [ScoreStrategy_calculate ?s ?st ?lv] =>
        destruct (ScoreStrategy_returns s st lv) as (v & ->) end.
      { destruct Hr as (H1 & H2 & H3). repeat split; cbn; [by rewrite Hc | by rewrite Hm | done]. }
      cbn. do 2 eexists. split; [reflexivity|]. by cbn.
  - unfold GameController._persist_or_finalize. cbn. rewrite Hst. cbn.
    do 2 eexists. split; [reflexivity|]. by cbn.
Qed.
End spec.

Lemma move_on_terminal_state_witness :
  ∃ state',
    GameController.move tick_clock two_rooms_repo "player@example.com" "level_test"
      (GameState.set_status GameStatus.GAME_OVER two_rooms_start) "west" fresh_world
      = Ok (state', fresh_world) ∧
    state' = GameState.set_message (Some "Game already ended.")
               (GameState.set_status GameStatus.GAME_OVER two_rooms_start) ∧
    GameState.player state' = GameState.player two_rooms_start ∧
    GameState.move_count state' = 0%Z ∧
    GameState.status state' = GameStatus.GAME_OVER ∧
    GameState.level_id state' = "level_test" ∧
    GameState.visited_rooms state' = {[ "A" ]} ∪ ∅ ∧
    GameState.collected_items state' = ∅ ∧
    GameState.event_log state' = [] ∧
    GameState.encountered_villain state' = false ∧
    GameState.started_at state' = 0 ∧
    GameState.updated_at state' = 1.
Proof.
  apply (move_on_terminal_state tick_clock two_rooms_repo "player@example.com" "level_test"
           (GameState.set_status GameStatus.GAME_OVER two_rooms_start) "west" fresh_world).
  right. reflexivity.
Defined.

Lemma move_into_wall_witness :
  ∃ state' w',
    GameController.move tick_clock two_rooms_repo "player@example.com" "level_test"
      two_rooms_start "north" fresh_world = Ok (state', w') ∧
    GameState.move_count state' = (GameState.move_count two_rooms_start + 1)%Z ∧
    GameState.event_log state' = GameState.event_log two_rooms_start ++ ["Bumped into a wall"] ∧
    GameState.message state' = Some "You bumped into a wall." ∧
    GameState.player state' = GameState.player two_rooms_start ∧
    GameState.status state' = GameState.status two_rooms_start ∧
    GameState.visited_rooms state' = GameState.visited_rooms two_rooms_start ∧
    GameState.collected_items state' = GameState.collected_items two_rooms_start ∧
    GameState.encountered_villain state' = GameState.encountered_villain two_rooms_start ∧
    ∃ save, GameController.calls w'
            = GameController.calls fresh_world ++ [GameController.upsert_active save]
            ∧ GameSave.state save = state'.
Proof.
  apply (move_into_wall tick_clock two_rooms_repo "player@example.com" "level_test"
           two_rooms_start "north" fresh_world two_rooms_level
           (Room.mk "A" [("east", "B")] None)); reflexivity.
Defined.

Lemma move_checks_rules_witness :
  ∃ state' w',
    GameController.move tick_clock two_rooms_repo "player@example.com" "level_test"
      two_rooms_start "east" fresh_world = Ok (state', w') ∧
    Player.location (GameState.player state') = "B" ∧
    rules_outcome two_rooms_level
      (Room.mk "B" [("west", "A")] (Some (Item.Villain "Villain")))
      two_rooms_start state'.
Proof.
  apply (move_checks_rules tick_clock two_rooms_repo "player@example.com" "level_test"
           two_rooms_start "east" fresh_world two_rooms_level
           (Room.mk "A" [("east", "B")] None)
           (Room.mk "B" [("west", "A")] (Some (Item.Villain "Villain"))) "B");
    try reflexivity.
  repeat split; vm_compute; congruence.
Defined.

(** Entering the villain's room of the two-room level, which requires no
    item, wins the game on the first move. *)
Lemma two_rooms_win :
  ∃ state' w',
    GameController.move tick_clock two_rooms_repo "player@example.com" "level_test"
      two_rooms_start "east" fresh_world = Ok (state', w') ∧
    GameState.status state' = GameStatus.COMPLETED ∧
    GameState.move_count state' = 1%Z ∧
    GameState.encountered_villain state' = true.
Proof. do 2 eexists. split; [vm_compute; reflexivity|]. by vm_compute. Qed.

End ControllerSpec.


(** * Serialisation round trip *)

Module SerializationSpec.
Import Serialization.

Lemma as_strs_fmap (l : list string) : as_strs (PStr <$> l) = Ok l.
Proof. induction l as [|s l IH]; [done|]. cbn. by rewrite IH. Qed.

Lemma of_value_value (s : GameStatus.t) : GameStatus.of_value (GameStatus.value s) = Ok s.
Proof. by destruct s. Qed.

Section roundtrip.
Context {datetime : Type}.
Context (isoformat : datetime → string) (fromisoformat : string → result datetime).
Context (clock : nat → datetime) (levels_get : string → option Level.t).
Hypothesis fromisoformat_isoformat : ∀ t, fromisoformat (isoformat t) = Ok t.
Implicit Types (state : GameState.t datetime).

(** Deserialising a serialised state gives the state back, with its
    location added to the visited rooms. *)
Lemma from_dict_to_dict state :
  gamestate_from_dict fromisoformat (gamestate_to_dict isoformat state)
  = Ok (GameState.visit (Player.location (GameState.player state)) state).
Proof.
  destruct state as [lid [loc] visited collected mc st msg log started updated villain].
  unfold gamestate_from_dict, gamestate_to_dict. cbn.
  rewrite !as_strs_fmap. cbn. rewrite of_value_value. cbn.
  assert (Hmsg : as_opt_str (match msg with Some m => PStr m | None => PNone end) = Ok msg)
    by by destruct msg.
  rewrite Hmsg. cbn. rewrite !fromisoformat_isoformat. cbn.
  by rewrite !list_to_set_elements_L.
Qed.

Lemma on_enter_place (i : Item.t) state :
  GameState.player (Item.on_enter i state) = GameState.player state ∧
  GameState.visited_rooms (Item.on_enter i state) = GameState.visited_rooms state.
Proof.
  destruct i; cbn; [done| |].
  - by destruct (decide _).
  - by destruct (GameState.encountered_villain state).
Qed.

Lemma check_place (rules : StandardRules.t) state (room : Room.t) :
  GameState.player (StandardRules.check rules state room) = GameState.player state ∧
  GameState.visited_rooms (StandardRules.check rules state room)
    = GameState.visited_rooms state.
Proof.
  unfold StandardRules.check. destruct (Room.item room) as [i|]; [|done].
  destruct (Item.is_Villain i); [|done]. by destruct (decide _).
Qed.

Lemma persist_place (user_email level_id : string) state w state' w' :
  GameController._persist_or_finalize clock levels_get user_email level_id state w
    = Ok (state', w') →
  GameState.player state' = GameState.player state ∧
  GameState.visited_rooms state' = GameState.visited_rooms state.
Proof.
  unfold GameController._persist_or_finalize, GameController.mbind,
    GameController._require_level, GameController.lift.
  destruct (negb _); cbn.
  - intros [= <- _]. done.
  - destruct (levels_get level_id) as [level|]; cbn; [|done].
    destruct (ScoreStrategy_calculate _ _ _); cbn; [|done].
    intros [= <- _]. done.
Qed.

(** The invariant of the session state: the current location is visited. *)
Lemma reachable_location_visited state :
  reachable isoformat fromisoformat clock levels_get state →
  Player.location (GameState.player state) ∈ GameState.visited_rooms state.
Proof.
  induction 1 as [user level_id w state w' Hstart
                 | user level_id direction state w state' w' _ IH Hmove
                 | state state' _ IH Hrestore].
  - unfold GameController.start_new_run, GameController.mbind,
      GameController._require_level in Hstart.
    destruct (levels_get level_id) as [level|]; cbn in Hstart; [|done].
    injection Hstart as <- _. cbn. set_solver.
  - unfold GameController.move, GameController.mbind, GameController._require_level,
      GameController.lift, dict_item in Hmove.
    destruct (GameStatus.is_terminal _); [injection Hmove as <- _; exact IH|].
    destruct (levels_get level_id) as [level|]; cbn in Hmove; [|done].
    destruct (dict_get _ _) as [room|]; cbn in Hmove; [|done].
    destruct (dict_get (Room.exits room) direction) as [next_room|].
    + destruct (dict_get _ next_room) as [entered|]; cbn in Hmove; [|done].
      apply persist_place in Hmove as [-> ->].
      match goal with |- context [StandardRules.check ?r ?s ?e] =>
        destruct (check_place r s e) as [-> ->] end.
      destruct (Room.item entered) as [i|].
      * match goal with |- context [Item.on_enter i ?s] =>
          destruct (on_enter_place i s) as [-> ->] end.
        cbn. set_solver.
      * cbn. set_solver.
    + injection Hmove as <- _. exact IH.
  - rewrite from_dict_to_dict in Hrestore. injection Hrestore as <-. cbn. set_solver.
Qed.

(** C9: for every reachable session state, deserialising its serialised
    form returns a state equal to the original, field by field, and the
    state deserialised has its location among its visited rooms.  (The
    location is added on every load: [from_dict_to_dict] gives the state
    deserialised for any state, and [deserialized_location_visited] the
    repair.) *)
Theorem roundtrip state :
  reachable isoformat fromisoformat clock levels_get state →
  ∃ state',
    gamestate_from_dict fromisoformat (gamestate_to_dict isoformat state) = Ok state' ∧
    state' = state ∧
    GameState.level_id state' = GameState.level_id state ∧
    Player.location (GameState.player state') = Player.location (GameState.player state) ∧
    GameState.visited_rooms state' = GameState.visited_rooms state ∧
    GameState.collected_items state' = GameState.collected_items state ∧
    GameState.move_count state' = GameState.move_count state ∧
    GameState.status state' = GameState.status state ∧
    GameState.message state' = GameState.message state ∧
    GameState.event_log state' = GameState.event_log state ∧
    GameState.encountered_villain state' = GameState.encountered_villain state ∧
    GameState.started_at state' = GameState.started_at state ∧
    GameState.updated_at state' = GameState.updated_at state ∧
    Player.location (GameState.player state') ∈ GameState.visited_rooms state'.
Proof.
  intros Hreach. pose proof (reachable_location_visited state Hreach) as Hin.
  exists state. rewrite from_dict_to_dict. split; [|by repeat split].
  f_equal. destruct state as [lid [loc] visited collected mc st msg log started updated villain].
  cbn in *. unfold GameState.visit, GameState.set_visited_rooms. cbn.
  f_equal. apply subseteq_union_1_L. by apply singleton_subseteq_l.
Qed.

(** Any state, reachable or not: deserialisation repairs the invariant. *)
Lemma deserialized_location_visited state :
  ∃ state',
    gamestate_from_dict fromisoformat (gamestate_to_dict isoformat state) = Ok state' ∧
    Player.location (GameState.player state') ∈ GameState.visited_rooms state'.
Proof. eexists. split; [apply from_dict_to_dict|]. cbn. set_solver. Qed.
End roundtrip.

Lemma started_session_reachable :
  reachable text_isoformat text_fromisoformat noon_clock two_rooms_repo started_session.
Proof.
  apply (reachable_start _ _ _ _ "player@example.com" "level_test" text_world
           started_session
           (GameController.mk_world 5
              [GameController.upsert_active
                 (GameSave.mk "player@example.com" "level_test" started_session
                    (noon_clock 3) (noon_clock 4))])).
  reflexivity.
Qed.

Lemma roundtrip_witness :
  ∃ state',
    gamestate_from_dict text_fromisoformat (gamestate_to_dict text_isoformat started_session)
      = Ok state' ∧
    state' = started_session ∧
    GameState.level_id state' = GameState.level_id started_session ∧
    Player.location (GameState.player state')
      = Player.location (GameState.player started_session) ∧
    GameState.visited_rooms state' = GameState.visited_rooms started_session ∧
    GameState.collected_items state' = GameState.collected_items started_session ∧
    GameState.move_count state' = GameState.move_count started_session ∧
    GameState.status state' = GameState.status started_session ∧
    GameState.message state' = GameState.message started_session ∧
    GameState.event_log state' = GameState.event_log started_session ∧
    GameState.encountered_villain state' = GameState.encountered_villain started_session ∧
    GameState.started_at state' = GameState.started_at started_session ∧
    GameState.updated_at state' = GameState.updated_at started_session ∧
    Player.location (GameState.player state') ∈ GameState.visited_rooms state'.
Proof.
  apply (roundtrip text_isoformat text_fromisoformat noon_clock two_rooms_repo
           (fun t => eq_refl) started_session).
  apply (reachable_start _ _ _ _ "player@example.com" "level_test" text_world
           started_session
           (GameController.mk_world 5
              [GameController.upsert_active
                 (GameSave.mk "player@example.com" "level_test" started_session
                    (noon_clock 3) (noon_clock 4))])).
  reflexivity.
Defined.

End SerializationSpec.


(** * The solver *)

Module SolverFacts.
Import Validation SearchSpace.

(** ** Dictionaries *)

Lemma dict_get_Some_elem {V : Type} (d : list (string * V)) (k : string) (v : V) :
  dict_get d k = Some v → (k, v) ∈ d.
Proof.
  induction d as [|[k' v'] d IH]; [done|]. cbn.
  destruct (String.eqb_spec k' k) as [->|Hne].
  - intros [= ->]. left.
  - intros H. right. by apply IH.
Qed.

Lemma dict_get_is_Some {V : Type} (d : list (string * V)) (k : string) :
  is_Some (dict_get d k) ↔ k ∈ dict_keys d.
Proof.
  unfold dict_keys. induction d as [|[k' v'] d IH]; cbn.
  - split; [by intros [? ?] | by intros ?%elem_of_nil].
  - destruct (String.eqb_spec k' k) as [->|Hne].
    + split; [intros _; left | by eexists].
    + rewrite IH. split; [by right | by intros [?|?]%elem_of_cons].
Qed.

Lemma dict_has_spec {V : Type} (d : list (string * V)) (k : string) :
  dict_has d k = true ↔ k ∈ dict_keys d.
Proof. unfold dict_has. rewrite bool_decide_eq_true. apply dict_get_is_Some. Qed.

(** ** The universe of search states *)

Lemma length_sublists {A : Type} (l : list A) : length (sublists l) = 2 ^ length l.
Proof.
  induction l as [|x l IH]; [done|]. cbn [sublists length].
  rewrite length_app, length_fmap, IH. rewrite Nat.pow_succ_r'. lia.
Qed.

Lemma filter_in_sublists {A : Type} (P : A → Prop) `{∀ x, Decision (P x)} (l : list A) :
  filter P l ∈ sublists l.
Proof.
  induction l as [|x l IH]; [cbn; left|]. cbn [sublists].
  rewrite filter_cons. apply elem_of_app. destruct (decide (P x)).
  - right. apply list_elem_of_fmap. by exists (filter P l).
  - by left.
Qed.

Lemma subset_in_sublists (X S : gset string) :
  S ⊆ X → ∃ l, l ∈ sublists (elements X) ∧ list_to_set l = S.
Proof.
  intros HS. exists (filter (λ x, x ∈ S) (elements X)). split; [apply filter_in_sublists|].
  apply set_eq. intros x. rewrite elem_of_list_to_set, list_elem_of_filter, elem_of_elements.
  set_solver.
Qed.

Lemma size_list_to_set_le `{Countable A} (l : list A) :
  size (list_to_set l : gset A) ≤ length l.
Proof.
  induction l as [|x l IH]; cbn.
  - by rewrite size_empty.
  - rewrite size_union_alt, size_singleton.
    pose proof (subseteq_size (list_to_set l ∖ {[x]}) (list_to_set l : gset A)) as Hs.
    specialize (Hs ltac:(set_solver)). lia.
Qed.

Section solver.
Context (m : MapGraph.t) (required : gset string) (start : string).
Hypothesis start_exists : start ∈ dict_keys (MapGraph.rooms m).
Hypothesis exits_closed :
  ∀ room r d t, dict_get (MapGraph.rooms m) room = Some r → (d, t) ∈ Room.exits r →
                t ∈ dict_keys (MapGraph.rooms m).

Local Abbreviation edge := (edge m required).
Local Abbreviation winning := (winning m required).
Local Abbreviation walk := (walk m required start).
Local Abbreviation universe := (universe m required).
Local Abbreviation invariant := (invariant m required start).
Local Abbreviation potential := (potential m required).
Local Abbreviation post := (post m required start).

Lemma pick_up_subseteq (i : option Item.t) (items : gset string) :
  items ⊆ required → pick_up required i items ⊆ required.
Proof.
  intros Hs. unfold pick_up. destruct i as [i|]; [|done].
  destruct (decide _) as [[? ?]|]; set_solver.
Qed.

Lemma walk_in_range n s :
  walk n s → s.1 ∈ dict_keys (MapGraph.rooms m) ∧ s.2 ⊆ required.
Proof.
  induction 1 as [|n s t _ [IH1 IH2] (r & d & Hr & _ & Hexit & Hitems)]; [done|].
  split; [by eapply exits_closed|]. rewrite Hitems. by apply pick_up_subseteq.
Qed.

Lemma in_universe (s : state) :
  s.1 ∈ dict_keys (MapGraph.rooms m) → s.2 ⊆ required → s ∈ universe.
Proof.
  destruct s as [room items]. cbn. intros Hroom Hitems.
  apply elem_of_list_to_set, list_elem_of_In, in_flat_map. exists room.
  split; [by apply list_elem_of_In|]. apply list_elem_of_In, list_elem_of_fmap.
  destruct (subset_in_sublists required items Hitems) as (l & Hl & <-). by exists l.
Qed.

Lemma size_universe :
  size universe ≤ length (MapGraph.rooms m) * 2 ^ size required.
Proof.
  unfold SearchSpace.universe. etrans; [apply size_list_to_set_le|].
  assert (Hsz : size required = length (elements required)) by reflexivity.
  unfold dict_keys. generalize (MapGraph.rooms m). intros l.
  induction l as [|x l IH]; [done|]. cbn.
  rewrite length_app, length_fmap, length_sublists. rewrite Hsz in *.
  apply Nat.add_le_mono; [done|exact IH].
Qed.

Lemma degree_le_total (room : string) (r : Room.t) :
  dict_get (MapGraph.rooms m) room = Some r → length (Room.exits r) ≤ total_exits m.
Proof.
  intros Hr%dict_get_Some_elem. unfold total_exits. clear start_exists exits_closed.
  induction (MapGraph.rooms m) as [|x l IH]; [by apply elem_of_nil in Hr|].
  cbn. rewrite length_app. apply elem_of_cons in Hr as [<-|Hr]; [cbn; lia|].
  specialize (IH Hr). lia.
Qed.

(** ** The loop invariant *)

Lemma covered visited queue n s :
  invariant visited queue → walk n s →
  s ∈ visited ∨ ∃ t k, (t, k) ∈ queue ∧ k ≤ n.
Proof.
  intros Hinv. induction 1 as [|n s t Hw IH Hedge].
  - destruct (inv_init _ _ _ _ _ Hinv) as [?|?]; [by left|right]. by exists (init start), 0.
  - destruct IH as [Hs|(t' & k & Hin & Hk)].
    + destruct (inv_succ _ _ _ _ _ Hinv s n t Hs Hw Hedge) as [?|(k & ? & ?)];
        [by left|right]. by exists t, k.
    + right. exists t', k. split; [done|lia].
Qed.

Lemma head_min visited s0 k0 queue t k :
  invariant visited ((s0, k0) :: queue) → (t, k) ∈ (s0, k0) :: queue → k0 ≤ k.
Proof.
  intros Hinv Hin. destruct (inv_sorted _ _ _ _ _ Hinv) as (d & q1 & q2 & Hq & H1 & H2).
  assert (Hk : k = d ∨ k = S d).
  { rewrite Hq in Hin. apply elem_of_app in Hin as [Hin|Hin].
    - left. by apply (proj1 (Forall_forall _ _) H1 _ Hin).
    - right. by apply (proj1 (Forall_forall _ _) H2 _ Hin). }
  destruct q1 as [|e q1].
  - cbn in Hq. subst q2. apply Forall_cons in H2 as [Hd H2]. cbn in Hd.
    apply elem_of_cons in Hin as [[= -> ->]|Hin]; [lia|].
    pose proof (proj1 (Forall_forall _ _) H2 _ Hin) as Hk'. cbn in Hk'. lia.
  - cbn in Hq. injection Hq as <- _. apply Forall_cons in H1 as [Hd _]. cbn in Hd. lia.
Qed.

Lemma sorted_pop_push (e : state * nat) queue (new : list (state * nat)) :
  (∃ d q1 q2, e :: queue = q1 ++ q2 ∧
              Forall (λ e, e.2 = d) q1 ∧ Forall (λ e, e.2 = S d) q2) →
  Forall (λ e', e'.2 = S e.2) new →
  ∃ d q1 q2, queue ++ new = q1 ++ q2 ∧
             Forall (λ e, e.2 = d) q1 ∧ Forall (λ e, e.2 = S d) q2.
Proof.
  intros (d & q1 & q2 & Hq & H1 & H2) Hnew. destruct q1 as [|e' q1].
  - cbn in Hq. subst q2. apply Forall_cons in H2 as [Hd H2].
    exists (S d), queue, new. split; [done|]. split; [done|]. by rewrite <- Hd.
  - cbn in Hq. injection Hq as <- ->. apply Forall_cons in H1 as [Hd H1].
    exists d, q1, (q2 ++ new). split; [by rewrite app_assoc|]. split; [done|].
    apply Forall_app. split; [done|]. by rewrite <- Hd.
Qed.

Lemma invariant_skip visited s0 k0 queue :
  invariant visited ((s0, k0) :: queue) → s0 ∈ visited → invariant visited queue.
Proof.
  intros Hinv Hs0. split.
  - intros s k Hin. apply (inv_walk _ _ _ _ _ Hinv). by right.
  - rewrite <- (app_nil_r queue).
    by apply (sorted_pop_push (s0, k0)); [apply (inv_sorted _ _ _ _ _ Hinv)|].
  - apply (inv_nowin _ _ _ _ _ Hinv).
  - intros u i t Hu Hw He.
    destruct (inv_succ _ _ _ _ _ Hinv u i t Hu Hw He) as [?|(k & Hin & Hk)]; [by left|].
    apply elem_of_cons in Hin as [[= -> ->]|Hin]; [by left|right; eauto].
  - destruct (inv_init _ _ _ _ _ Hinv) as [?|Hin]; [by left|].
    apply elem_of_cons in Hin as [[= <- _]|Hin]; [by left|by right].
Qed.

Lemma invariant_expand visited s0 k0 queue (succs : list state) :
  invariant visited ((s0, k0) :: queue) → s0 ∉ visited → ¬ winning s0 →
  (∀ t, edge s0 t ↔ t ∈ succs) →
  invariant ({[ s0 ]} ∪ visited) (queue ++ ((λ t, (t, S k0)) <$> succs)).
Proof.
  intros Hinv Hs0 Hnowin Hsuccs.
  assert (Hw0 : walk k0 s0) by (apply (inv_walk _ _ _ _ _ Hinv); left).
  split.
  - intros s k [Hin|Hin]%elem_of_app.
    + apply (inv_walk _ _ _ _ _ Hinv). by right.
    + apply list_elem_of_fmap in Hin as (t & [= -> ->] & Ht).
      apply (walk_S _ _ _ k0 s0); [done|]. by apply Hsuccs.
  - apply (sorted_pop_push (s0, k0)); [apply (inv_sorted _ _ _ _ _ Hinv)|].
    apply Forall_forall. intros e (t & -> & _)%list_elem_of_fmap. done.
  - intros s [->%elem_of_singleton|Hs]%elem_of_union; [done|].
    by apply (inv_nowin _ _ _ _ _ Hinv).
  - intros u i t [->%elem_of_singleton|Hu]%elem_of_union Hw He.
    + right. exists (S k0). split.
      * apply elem_of_app. right. apply list_elem_of_fmap. exists t. split; [done|].
        by apply Hsuccs.
      * destruct (covered _ _ _ _ Hinv Hw) as [?|(t' & k & Hin & Hk)]; [done|].
        pose proof (head_min _ _ _ _ _ _ Hinv Hin). lia.
    + destruct (inv_succ _ _ _ _ _ Hinv u i t Hu Hw He) as [?|(k & Hin & Hk)].
      * left. set_solver.
      * apply elem_of_cons in Hin as [[= -> ->]|Hin]; [left; set_solver|].
        right. exists k. split; [|done]. apply elem_of_app. by left.
  - destruct (inv_init _ _ _ _ _ Hinv) as [?|Hin]; [left; set_solver|].
    apply elem_of_cons in Hin as [[= <- _]|Hin]; [left; set_solver|].
    right. apply elem_of_app. by left.
Qed.

Lemma invariant_init : invariant ∅ [ (init start, 0) ].
Proof.
  split.
  - intros s k [= -> ->]%list_elem_of_singleton. constructor.
  - exists 0, [ (init start, 0) ], []. by repeat constructor.
  - set_solver.
  - set_solver.
  - right. left.
Qed.

(** ** Termination *)

Lemma universe_step (visited : gset state) (s0 : state) :
  s0 ∈ universe → s0 ∉ visited →
  size (universe ∖ visited) = S (size (universe ∖ ({[ s0 ]} ∪ visited))).
Proof.
  intros HU HV.
  assert (Heq : universe ∖ visited = {[ s0 ]} ∪ universe ∖ ({[ s0 ]} ∪ visited)).
  { apply set_eq. intros x. rewrite !elem_of_union, !elem_of_difference,
      elem_of_union, elem_of_singleton.
    destruct (decide (x = s0)) as [->|]; naive_solver. }
  rewrite Heq, size_union, size_singleton; [done|]. set_solver.
Qed.

Lemma potential_init : potential ∅ [ (init start, 0) ] ≤ solver_fuel m required.
Proof.
  unfold SearchSpace.potential, solver_fuel. cbn [length].
  assert (Heq : universe ∖ ∅ = universe) by set_solver. rewrite Heq.
  pose proof size_universe. nia.
Qed.

Lemma potential_dead_end (len e rest fuel : nat) :
  S len + (2 + e) * S rest ≤ S fuel → len + (2 + e) * rest ≤ fuel.
Proof. lia. Qed.

Lemma potential_expand (len deg e rest fuel : nat) :
  deg ≤ e → S len + (2 + e) * S rest ≤ S fuel → len + deg + (2 + e) * rest ≤ fuel.
Proof. lia. Qed.

(** ** The loop *)

Lemma bfs_loop_correct (fuel : nat) visited queue :
  invariant visited queue → potential visited queue ≤ fuel →
  ∃ r, bfs_loop m required fuel visited queue = Some r ∧ post r.
Proof.
  revert visited queue. induction fuel as [|fuel IH]; intros visited queue Hinv Hpot.
  - destruct queue as [|e queue]; [|unfold SearchSpace.potential in Hpot; cbn in Hpot; lia].
    eexists. split; [done|]. split; [done|]. intros n s Hw Hwin.
    destruct (covered _ _ _ _ Hinv Hw) as [Hs|(t & k & Hin & _)].
    + by apply (inv_nowin _ _ _ _ _ Hinv s).
    + by apply elem_of_nil in Hin.
  - destruct queue as [|[[room items] dist] queue].
    { eexists. split; [done|]. split; [done|]. intros n s Hw Hwin.
      destruct (covered _ _ _ _ Hinv Hw) as [Hs|(t & k & Hin & _)].
      + by apply (inv_nowin _ _ _ _ _ Hinv s).
      + by apply elem_of_nil in Hin. }
    cbn [bfs_loop].
    assert (Hw0 : walk dist (room, items)) by (apply (inv_walk _ _ _ _ _ Hinv); left).
    destruct (walk_in_range _ _ Hw0) as [Hroom Hitems]. cbn in Hroom, Hitems.
    case_decide as Hvis.
    { apply IH; [by eapply invariant_skip|].
      unfold SearchSpace.potential in *. cbn in Hpot. lia. }
    apply dict_get_is_Some in Hroom as [r Hr]. rewrite Hr.
    assert (HU : (room, items) ∈ universe).
    { apply in_universe; [|done]. apply dict_get_is_Some. by exists r. }
    pose proof (universe_step visited _ HU Hvis) as Hstep.
    destruct (is_villain (Room.item r)) eqn:Hvillain.
    + case_decide as Hall.
      * eexists. split; [done|]. split.
        -- exists (room, items). split; [done|]. by exists r.
        -- intros n' s' Hw' Hwin'.
           destruct (covered _ _ _ _ Hinv Hw') as [Hs|(t & k & Hin & Hk)].
           ++ by destruct (inv_nowin _ _ _ _ _ Hinv s').
           ++ pose proof (head_min _ _ _ _ _ _ Hinv Hin). lia.
      * rewrite <- (app_nil_r queue). apply IH.
        -- apply (invariant_expand visited (room, items) dist queue []); [done|done| |].
           ++ intros (r' & Hr' & _ & Hall'). cbn in Hr'. rewrite Hr in Hr'.
              injection Hr' as <-. done.
           ++ intros t. split; [|by intros ?%elem_of_nil].
              intros (r' & d & Hr' & Hv & _). cbn in Hr'. rewrite Hr in Hr'.
              injection Hr' as <-. congruence.
        -- unfold SearchSpace.potential in *. rewrite app_nil_r.
           cbn [length] in Hpot. rewrite Hstep in Hpot.
           exact (potential_dead_end _ _ _ _ Hpot).
    + set (items' := pick_up required (Room.item r) items).
      set (succs := (λ dt : string * string, (dt.2, items')) <$> Room.exits r).
      assert (Hnew : ((λ '(_, nxt), (nxt, items', S dist)) <$> Room.exits r)
                     = (λ t, (t, S dist)) <$> succs).
      { subst succs. rewrite <- list_fmap_compose. apply list_fmap_ext.
        by intros i [d nxt] _. }
      rewrite Hnew. apply IH.
      * apply invariant_expand; [done|done| |].
        -- intros (r' & Hr' & Hv & _). cbn in Hr'. rewrite Hr in Hr'.
           injection Hr' as <-. congruence.
        -- intros [room' its']. subst succs. rewrite list_elem_of_fmap. split.
           ++ intros (r' & d & Hr' & _ & Hexit & Hits). cbn in *. rewrite Hr in Hr'.
              injection Hr' as <-. exists (d, room'). split; [by rewrite Hits|done].
           ++ intros ([d nxt] & [= -> ->] & Hexit). exists r, d. by cbn.
      * unfold SearchSpace.potential in *. rewrite length_app, length_fmap.
        subst succs. rewrite length_fmap.
        pose proof (degree_le_total room r Hr) as Hdeg.
        cbn [length] in Hpot. rewrite Hstep in Hpot.
        exact (potential_expand _ _ _ _ _ Hdeg Hpot).
Qed.

(** The solver returns, and what it returns is right. *)
Lemma compute_optimal_moves_correct (fuel : nat) :
  solver_fuel m required ≤ fuel →
  ∃ r, compute_optimal_moves m required fuel start = Some r ∧ post r.
Proof.
  intros Hfuel. apply bfs_loop_correct; [apply invariant_init|].
  etrans; [apply potential_init|done].
Qed.
End solver.

(** ** From the definition to the map *)

Import LevelDefinition.

Lemma build_rooms_spec (room_defs : list (string * room_def)) :
  Forall (λ nr, match item nr.2 with
                | Some i => type i ∈ [Some "relic"; Some "villain"] ∧ is_Some (item_name i)
                | None => True
                end) room_defs →
  ∃ rooms, LevelFactory.build_rooms room_defs = Ok rooms ∧
    dict_keys rooms = dict_keys room_defs ∧
    ∀ k, option_Forall2 mirrors (dict_get room_defs k) (dict_get rooms k).
Proof.
  induction 1 as [|[k rd] defs Hitem _ (rooms & Hrooms & Hkeys & Hget)].
  - exists []. repeat split. intros k. constructor.
  - assert (Hroom : ∃ r, LevelFactory.build_room k rd = Ok r ∧ mirrors rd r).
    { unfold LevelFactory.build_room, mirrors, is_villain_def. cbn in Hitem.
      destruct (item rd) as [i|]; [|by eexists].
      destruct Hitem as [Hty [n Hn]]. unfold LevelFactory.build_item.
      rewrite Hn.
      apply elem_of_cons in Hty as [->|Hty]; [by eexists|].
      apply list_elem_of_singleton in Hty as ->. by eexists. }
    destruct Hroom as (r & Hr & Hmir).
    exists ((k, r) :: rooms). cbn. rewrite Hr, Hrooms. cbn.
    split; [done|]. split; [unfold dict_keys in *; cbn; by rewrite Hkeys|].
    intros k'. destruct (String.eqb k k'); [by constructor|apply Hget].
Qed.

Section bridge.
Context (room_defs : list (string * room_def)) (m : MapGraph.t).
Context (required : gset string) (start : string).
Hypothesis mirrored :
  ∀ k, option_Forall2 mirrors (dict_get room_defs k) (dict_get (MapGraph.rooms m) k).

Local Abbreviation walk := (walk m required start).
Local Abbreviation winning := (winning m required).
Local Abbreviation holds_villain := (Solvability.holds_villain room_defs).
Local Abbreviation exit_to := (Solvability.exit_to room_defs).
Local Abbreviation found_in := (Solvability.found_in room_defs required).
Local Abbreviation collected_along := (Solvability.collected_along room_defs required).
Local Abbreviation legal := (Solvability.legal room_defs).

Lemma mirrored_Some_l k rd :
  dict_get room_defs k = Some rd →
  ∃ r, dict_get (MapGraph.rooms m) k = Some r ∧ mirrors rd r.
Proof.
  intros Hk. pose proof (mirrored k) as Hm. rewrite Hk in Hm.
  inversion Hm as [? r Hmir|]. by exists r.
Qed.

Lemma mirrored_Some_r k r :
  dict_get (MapGraph.rooms m) k = Some r →
  ∃ rd, dict_get room_defs k = Some rd ∧ mirrors rd r.
Proof.
  intros Hk. pose proof (mirrored k) as Hm. rewrite Hk in Hm.
  inversion Hm as [rd ? Hmir|]. by exists rd.
Qed.

Lemma pick_up_found_in k r (items : gset string) :
  dict_get (MapGraph.rooms m) k = Some r →
  pick_up required (Room.item r) items = items ∪ found_in k.
Proof.
  intros Hk. destruct (mirrored_Some_r k r Hk) as (rd & Hrd & _ & _ & Hname).
  unfold Solvability.found_in, pick_up. rewrite Hrd.
  destruct (Room.item r) as [j|], (item rd) as [i|]; cbn in Hname; try done.
  - rewrite <- Hname. cbn. destruct (decide (_ ∧ _)) as [[? ?]|Hn].
    + rewrite decide_True by done. done.
    + destruct (decide (Item.name j ∈ required)); [|set_solver].
      assert (Item.name j ∈ items) by (destruct (decide (Item.name j ∈ items)); tauto).
      set_solver.
  - rewrite <- Hname. set_solver.
  - set_solver.
Qed.

Lemma collected_along_snoc (p : list string) (a : string) :
  collected_along (p ++ [a]) = collected_along p ∪ found_in a.
Proof.
  unfold Solvability.collected_along. rewrite fmap_app, union_list_app_L. cbn.
  set_solver.
Qed.

Lemma legal_cons_inv (x : string) (q : list string) :
  legal (x :: q) →
  q = [] ∨ ∃ y q', q = y :: q' ∧ exit_to x y ∧ ¬ holds_villain x ∧ legal (y :: q').
Proof. inversion 1; subst; [by left|right]. eauto 10. Qed.

Lemma legal_snoc (p : list string) (a b : string) :
  legal (p ++ [a]) → exit_to a b → ¬ holds_villain a → legal ((p ++ [a]) ++ [b]).
Proof.
  intros Hl He Hv. induction p as [|x p IH]; cbn in *.
  - constructor; [done|done|constructor].
  - apply legal_cons_inv in Hl as [Hnil|(y & q & Heq & Hxy & Hvx & Hrest)];
      [by destruct p|].
    rewrite Heq in *. cbn. constructor; [done|done|]. by apply IH.
Qed.

Lemma legal_snoc_inv (p : list string) (a b : string) :
  legal ((p ++ [a]) ++ [b]) → legal (p ++ [a]) ∧ exit_to a b ∧ ¬ holds_villain a.
Proof.
  induction p as [|x p IH]; cbn.
  - intros [?|(y & q & [= <- <-] & Hxy & Hvx & _)]%legal_cons_inv; [done|].
    split; [constructor|done].
  - intros [Hnil|(y & q & Heq & Hxy & Hvx & Hrest)]%legal_cons_inv;
      [by destruct p|].
    rewrite <- Heq in Hrest. destruct (IH Hrest) as (Hl & ? & ?). split; [|done].
    destruct (p ++ [a]) as [|z q'] eqn:Hpa; [by destruct p|].
    cbn in Heq. injection Heq as <- _. by constructor.
Qed.

(** A search state reached in [n] moves is the end of a legal path of [n]
    moves, and carries the items collected before its last room. *)
Lemma walk_path n s :
  walk n s → ∃ p, length p = n ∧ legal (p ++ [s.1]) ∧
                  head (p ++ [s.1]) = Some start ∧ s.2 = collected_along p.
Proof.
  induction 1 as [|n s t _ (p & Hlen & Hleg & Hhead & Hitems)
                    (r & d & Hr & Hv & Hexit & Ht)].
  - exists []. repeat split. constructor.
  - destruct (mirrored_Some_r _ _ Hr) as (rd & Hrd & Hex & Hvil & _).
    exists (p ++ [s.1]). split; [rewrite length_app; cbn; lia|]. split; [|split].
    + apply legal_snoc; [done| |].
      * exists rd, d. split; [done|]. by rewrite <- Hex.
      * intros (rd' & Hrd' & Hvil'). rewrite Hrd in Hrd'. injection Hrd' as <-. congruence.
    + by destruct p.
    + rewrite Ht, (pick_up_found_in _ _ _ Hr), collected_along_snoc. by rewrite Hitems.
Qed.

Lemma path_walk (p : list string) (a : string) :
  legal (p ++ [a]) → head (p ++ [a]) = Some start →
  walk (length p) (a, collected_along p).
Proof.
  revert a. induction p as [|b p IH] using rev_ind; intros a Hleg Hhead.
  - cbn in Hhead. injection Hhead as ->. constructor.
  - apply legal_snoc_inv in Hleg as (Hleg & (rd & d & Hrd & Hexit) & Hv).
    rewrite length_app. cbn. rewrite Nat.add_1_r.
    destruct (mirrored_Some_l _ _ Hrd) as (r & Hr & Hex & Hvil & _).
    apply (walk_S _ _ _ _ (b, collected_along p)).
    + apply IH; [done|]. by destruct p.
    + exists r, d. cbn. split; [done|]. split; [|split].
      * destruct (is_villain (Room.item r)) eqn:E; [|done]. exfalso. apply Hv.
        exists rd. split; [done|]. congruence.
      * by rewrite Hex.
      * by rewrite (pick_up_found_in _ _ _ Hr), collected_along_snoc.
Qed.

Lemma winning_iff (p : list string) (a : string) :
  winning (a, collected_along p) ↔
  holds_villain a ∧ required ⊆ collected_along (p ++ [a]).
Proof.
  rewrite collected_along_snoc. split.
  - intros (r & Hr & Hv & Hall). cbn in *.
    destruct (mirrored_Some_r _ _ Hr) as (rd & Hrd & _ & Hvil & _). split.
    + exists rd. split; [done|]. congruence.
    + by rewrite <- (pick_up_found_in _ _ _ Hr).
  - intros [(rd & Hrd & Hv) Hall].
    destruct (mirrored_Some_l _ _ Hrd) as (r & Hr & _ & Hvil & _).
    exists r. cbn. split; [done|]. split; [congruence|].
    by rewrite (pick_up_found_in _ _ _ Hr).
Qed.

(** The winning states reached in [n] moves are the winning paths of [n]
    moves. *)
Lemma winning_walk_iff_path (n : nat) :
  (∃ s, walk n s ∧ winning s) ↔
  (∃ p, Solvability.winning_path room_defs required start p ∧ Solvability.moves p = n).
Proof.
  split.
  - intros ([a items] & Hw & Hwin).
    destruct (walk_path _ _ Hw) as (p & Hlen & Hleg & Hhead & Hitems). cbn in *. subst items.
    apply winning_iff in Hwin as [Hv Hall].
    exists (p ++ [a]). split.
    + split; [done|]. split; [done|]. split; [|done].
      exists a. split; [by rewrite last_snoc|done].
    + unfold Solvability.moves. rewrite length_app. cbn. lia.
  - intros (path & (Hhead & Hleg & (v & Hlast & Hv) & Hall) & Hmoves).
    destruct path as [|x path] using rev_ind; [done|]. clear IHpath.
    rewrite last_snoc in Hlast. injection Hlast as ->.
    unfold Solvability.moves in Hmoves. rewrite length_app in Hmoves. cbn in Hmoves.
    exists (v, collected_along path). split.
    + replace n with (length path) by lia. by apply path_walk.
    + by apply winning_iff.
Qed.

(** The loop's postcondition, read on the definition. *)
Lemma post_optimal (n : nat) :
  post m required start (Ok n) → Solvability.optimal room_defs required start n.
Proof.
  intros [Hex Hmin]. split; [by apply winning_walk_iff_path|].
  intros p Hp.
  destruct (proj2 (winning_walk_iff_path (Solvability.moves p))) as (s & Hw & Hwin);
    [by exists p|]. by apply (Hmin (Solvability.moves p) s).
Qed.

Lemma post_unsolvable (e : exn) :
  post m required start (Raise e) →
  e = LevelValidationError "Level is not solvable" ∧
  ¬ Solvability.solvable room_defs required start.
Proof.
  intros [-> Hno]. split; [done|]. intros (p & Hp).
  destruct (proj2 (winning_walk_iff_path (Solvability.moves p))) as (s & Hw & Hwin);
    [by exists p|]. by apply (Hno (Solvability.moves p) s).
Qed.
End bridge.

(** ** Validation of a well-formed definition *)

Lemma head_filter_None {A : Type} (P : A → Prop) `{∀ x, Decision (P x)} (l : list A) :
  Forall (λ x, ¬ P x) l → head (filter P l) = None.
Proof.
  induction 1 as [|x l Hx _ IH]; [done|]. rewrite filter_cons. by rewrite decide_False.
Qed.

(** The villains of rooms whose items all have a type. *)
Lemma villains_typed (rooms : list room_def) :
  items_typed rooms →
  villains rooms = Ok (filter (λ r, is_villain_def r = true) rooms).
Proof.
  induction 1 as [|r rooms Hr _ IH]; [done|]. cbn [villains]. rewrite IH, filter_cons.
  unfold holds_villain_def, is_villain_def in *.
  destruct (item r) as [i|]; cbn; [|done].
  destruct (Hr i eq_refl) as [t ->]. cbn.
  destruct (String.eqb t "villain"); [by rewrite decide_True|by rewrite decide_False].
Qed.

Lemma validate_well_formed defn room_defs required start :
  Solvability.well_formed defn room_defs required start →
  validate_level_definition defn = Ok tt.
Proof.
  intros [[i Hid] [n Hname] (d & Hdiff & _) Hstart Hrooms Hrules _ Hsr Hexits
          (coords & Hcoords & Hcs) Hvillain Hitems].
  unfold validate_level_definition.
  rewrite Hid, Hname, Hdiff, Hstart, Hrooms, Hcoords, Hrules.
  rewrite (proj2 (dict_has_spec room_defs start) Hsr). cbn [negb].
  assert (Hd : dangling_exit room_defs = None).
  { unfold dangling_exit. apply head_filter_None. apply Forall_forall.
    intros [room target] Hin Hbad. cbn in Hbad.
    apply list_elem_of_In, in_flat_map in Hin as ([room' rd] & Hrd%list_elem_of_In & Hin).
    apply list_elem_of_In, list_elem_of_fmap in Hin as ([dir t] & [= -> ->] & Ht).
    pose proof (proj1 (Forall_forall _ _) Hexits _ Hrd) as Hall. cbn in Hall.
    pose proof (proj1 (Forall_forall _ _) Hall _ Ht) as Hin'. cbn in Hin'.
    apply dict_has_spec in Hin'. congruence. }
  rewrite Hd.
  assert (Hc : head (filter (λ room, dict_has coords room = false) (dict_keys room_defs)) = None).
  { apply head_filter_None. eapply Forall_impl; [exact Hcs|].
    intros room Hin%dict_has_spec. cbn. congruence. }
  rewrite Hc, villains_typed; [cbn; by rewrite Hvillain|].
  apply Forall_fmap. eapply Forall_impl; [exact Hitems|]. intros [room rd] Hrd it Hit.
  cbn in *. rewrite Hit in Hrd. destruct Hrd as [Hty _].
  apply elem_of_cons in Hty as [->|Hty]; [done|].
  by apply list_elem_of_singleton in Hty as ->.
Qed.

(** For every well-formed level definition, once the solver is given enough
    iterations, [from_definition] returns.  The solver picks up the name of
    a room's item, of whatever type, when it is listed as required, in the
    start room as in every room it enters.  If some path leads from the start
    room to the villain's room, without continuing past it, with every
    required name picked up along it, [from_definition] returns a level whose
    [optimal_moves] is the least number of moves of such a path.  If there is
    none, it raises the unsolvable-level error and returns no level. *)
Theorem from_definition_optimal_moves defn room_defs required start :
  Solvability.well_formed defn room_defs required start →
  ∃ fuel0, ∀ fuel, fuel0 ≤ fuel →
    (Solvability.solvable room_defs (list_to_set required) start →
     ∃ level n,
       LevelFactory.from_definition fuel defn = Some (Ok level) ∧
       Level.optimal_moves level = Some (Z.of_nat n) ∧
       Solvability.optimal room_defs (list_to_set required) start n) ∧
    (¬ Solvability.solvable room_defs (list_to_set required) start →
     LevelFactory.from_definition fuel defn
     = Some (Raise (LevelValidationError "Level is not solvable"))).
Proof.
  intros Hwf. pose proof (validate_well_formed _ _ _ _ Hwf) as Hval.
  destruct Hwf as [[i Hid] [n Hname] (d & Hdiff & Hd) Hstart Hrooms Hrules _ Hsr Hexits
                   (coords & Hcoords & _) _ Hitems].
  destruct (build_rooms_spec room_defs Hitems) as (rooms & Hbuild & Hkeys & Hmir).
  set (m := MapGraph.mk rooms coords).
  set (req := list_to_set required : gset string).
  exists (solver_fuel m req). intros fuel Hfuel.
  assert (Hmrooms : MapGraph.rooms m = rooms) by done.
  assert (Hse : start ∈ dict_keys (MapGraph.rooms m)) by by rewrite Hmrooms, Hkeys.
  assert (Hclosed : ∀ room r dir t, dict_get (MapGraph.rooms m) room = Some r →
                      (dir, t) ∈ Room.exits r → t ∈ dict_keys (MapGraph.rooms m)).
  { intros room r dir t Hr Ht. rewrite Hmrooms, Hkeys.
    destruct (mirrored_Some_r room_defs m Hmir room r Hr) as (rd & Hrd & Hex & _).
    apply dict_get_Some_elem in Hrd.
    pose proof (proj1 (Forall_forall _ _) Hexits _ Hrd) as Hall. cbn in Hall.
    rewrite Hex in Ht. apply (proj1 (Forall_forall _ _) Hall _ Ht). }
  destruct (compute_optimal_moves_correct m req start Hse Hclosed fuel Hfuel)
    as (r & Hr & Hpost).
  assert (Hfrom : LevelFactory.from_definition fuel defn =
    match r with
    | Ok optimal_moves =>
        Some (let* difficulty := Difficulty.of_value d in
              Ok (Level.mk i n difficulty start m (StandardRules.mk req)
                    (Difficulty.visibility_policy difficulty)
                    (Difficulty.scoring_strategy difficulty)
                    (Some (Z.of_nat optimal_moves))))
    | Raise e => Some (Raise e)
    end).
  { unfold LevelFactory.from_definition.
    rewrite Hval, Hrooms, Hcoords, Hrules, Hstart, Hdiff, Hid, Hname. cbn.
    rewrite Hbuild. cbn. fold m req. rewrite Hr. by destruct r. }
  rewrite Hfrom. split.
  - intros Hsolv. destruct r as [k|e].
    + assert (Hdv : ∃ dv, Difficulty.of_value d = Ok dv).
      { apply elem_of_cons in Hd as [->|Hd]; [by eexists|].
        apply elem_of_cons in Hd as [->|Hd]; [by eexists|].
        apply list_elem_of_singleton in Hd as ->. by eexists. }
      destruct Hdv as (dv & ->). cbn. eexists _, k. split; [done|]. split; [done|].
      by apply (post_optimal room_defs m req start Hmir).
    + destruct (post_unsolvable room_defs m req start Hmir e Hpost) as [_ Hno]. done.
  - intros Hno. destruct r as [k|e].
    + destruct (post_optimal room_defs m req start Hmir k Hpost) as [(p & Hp & _) _].
      destruct Hno. by exists p.
    + by destruct (post_unsolvable room_defs m req start Hmir e Hpost) as [-> _].
Qed.

Lemma from_definition_optimal_moves_witness :
  ∃ fuel0, ∀ fuel, fuel0 ≤ fuel →
    (Solvability.solvable
       [ ("A", mk_room [("east", "B")] (relic "Relic1"));
         ("B", mk_room [] (Some (mk_item (Some "villain") (Some "Villain")))) ]
       (list_to_set [ "Relic1" ]) "A" →
     ∃ level n,
       LevelFactory.from_definition fuel level_relic_at_start = Some (Ok level) ∧
       Level.optimal_moves level = Some (Z.of_nat n) ∧
       Solvability.optimal
         [ ("A", mk_room [("east", "B")] (relic "Relic1"));
           ("B", mk_room [] (Some (mk_item (Some "villain") (Some "Villain")))) ]
         (list_to_set [ "Relic1" ]) "A" n) ∧
    (¬ Solvability.solvable
         [ ("A", mk_room [("east", "B")] (relic "Relic1"));
           ("B", mk_room [] (Some (mk_item (Some "villain") (Some "Villain")))) ]
         (list_to_set [ "Relic1" ]) "A" →
     LevelFactory.from_definition fuel level_relic_at_start
     = Some (Raise (LevelValidationError "Level is not solvable"))).
Proof.
  apply (from_definition_optimal_moves level_relic_at_start).
  split; try (by eexists); try reflexivity.
  all: try compute_done.
  - exists "hard". split; [reflexivity|]. compute_done.
  - eexists. split; [reflexivity|]. compute_done.
  - repeat constructor; by eexists.
Defined.

(** A relic in the start room counts as collected at distance 0. *)
Lemma level_relic_at_start_optimum (fuel : nat) :
  ∃ level, LevelFactory.from_definition (S (S fuel)) level_relic_at_start = Some (Ok level) ∧
           Level.optimal_moves level = Some 1%Z ∧
           Level.scoring level = ScoreStrategy.MaxMovesScore.
Proof. eexists. split; [vm_compute; reflexivity|]. by vm_compute. Qed.

(** A level whose villain cannot be reached is rejected. *)
Lemma level_unreachable_rejected (fuel : nat) :
  LevelFactory.from_definition (S (S fuel)) level_unreachable
  = Some (Raise (LevelValidationError "Level is not solvable")).
Proof. vm_compute. reflexivity. Qed.

(** The test suite's two-room level is built with one optimal move. *)
Lemma level_test_built (fuel : nat) :
  LevelFactory.from_definition (S (S fuel)) level_test = Some (Ok two_rooms_level).
Proof. reflexivity. Qed.

End SolverFacts.


(** * Validation and construction of levels *)

Module FactoryFacts.
Import LevelDefinition Validation SearchSpace SolverFacts.

Lemma head_filter_None_inv {A : Type} (P : A → Prop) `{∀ x, Decision (P x)} (l : list A) :
  head (filter P l) = None → Forall (λ x, ¬ P x) l.
Proof.
  induction l as [|x l IH]; [constructor|]. rewrite filter_cons.
  destruct (decide (P x)); [done|]. intros Hh. constructor; [done|by apply IH].
Qed.

Lemma dangling_exit_None (rooms : list (string * room_def)) :
  dangling_exit rooms = None ↔
  ∀ room data direction target,
    (room, data) ∈ rooms → (direction, target) ∈ exits data → target ∈ dict_keys rooms.
Proof.
  unfold dangling_exit. split.
  - intros Hh%head_filter_None_inv room data direction target Hroom Hexit.
    rewrite Forall_forall in Hh.
    specialize (Hh (room, target)). cbn in Hh.
    apply dict_has_spec. destruct (dict_has rooms target) eqn:E; [done|].
    exfalso. apply Hh; [|done].
    apply list_elem_of_In, in_flat_map. exists (room, data).
    split; [by apply list_elem_of_In|].
    apply list_elem_of_In, list_elem_of_fmap. by exists (direction, target).
  - intros Hall. apply head_filter_None, Forall_forall.
    intros [room target] Hin Hbad. cbn in Hbad.
    apply list_elem_of_In, in_flat_map in Hin as ([room' rd] & Hrd%list_elem_of_In & Hin).
    apply list_elem_of_In, list_elem_of_fmap in Hin as ([dir t] & [= -> ->] & Ht).
    apply (Hall _ _ _ _ Hrd), dict_has_spec in Ht. congruence.
Qed.

Lemma missing_coords_None (rooms : list (string * room_def)) (coords : list (string * (Z * Z))) :
  head (filter (λ room, dict_has coords room = false) (dict_keys rooms)) = None ↔
  ∀ room, room ∈ dict_keys rooms → room ∈ dict_keys coords.
Proof.
  split.
  - intros Hh%head_filter_None_inv room Hroom. rewrite Forall_forall in Hh.
    apply dict_has_spec. destruct (dict_has coords room) eqn:E; [done|].
    by destruct (Hh room Hroom).
  - intros Hall. apply head_filter_None, Forall_forall. intros room Hroom Hbad.
    apply Hall, dict_has_spec in Hroom. congruence.
Qed.

(** What the villain count returns tells about the items. *)
Lemma villains_inv (rooms : list room_def) :
  match villains rooms with
  | Ok vs => items_typed rooms ∧ vs = filter (λ r, is_villain_def r = true) rooms
  | Raise e => e = KeyError "type" ∧ ¬ items_typed rooms
  end.
Proof.
  induction rooms as [|r rooms IH]; [split; [constructor|done]|].
  cbn [villains]. unfold holds_villain_def.
  destruct (item r) as [i|] eqn:Hi.
  - destruct (type i) as [t|] eqn:Ht.
    + destruct (villains rooms) as [vs|e].
      * destruct IH as [Hall ->]. cbn [bind]. split.
        -- constructor; [|done]. intros i' Hi'. rewrite Hi in Hi'. injection Hi' as <-.
           by rewrite Ht.
        -- destruct (String.eqb t "villain") eqn:Hv.
           ++ rewrite filter_cons_True; [done|]. unfold is_villain_def. by rewrite Hi, Ht.
           ++ rewrite filter_cons_False; [done|]. unfold is_villain_def. rewrite Hi, Ht.
              congruence.
      * destruct IH as [-> Hno]. cbn [bind]. split; [done|]. intros Hall. apply Hno.
        by apply Forall_cons in Hall as [_ ?].
    + cbn [bind]. split; [done|]. intros Hall. apply Forall_cons in Hall as [Hr _].
      destruct (Hr i Hi) as [t Ht']. congruence.
  - destruct (villains rooms) as [vs|e].
    + destruct IH as [Hall ->]. cbn [bind]. split.
      * constructor; [|done]. intros i' Hi'. by rewrite Hi in Hi'.
      * rewrite filter_cons_False; [done|]. unfold is_villain_def. by rewrite Hi.
    + destruct IH as [-> Hno]. cbn [bind]. split; [done|]. intros Hall. apply Hno.
      by apply Forall_cons in Hall as [_ ?].
Qed.

(** The checks of [validate_level_definition] up to the villain count. *)
Lemma validate_checks (defn : LevelDefinition.t) :
  (∃ rooms, passes_checks defn rooms ∧
     validate_level_definition defn
     = (let* villains := villains rooms.*2 in
        if negb (length villains =? 1)%nat
        then Raise (LevelValidationError "Level must contain exactly one villain")
        else Ok tt)) ∨
  ((∀ rooms, ¬ passes_checks defn rooms) ∧
   ∃ msg, validate_level_definition defn = Raise (LevelValidationError msg)).
Proof.
  unfold validate_level_definition, passes_checks.
  destruct defn as [i n d s r c ru]. cbn.
  destruct i as [i|]; [|right; split; [by intros ? (?&?&[? ?]&_)|eauto]].
  destruct n as [n|]; [|right; split; [by intros ? (?&?&_&[? ?]&_)|eauto]].
  destruct d as [d|]; [|right; split; [by intros ? (?&?&_&_&[? ?]&_)|eauto]].
  destruct s as [s|]; [|right; split; [by intros ? (?&?&_&_&_&_&_&_&?&_)|eauto]].
  destruct r as [r|]; [|right; split; [by intros ? (?&?&_&_&_&_&?&_)|eauto]].
  destruct c as [c|]; [|right; split; [by intros ? (?&?&_&_&_&_&_&?&_)|eauto]].
  destruct ru as [ru|]; [|right; split; [by intros ? (?&?&_&_&_&[? ?]&_)|eauto]].
  destruct (dict_has r s) eqn:Hs; cbn [negb].
  2:{ right. split; [|eauto].
      intros ? (?&?&_&_&_&_&[= <-]&_&[= <-]&Hin%dict_has_spec&_). congruence. }
  apply dict_has_spec in Hs.
  destruct (dangling_exit r) as [[room target]|] eqn:Hd.
  { right. split; [|eauto].
    intros ? (?&?&_&_&_&_&[= <-]&_&_&_&Hex&_).
    apply dangling_exit_None in Hex. congruence. }
  pose proof (proj1 (dangling_exit_None r) Hd) as Hd'.
  destruct (head (filter _ (dict_keys r))) as [room|] eqn:Hc.
  { right. split; [|eauto].
    intros ? (?&?&_&_&_&_&[= <-]&[= <-]&_&_&_&Hco).
    apply missing_coords_None in Hco. congruence. }
  pose proof (proj1 (missing_coords_None r c) Hc) as Hc'.
  left. exists r. split; [|done]. exists c, s. by repeat split.
Qed.

Lemma passes_checks_rooms (defn : LevelDefinition.t) rooms rooms' :
  passes_checks defn rooms → passes_checks defn rooms' → rooms = rooms'.
Proof. intros (?&?&_&_&_&_&H&_) (?&?&_&_&_&_&H'&_). congruence. Qed.

(** A definition that [validate_level_definition] accepts is structurally
    valid. *)
Lemma validate_Ok_inv (defn : LevelDefinition.t) :
  validate_level_definition defn = Ok tt → structurally_valid defn.
Proof.
  destruct (validate_checks defn) as [(rooms & Hchecks & ->)|[_ [msg ->]]]; [|done].
  pose proof (villains_inv rooms.*2) as Hv.
  destruct (villains rooms.*2) as [vs|e]; cbn; [|done].
  destruct Hv as [Hall ->].
  destruct (Nat.eqb_spec (length (filter (λ r, is_villain_def r = true) rooms.*2)) 1)
    as [Hone|_]; [|done].
  intros _. by exists rooms.
Qed.

(** On a definition of the shape the embedding fixes (the rooms a dict of
    room dicts, an item a dict), [validate_level_definition] returns normally
    exactly on the structurally valid definitions; it raises
    [KeyError('type')] exactly when the checks before the villain count pass
    and some item has no type; and in every other case it raises
    [LevelValidationError]. *)
Theorem validate_level_definition_spec (defn : LevelDefinition.t) :
  (validate_level_definition defn = Ok tt ↔ structurally_valid defn) ∧
  (validate_level_definition defn = Raise (KeyError "type") ↔
   ∃ rooms, passes_checks defn rooms ∧ ¬ items_typed rooms.*2) ∧
  (validate_level_definition defn = Ok tt ∨
   validate_level_definition defn = Raise (KeyError "type") ∨
   ∃ msg, validate_level_definition defn = Raise (LevelValidationError msg)).
Proof.
  destruct (validate_checks defn) as [(rooms & Hchecks & ->)|[Hno [msg ->]]].
  - pose proof (villains_inv rooms.*2) as Hv.
    destruct (villains rooms.*2) as [vs|e]; cbn.
    + destruct Hv as [Hall ->].
      destruct (Nat.eqb_spec (length (filter (λ r, is_villain_def r = true) rooms.*2)) 1)
        as [Hone|Hone]; cbn [negb].
      * split; [|split; [|by left]].
        -- split; [intros _; by exists rooms|done].
        -- split; [done|]. intros (rooms' & Hchecks' & Hno).
           by rewrite (passes_checks_rooms _ _ _ Hchecks Hchecks') in Hall.
      * split; [|split; [|eauto]].
        -- split; [done|]. intros (rooms' & Hchecks' & _ & Hone').
           by rewrite (passes_checks_rooms _ _ _ Hchecks Hchecks') in Hone.
        -- split; [done|]. intros (rooms' & Hchecks' & Hno).
           by rewrite (passes_checks_rooms _ _ _ Hchecks Hchecks') in Hall.
    + destruct Hv as [-> Hno]. split; [|split; [|by right; left]].
      * split; [done|]. intros (rooms' & Hchecks' & Hall & _).
        by rewrite (passes_checks_rooms _ _ _ Hchecks Hchecks') in Hno.
      * split; [intros _; by exists rooms|done].
  - split; [|split; [|eauto]].
    + split; [done|]. intros (rooms & Hchecks & _). by destruct (Hno rooms).
    + split; [done|]. intros (rooms & Hchecks & _). by destruct (Hno rooms).
Qed.


(** An item without a type: the checks pass, the villain count raises
    [KeyError], and so does the factory. *)
Lemma level_untyped_item_rejected (fuel : nat) :
  validate_level_definition level_untyped_item = Raise (KeyError "type") ∧
  LevelFactory.from_definition fuel level_untyped_item = Some (Raise (KeyError "type")).
Proof. split; reflexivity. Qed.

(** ** What a returned level tells about its definition *)

Lemma build_room_inv (k : string) (rd : room_def) (r : Room.t) :
  LevelFactory.build_room k rd = Ok r → Room.name r = k ∧ built_from rd r.
Proof.
  unfold LevelFactory.build_room, built_from, LevelFactory.build_item.
  destruct (item rd) as [i|]; cbn.
  - destruct (type i) as [t|]; cbn; [|done].
    destruct (String.eqb_spec t "relic") as [->|_].
    + destruct (item_name i) as [n|]; cbn; [|done]. intros [= <-]. cbn. eauto 8.
    + destruct (String.eqb_spec t "villain") as [->|_]; [|done].
      destruct (item_name i) as [n|]; cbn; [|done]. intros [= <-]. cbn. eauto 8.
  - by intros [= <-].
Qed.

Lemma build_rooms_inv (room_defs : list (string * room_def)) (rooms : list (string * Room.t)) :
  LevelFactory.build_rooms room_defs = Ok rooms →
  Forall2 (λ d b, b.1 = d.1 ∧ Room.name b.2 = d.1 ∧ built_from d.2 b.2) room_defs rooms.
Proof.
  revert rooms. induction room_defs as [|[k rd] defs IH]; intros rooms; cbn.
  - intros [= <-]. constructor.
  - destruct (LevelFactory.build_room k rd) as [r|e] eqn:Hr; cbn; [|done].
    destruct (LevelFactory.build_rooms defs) as [rs|e]; cbn; [|done].
    intros [= <-]. constructor; [|by apply IH].
    by destruct (build_room_inv _ _ _ Hr).
Qed.

Lemma built_from_mirrors (rd : room_def) (r : Room.t) : built_from rd r → mirrors rd r.
Proof.
  unfold built_from, mirrors, is_villain, is_villain_def. intros [Hex Hit].
  split; [done|].
  destruct (item rd) as [i|], (Room.item r) as [it|]; try done.
  destruct Hit as (name & Hn & [[Hty ->]|[Hty ->]]); rewrite Hty; cbn; by rewrite Hn.
Qed.

Lemma built_keys (room_defs : list (string * room_def)) (rooms : list (string * Room.t)) :
  Forall2 (λ d b, b.1 = d.1 ∧ Room.name b.2 = d.1 ∧ built_from d.2 b.2) room_defs rooms →
  dict_keys rooms = dict_keys room_defs.
Proof.
  unfold dict_keys. induction 1 as [|[k rd] [k' r] ds bs (Hk & _) _ IH]; [done|].
  cbn in *. by rewrite Hk, IH.
Qed.

Lemma built_lookup (room_defs : list (string * room_def)) (rooms : list (string * Room.t)) :
  Forall2 (λ d b, b.1 = d.1 ∧ Room.name b.2 = d.1 ∧ built_from d.2 b.2) room_defs rooms →
  ∀ k, option_Forall2 (λ rd r, Room.name r = k ∧ built_from rd r)
         (dict_get room_defs k) (dict_get rooms k).
Proof.
  induction 1 as [|[k rd] [k' r] ds bs (Hk & Hn & Hb) _ IH]; intros q; cbn in *.
  - constructor.
  - subst k'. destruct (String.eqb_spec k q) as [->|_]; [by constructor|apply IH].
Qed.

Lemma built_elem (room_defs : list (string * room_def)) (rooms : list (string * Room.t)) :
  Forall2 (λ d b, b.1 = d.1 ∧ Room.name b.2 = d.1 ∧ built_from d.2 b.2) room_defs rooms →
  ∀ k r, (k, r) ∈ rooms →
         Room.name r = k ∧ ∃ rd, (k, rd) ∈ room_defs ∧ built_from rd r.
Proof.
  induction 1 as [|[k rd] [k' r] ds bs (Hk & Hn & Hb) _ IH]; intros q r' Hin; cbn in *.
  - by apply elem_of_nil in Hin.
  - subst k'. apply elem_of_cons in Hin as [[= -> ->]|Hin].
    + split; [done|]. exists rd. split; [left|done].
    + destruct (IH _ _ Hin) as (? & rd' & ? & ?). split; [done|]. exists rd'. split; [by right|done].
Qed.

Lemma built_villains (room_defs : list (string * room_def)) (rooms : list (string * Room.t)) :
  Forall2 (λ d b, b.1 = d.1 ∧ Room.name b.2 = d.1 ∧ built_from d.2 b.2) room_defs rooms →
  length (filter LevelInvariants.holds_Villain rooms.*2)
  = length (filter (λ r, is_villain_def r = true) room_defs.*2).
Proof.
  induction 1 as [|[k rd] [k' r] ds bs (_ & _ & Hex & Hit) _ IH]; [done|].
  cbn [fmap list_fmap snd]. rewrite !filter_cons. cbn in *.
  assert (Hiff : LevelInvariants.holds_Villain r ↔ is_villain_def rd = true).
  { unfold LevelInvariants.holds_Villain, is_villain_def.
    destruct (item rd) as [i|], (Room.item r) as [it|]; try done.
    - destruct Hit as (name & Hn & [[Hty ->]|[Hty ->]]); rewrite Hty; cbn.
      + split; [by intros [? ?]|done].
      + split; [done|by eexists].
    - split; [by intros [? ?]|done]. }
  destruct (decide (LevelInvariants.holds_Villain r)) as [Hv|Hv],
           (decide (is_villain_def rd = true)) as [Hd|Hd]; cbn; try tauto; by rewrite IH.
Qed.

(** More iterations never change what the search returned. *)
Lemma bfs_loop_fuel (m : MapGraph.t) (required : gset string) (fuel fuel' : nat)
    visited queue (r : result nat) :
  bfs_loop m required fuel visited queue = Some r → fuel ≤ fuel' →
  bfs_loop m required fuel' visited queue = Some r.
Proof.
  revert fuel' visited queue.
  induction fuel as [|fuel IH]; intros fuel' visited queue.
  - destruct queue as [|[[room items] dist] queue]; cbn; [|done].
    intros <- _. by destruct fuel'.
  - destruct queue as [|[[room items] dist] queue]; cbn.
    + intros <- _. by destruct fuel'.
    + intros Hrun Hle. destruct fuel' as [|fuel']; [lia|]. cbn.
      destruct (decide ((room, items) ∈ visited)); [apply IH; [done|lia]|].
      destruct (dict_get (MapGraph.rooms m) room) as [rm|]; [|done].
      destruct (is_villain (Room.item rm)).
      * destruct (decide (required ⊆ pick_up required (Room.item rm) items)); [done|].
        apply IH; [done|lia].
      * apply IH; [done|lia].
Qed.

(** The parts of a definition that [from_definition] turned into a level. *)
Lemma from_definition_inv (fuel : nat) (defn : LevelDefinition.t) (level : Level.t) :
  LevelFactory.from_definition fuel defn = Some (Ok level) →
  ∃ i name dtext d start room_defs coords required rooms n,
    defn = LevelDefinition.mk (Some i) (Some name) (Some dtext) (Some start)
             (Some room_defs) (Some coords) (Some (mk_rules (Some required))) ∧
    validate_level_definition defn = Ok tt ∧
    LevelFactory.build_rooms room_defs = Ok rooms ∧
    Difficulty.of_value dtext = Ok d ∧
    compute_optimal_moves (MapGraph.mk rooms coords) (list_to_set required) fuel start
      = Some (Ok n) ∧
    level = Level.mk i name d start (MapGraph.mk rooms coords)
              (StandardRules.mk (list_to_set required))
              (Difficulty.visibility_policy d) (Difficulty.scoring_strategy d)
              (Some (Z.of_nat n)).
Proof.
  unfold LevelFactory.from_definition.
  destruct (validate_level_definition defn) as [[]|e] eqn:Hval; [|done].
  pose proof (validate_Ok_inv defn Hval)
    as (room_defs & (coords & start & [i Hi] & [name Hn] & [dtext Hd] & [ru Hru]
                     & Hrooms & Hcoords & Hstart & _) & _).
  destruct defn as [di dn dd ds dr dc dru]. cbn in *. subst. cbn.
  destruct (LevelFactory.build_rooms room_defs) as [rooms|e] eqn:Hbuild; cbn; [|done].
  destruct ru as [[required|]]; cbn; [|done].
  destruct (compute_optimal_moves _ _ fuel start) as [[n|e]|] eqn:Hn; [|done|done].
  destruct (Difficulty.of_value dtext) as [d|e] eqn:Hd; cbn; [|done].
  intros [= <-]. by exists i, name, dtext, d, start, room_defs, coords, required, rooms, n.
Qed.

Lemma of_value_value_inv (dtext : string) (d : Difficulty.t) :
  Difficulty.of_value dtext = Ok d → Difficulty.value d = dtext.
Proof.
  unfold Difficulty.of_value.
  destruct (String.eqb_spec dtext "easy") as [->|_]; [by intros [= <-]|].
  destruct (String.eqb_spec dtext "medium") as [->|_]; [by intros [= <-]|].
  destruct (String.eqb_spec dtext "hard") as [->|_]; [by intros [= <-]|done].
Qed.

Lemma built_level_invariants i name d start room_defs coords required rooms n :
  validate_level_definition
    (LevelDefinition.mk (Some i) (Some name) (Some (Difficulty.value d)) (Some start)
       (Some room_defs) (Some coords) (Some (mk_rules (Some required)))) = Ok tt →
  LevelFactory.build_rooms room_defs = Ok rooms →
  LevelInvariants.t
    (Level.mk i name d start (MapGraph.mk rooms coords)
       (StandardRules.mk (list_to_set required))
       (Difficulty.visibility_policy d) (Difficulty.scoring_strategy d)
       (Some (Z.of_nat n))).
Proof.
  intros Hval Hbuild.
  apply validate_Ok_inv in Hval
    as (? & (? & ? & _ & _ & _ & _ & [= <-] & [= <-] & [= <-] & Hs & Hex & Hco) & _ & Hv).
  apply build_rooms_inv in Hbuild.
  pose proof (built_keys _ _ Hbuild) as Hkeys.
  constructor; cbn -[dict_keys].
  - intros room r Hin. by destruct (built_elem _ _ Hbuild _ _ Hin).
  - by rewrite Hkeys.
  - intros room r direction target Hin Hexit. rewrite Hkeys.
    destruct (built_elem _ _ Hbuild _ _ Hin) as (_ & rd & Hrd & Hex' & _).
    rewrite Hex' in Hexit. by apply (Hex _ _ _ _ Hrd Hexit).
  - intros room. rewrite Hkeys. apply Hco.
  - intros room r it Hin Hit.
    destruct (built_elem _ _ Hbuild _ _ Hin) as (_ & rd & _ & _ & Hitem).
    rewrite Hit in Hitem. destruct (item rd); [|done].
    destruct Hitem as (nm & _ & [[_ ->]|[_ ->]]); eauto.
  - by rewrite (built_villains _ _ Hbuild).
  - done.
  - by exists n.
Qed.

(** The search that built a level found its optimum: the distance returned
    is the least length of a winning walk. *)
Lemma built_level_post (fuel : nat) (defn : LevelDefinition.t) (level : Level.t) :
  LevelFactory.from_definition fuel defn = Some (Ok level) →
  LevelInvariants.t level ∧
  ∃ n, Level.optimal_moves level = Some (Z.of_nat n) ∧
       post (Level.map level) (StandardRules.required_items (Level.rules level))
         (Level.start_room level) (Ok n).
Proof.
  intros (i & name & dtext & d & start & room_defs & coords & required & rooms & n
          & -> & Hval & Hbuild & Hd & Hn & ->)%from_definition_inv.
  apply of_value_value_inv in Hd as <-.
  pose proof (built_level_invariants i name d start room_defs coords required rooms n
                Hval Hbuild) as Hinv.
  split; [done|]. exists n. split; [done|]. cbn.
  set (m := MapGraph.mk rooms coords). set (req := list_to_set required : gset string).
  destruct (compute_optimal_moves_correct m req start) with (fuel := max fuel (solver_fuel m req))
    as (r & Hr & Hpost).
  - apply (LevelInvariants.start_exists _ Hinv).
  - intros room r dir t Hr Ht.
    apply (LevelInvariants.exits_closed _ Hinv room r dir t); [|done].
    by apply dict_get_Some_elem.
  - lia.
  - unfold compute_optimal_moves in *.
    rewrite (bfs_loop_fuel m req fuel _ _ _ _ Hn) in Hr by lia.
    by injection Hr as <-.
Qed.

(** A level that [from_definition] returns satisfies the invariants its
    classes document: rooms carry their own name, the start room and every
    exit target exist, every room has a coordinate, every item is a relic or
    a villain and exactly one room holds a villain, the visibility policy and
    the scoring strategy are those of the difficulty, and the optimum is a
    number of moves.  The identifier, the name, the start room, the room
    names, the coordinates and the required items are the definition's. *)
Theorem from_definition_invariants (fuel : nat) (defn : LevelDefinition.t) (level : Level.t) :
  LevelFactory.from_definition fuel defn = Some (Ok level) →
  LevelInvariants.t level ∧
  LevelDefinition.id defn = Some (Level.id level) ∧
  LevelDefinition.name defn = Some (Level.name level) ∧
  LevelDefinition.start_room defn = Some (Level.start_room level) ∧
  LevelDefinition.difficulty defn = Some (Difficulty.value (Level.difficulty level)) ∧
  (dict_keys <$> LevelDefinition.rooms defn)
    = Some (dict_keys (MapGraph.rooms (Level.map level))) ∧
  LevelDefinition.coords defn = Some (MapGraph.coords (Level.map level)) ∧
  (∃ required,
     (LevelDefinition.rules defn ≫= LevelDefinition.required_items) = Some required ∧
     StandardRules.required_items (Level.rules level) = list_to_set required).
Proof.
  intros (i & name & dtext & d & start & room_defs & coords & required & rooms & n
          & -> & Hval & Hbuild & Hd & Hn & ->)%from_definition_inv.
  apply of_value_value_inv in Hd as <-.
  split; [by apply (built_level_invariants _ _ _ _ room_defs)|].
  apply build_rooms_inv, built_keys in Hbuild.
  cbn -[dict_keys]. rewrite Hbuild. repeat split; try done. by exists required.
Qed.

Lemma from_definition_invariants_witness :
  LevelInvariants.t two_rooms_level ∧
  LevelDefinition.id level_test = Some (Level.id two_rooms_level) ∧
  LevelDefinition.name level_test = Some (Level.name two_rooms_level) ∧
  LevelDefinition.start_room level_test = Some (Level.start_room two_rooms_level) ∧
  LevelDefinition.difficulty level_test
    = Some (Difficulty.value (Level.difficulty two_rooms_level)) ∧
  (dict_keys <$> LevelDefinition.rooms level_test)
    = Some (dict_keys (MapGraph.rooms (Level.map two_rooms_level))) ∧
  LevelDefinition.coords level_test = Some (MapGraph.coords (Level.map two_rooms_level)) ∧
  (∃ required,
     (LevelDefinition.rules level_test ≫= LevelDefinition.required_items) = Some required ∧
     StandardRules.required_items (Level.rules two_rooms_level) = list_to_set required).
Proof. apply (from_definition_invariants 2 level_test). reflexivity. Defined.

End FactoryFacts.


(** * Sessions *)

Module SessionFacts.
Import Validation SearchSpace SolverFacts FactoryFacts SerializationSpec ControllerSpec.

Section session.
Context {datetime : Type}.
Context (isoformat : datetime → string) (fromisoformat : string → result datetime).
Context (clock : nat → datetime) (levels_get : string → option Level.t).
Context (user_email level_id : string).

Implicit Types (state : GameState.t datetime) (level : Level.t).
Implicit Types (w : GameController.world (datetime := datetime)).

Local Abbreviation move := (GameController.move clock levels_get user_email level_id).
Local Abbreviation start_new_run :=
  (GameController.start_new_run clock levels_get user_email level_id).
Local Abbreviation run := (Session.run isoformat fromisoformat clock levels_get user_email level_id).
Local Abbreviation bumped := Session.bumped.
Local Abbreviation arrived := Session.arrived.
Local Abbreviation final_result := (Session.final_result user_email level_id).

(** ** The controller's operations, step by step *)

Lemma autosave_eq state w :
  GameController._autosave clock user_email level_id state w
  = Ok (GameState.set_updated_at (clock (GameController.ticks w)) state,
        GameController.mk_world (S (S (S (GameController.ticks w))))
          (GameController.calls w ++
           [GameController.upsert_active
              (GameSave.mk user_email level_id
                 (GameState.set_updated_at (clock (GameController.ticks w)) state)
                 (clock (S (GameController.ticks w)))
                 (clock (S (S (GameController.ticks w)))))])).
Proof. reflexivity. Qed.

Lemma persist_eq state w :
  GameController._persist_or_finalize clock levels_get user_email level_id state w
  = if GameStatus.is_terminal (GameState.status state) then
      match levels_get level_id with
      | None => Raise (ValueError ("Unknown level_id: " +:+ level_id))
      | Some level =>
          let state' := GameState.set_updated_at (clock (GameController.ticks w)) state in
          match ScoreStrategy_calculate (Level.scoring level) state' level with
          | Raise e => Raise e
          | Ok score =>
              Ok (state',
                  GameController.mk_world (S (S (GameController.ticks w)))
                    (GameController.calls w ++
                     [GameController.history_add
                        (final_result level state' score (clock (S (GameController.ticks w))));
                      GameController.delete_active user_email]))
          end
      end
    else GameController._autosave clock user_email level_id state w.
Proof.
  unfold GameController._persist_or_finalize.
  destruct (GameStatus.is_terminal (GameState.status state)); cbn [negb]; [|done].
  unfold GameController.mbind, GameController._require_level, GameController.lift,
    GameController.now, GameController.emit, GameController.ret. cbn.
  destruct (levels_get level_id) as [level|]; cbn; [|done].
  destruct (ScoreStrategy_calculate _ _ _); cbn; [|done].
  by rewrite <- app_assoc.
Qed.

Lemma move_eq state direction w :
  move state direction w
  = if GameStatus.is_terminal (GameState.status state) then
      Ok (GameState.set_message (Some "Game already ended.") state, w)
    else
      match levels_get level_id with
      | None => Raise (ValueError ("Unknown level_id: " +:+ level_id))
      | Some level =>
          match dict_get (MapGraph.rooms (Level.map level))
                         (Player.location (GameState.player state)) with
          | None => Raise (KeyError (Player.location (GameState.player state)))
          | Some room =>
              match dict_get (Room.exits room) direction with
              | None => GameController._autosave clock user_email level_id (bumped state) w
              | Some next_room =>
                  match dict_get (MapGraph.rooms (Level.map level)) next_room with
                  | None => Raise (KeyError next_room)
                  | Some entered_room =>
                      GameController._persist_or_finalize clock levels_get user_email level_id
                        (arrived level direction next_room entered_room state) w
                  end
              end
          end
      end.
Proof.
  unfold GameController.move.
  destruct (GameStatus.is_terminal (GameState.status state)); [done|].
  unfold GameController.mbind at 1, GameController._require_level.
  destruct (levels_get level_id) as [level|]; [|done].
  cbn [GameController.ret].
  unfold GameController.mbind at 1, GameController.lift, dict_item.
  destruct (dict_get _ _) as [room|]; [|done].
  destruct (dict_get (Room.exits room) direction) as [next_room|]; [|done].
  unfold GameController.mbind at 1.
  destruct (dict_get _ next_room) as [entered_room|]; [|done].
  done.
Qed.


Lemma persist_inv state w state' w' :
  GameController._persist_or_finalize clock levels_get user_email level_id state w
    = Ok (state', w') →
  state' = GameState.set_updated_at (clock (GameController.ticks w)) state.
Proof.
  rewrite persist_eq. destruct (GameStatus.is_terminal _).
  - destruct (levels_get level_id); [|done]. cbn.
    destruct (ScoreStrategy_calculate _ _ _); [|done]. by intros [= <- _].
  - rewrite autosave_eq. by intros [= <- _].
Qed.

(** A move on a game in progress, when it returns: the level and the
    player's room were found, and the state returned is the bumped or the
    arrived state, stamped with the clock. *)
Lemma move_in_progress_inv state direction w state' w' :
  GameState.status state = GameStatus.IN_PROGRESS →
  move state direction w = Ok (state', w') →
  ∃ level room,
    levels_get level_id = Some level ∧
    dict_get (MapGraph.rooms (Level.map level)) (Player.location (GameState.player state))
      = Some room ∧
    ((dict_get (Room.exits room) direction = None ∧
      state' = GameState.set_updated_at (clock (GameController.ticks w)) (bumped state)) ∨
     (∃ next_room entered_room,
        dict_get (Room.exits room) direction = Some next_room ∧
        dict_get (MapGraph.rooms (Level.map level)) next_room = Some entered_room ∧
        state' = GameState.set_updated_at (clock (GameController.ticks w))
                   (arrived level direction next_room entered_room state))).
Proof.
  intros Hst. rewrite move_eq, Hst. cbn.
  destruct (levels_get level_id) as [level|]; [|done].
  destruct (dict_get _ _) as [room|] eqn:Hroom; [|done].
  intros Hmove. exists level, room. split; [done|]. split; [done|].
  destruct (dict_get (Room.exits room) direction) as [next_room|].
  - right. destruct (dict_get _ next_room) as [entered_room|] eqn:He; [|done].
    exists next_room, entered_room. split; [done|]. split; [done|].
    by apply persist_inv in Hmove.
  - left. split; [done|]. by injection Hmove as <- _.
Qed.

Lemma move_terminal_inv state direction w state' w' :
  GameState.status state ≠ GameStatus.IN_PROGRESS →
  move state direction w = Ok (state', w') →
  state' = GameState.set_message (Some "Game already ended.") state ∧ w' = w.
Proof.
  intros Hst. rewrite move_eq.
  destruct (GameState.status state); [done|..]; cbn; by intros [= <- <-].
Qed.

Lemma arrived_fields level direction next_room entered_room state :
  let state' := arrived level direction next_room entered_room state in
  GameState.level_id state' = GameState.level_id state ∧
  GameState.started_at state' = GameState.started_at state ∧
  GameState.updated_at state' = GameState.updated_at state ∧
  GameState.player state' = Player.mk next_room ∧
  GameState.move_count state' = (GameState.move_count state + 1)%Z ∧
  GameState.visited_rooms state' = {[ next_room ]} ∪ GameState.visited_rooms state ∧
  GameState.collected_items state'
    = GameState.collected_items state ∪ relic_of entered_room ∧
  (∃ events, GameState.event_log state'
             = GameState.event_log state
               ++ ("Moved " +:+ direction +:+ " to " +:+ next_room) :: events) ∧
  GameState.encountered_villain state'
    = GameState.encountered_villain state
      || from_option Item.is_Villain false (Room.item entered_room) ∧
  GameState.status state'
    = match Room.item entered_room with
      | Some (Item.Villain _) =>
          if decide (StandardRules.required_items (Level.rules level)
                       ⊆ GameState.collected_items state)
          then GameStatus.COMPLETED else GameStatus.GAME_OVER
      | _ => GameState.status state
      end.
Proof.
  clear isoformat fromisoformat clock levels_get user_email level_id.
  unfold Session.arrived, StandardRules.check, relic_of.
  destruct (Room.item entered_room) as [[n k|n|n]|]; cbn.
  - repeat split; try done; [set_solver|by exists []|by rewrite orb_false_r].
  - destruct (decide (n ∈ GameState.collected_items state)); cbn.
    + repeat split; try done; [set_solver|by exists []|by rewrite orb_false_r].
    + repeat split; try done; [set_solver| |by rewrite orb_false_r].
      exists ["Collected " +:+ n]. by rewrite <- app_assoc.
  - destruct (GameState.encountered_villain state) eqn:Hv; cbn;
      destruct (decide (_ ⊆ _)); cbn;
      repeat split; try done; try set_solver; try (by exists []).
    all: exists ["Encountered the villain"]; by rewrite <- app_assoc.
  - repeat split; try done; [set_solver|by exists []|by rewrite orb_false_r].
Qed.


Lemma bumped_fields state :
  GameState.level_id (bumped state) = GameState.level_id state ∧
  GameState.started_at (bumped state) = GameState.started_at state ∧
  GameState.player (bumped state) = GameState.player state ∧
  GameState.move_count (bumped state) = (GameState.move_count state + 1)%Z ∧
  GameState.visited_rooms (bumped state) = GameState.visited_rooms state ∧
  GameState.collected_items (bumped state) = GameState.collected_items state ∧
  GameState.event_log (bumped state) = GameState.event_log state ++ ["Bumped into a wall"] ∧
  GameState.encountered_villain (bumped state) = GameState.encountered_villain state ∧
  GameState.status (bumped state) = GameState.status state.
Proof. done. Qed.

(** ** What a move keeps *)

(** Whatever a move does, it keeps the level identifier and the start
    time; it adds exactly one to the move count of a game in progress and
    nothing to that of a finished game; the event log, the visited rooms
    and the collected items only grow; the villain flag is never cleared;
    and a terminal status stays. *)
Theorem move_only_extends state direction w state' w' :
  move state direction w = Ok (state', w') →
  GameState.level_id state' = GameState.level_id state ∧
  GameState.started_at state' = GameState.started_at state ∧
  GameState.move_count state'
    = (if GameStatus.is_terminal (GameState.status state)
       then GameState.move_count state
       else GameState.move_count state + 1)%Z ∧
  GameState.event_log state `prefix_of` GameState.event_log state' ∧
  GameState.visited_rooms state ⊆ GameState.visited_rooms state' ∧
  GameState.collected_items state ⊆ GameState.collected_items state' ∧
  (GameState.encountered_villain state = true →
   GameState.encountered_villain state' = true) ∧
  (GameStatus.is_terminal (GameState.status state) = true →
   GameState.status state' = GameState.status state).
Proof.
  clear isoformat fromisoformat.
  intros Hmove.
  destruct (decide (GameState.status state = GameStatus.IN_PROGRESS)) as [Hst|Hst].
  - destruct (move_in_progress_inv _ _ _ _ _ Hst Hmove)
      as (level & room & _ & _ & [[_ ->]|(next & entered & _ & _ & ->)]);
      rewrite Hst; cbn [GameStatus.is_terminal].
    + cbn. repeat split; try done. by apply prefix_app_r.
    + destruct (arrived_fields level direction next entered state)
        as (Hl & Hs & _ & _ & Hm & Hv & Hc & (events & He) & Henc & _).
      cbn. rewrite Hl, Hs, Hm, Hv, Hc, He, Henc.
      split; [done|]. split; [done|]. split; [done|].
      split; [by apply prefix_app_r|].
      split; [apply union_subseteq_r|]. split; [apply union_subseteq_l|].
      split; [by intros ->|done].
  - destruct (move_terminal_inv _ _ _ _ _ Hst Hmove) as [-> ->].
    assert (Ht : GameStatus.is_terminal (GameState.status state) = true)
      by by destruct (GameState.status state).
    rewrite Ht. cbn. repeat split; done.
Qed.

(** ** What a move writes *)

Lemma move_calls state direction w state' w' :
  GameState.status state = GameStatus.IN_PROGRESS →
  move state direction w = Ok (state', w') →
  GameState.updated_at state' = clock (GameController.ticks w) ∧
  ((GameStatus.is_terminal (GameState.status state') = true ∧
    ∃ level score,
      levels_get level_id = Some level ∧
      ScoreStrategy_calculate (Level.scoring level) state' level = Ok score ∧
      GameController.calls w'
      = GameController.calls w ++
        [GameController.history_add
           (final_result level state' score (clock (S (GameController.ticks w))));
         GameController.delete_active user_email]) ∨
   (GameStatus.is_terminal (GameState.status state') = false ∧
    ∃ created_at updated_at,
      GameController.calls w'
      = GameController.calls w ++
        [GameController.upsert_active
           (GameSave.mk user_email level_id state' created_at updated_at)])).
Proof.
  intros Hst. rewrite move_eq, Hst. cbn [GameStatus.is_terminal].
  destruct (levels_get level_id) as [level|] eqn:Hlevel; [|done].
  destruct (dict_get _ _) as [room|]; [|done].
  destruct (dict_get (Room.exits room) direction) as [next_room|].
  - destruct (dict_get _ next_room) as [entered_room|]; [|done].
    rewrite persist_eq, Hlevel.
    set (s := arrived level direction next_room entered_room state).
    destruct (GameStatus.is_terminal (GameState.status s)) eqn:Ht.
    + cbn. destruct (ScoreStrategy_calculate _ _ _) as [score|] eqn:Hscore; [|done].
      intros [= <- <-]. split; [done|]. left. split; [done|]. by exists level, score.
    + rewrite autosave_eq. intros [= <- <-]. split; [done|]. right. split; [done|]. eauto.
  - rewrite autosave_eq. intros [= <- <-]. split; [done|]. right.
    split; [cbn; by rewrite Hst|]. eauto.
Qed.

(** A move on a game in progress stamps the state with the clock.  If the
    game is still in progress afterwards, the state is saved as the user's
    active save and nothing else is written; if the move ended the game,
    the score of the final state under the level's strategy is recorded in
    the history, then the active save is deleted. *)
Theorem move_persists state direction w state' w' :
  GameState.status state = GameStatus.IN_PROGRESS →
  move state direction w = Ok (state', w') →
  GameState.updated_at state' = clock (GameController.ticks w) ∧
  if GameStatus.is_terminal (GameState.status state') then
    ∃ level score,
      levels_get level_id = Some level ∧
      ScoreStrategy_calculate (Level.scoring level) state' level = Ok score ∧
      GameController.calls w'
      = GameController.calls w ++
        [GameController.history_add
           (final_result level state' score (clock (S (GameController.ticks w))));
         GameController.delete_active user_email]
  else
    ∃ created_at updated_at,
      GameController.calls w'
      = GameController.calls w ++
        [GameController.upsert_active
           (GameSave.mk user_email level_id state' created_at updated_at)].
Proof.
  intros Hst Hmove.
  destruct (move_calls _ _ _ _ _ Hst Hmove) as [Hup [[Ht Hfinal]|[Ht Hsave]]];
    rewrite Ht; by split.
Qed.

(** ** Runs *)

Lemma start_new_run_inv w0 state w :
  start_new_run w0 = Ok (state, w) →
  ∃ level,
    levels_get level_id = Some level ∧
    state = GameState.set_updated_at (clock (S (S (GameController.ticks w0))))
              (GameState.log ("Started level " +:+ Level.name level)
                 (GameState.set_message (Some ("Started " +:+ Level.name level))
                    (GameState.start level_id (Level.start_room level)
                       (clock (GameController.ticks w0))
                       (clock (S (GameController.ticks w0)))))) ∧
    ∃ created_at updated_at,
      GameController.calls w
      = GameController.calls w0 ++
        [GameController.upsert_active
           (GameSave.mk user_email level_id state created_at updated_at)].
Proof.
  unfold GameController.start_new_run, GameController.mbind at 1,
    GameController._require_level.
  destruct (levels_get level_id) as [level|]; [|done]. cbn.
  intros [= <- <-]. exists level. split; [done|]. split; [done|]. cbn. eauto.
Qed.

(** Reading a state back from its serialised form keeps everything but
    the two timestamps, which go through the ISO-8601 codec, and the
    visited rooms, to which the location is added. *)
Lemma restore_inv state state' :
  Serialization.gamestate_from_dict fromisoformat
    (Serialization.gamestate_to_dict isoformat state) = Ok state' →
  GameState.level_id state' = GameState.level_id state ∧
  GameState.player state' = GameState.player state ∧
  GameState.visited_rooms state'
    = {[ Player.location (GameState.player state) ]} ∪ GameState.visited_rooms state ∧
  GameState.collected_items state' = GameState.collected_items state ∧
  GameState.move_count state' = GameState.move_count state ∧
  GameState.status state' = GameState.status state ∧
  GameState.message state' = GameState.message state ∧
  GameState.event_log state' = GameState.event_log state ∧
  GameState.encountered_villain state' = GameState.encountered_villain state.
Proof.
  destruct state as [lid [loc] visited collected mc st msg log started updated villain].
  unfold Serialization.gamestate_from_dict, Serialization.gamestate_to_dict. cbn.
  rewrite !as_strs_fmap. cbn. rewrite of_value_value. cbn.
  assert (Hmsg : Serialization.as_opt_str
                   (match msg with Some m => PStr m | None => PNone end) = Ok msg)
    by by destruct msg.
  rewrite Hmsg. cbn.
  destruct (fromisoformat (isoformat started)); cbn; [|done].
  destruct (fromisoformat (isoformat updated)); cbn; [|done].
  intros [= <-]. cbn. by rewrite !list_to_set_elements_L.
Qed.

(** The score and the history record read the status, the counters, the
    location and the collection only. *)
Lemma calculate_ext (strategy : ScoreStrategy.t) level state state' :
  GameState.collected_items state' = GameState.collected_items state →
  GameState.move_count state' = GameState.move_count state →
  GameState.status state' = GameState.status state →
  ScoreStrategy_calculate strategy state' level = ScoreStrategy_calculate strategy state level.
Proof.
  intros Hc Hm Hs.
  assert (Hstd : StandardScore.calculate state' level = StandardScore.calculate state level).
  { unfold StandardScore.calculate, StandardScore.progress_score, StandardScore.progress,
      StandardScore.collected, StandardScore.efficiency_score, StandardScore.efficiency.
    by rewrite Hc, Hm, Hs. }
  destruct strategy; cbn; [done|].
  unfold MaxMovesScore.calculate. by rewrite Hstd, Hm, Hs.
Qed.

Lemma final_result_ext level state state' (score : Z) (finished_at : datetime) :
  GameState.collected_items state' = GameState.collected_items state →
  GameState.move_count state' = GameState.move_count state →
  GameState.status state' = GameState.status state →
  GameState.player state' = GameState.player state →
  GameState.encountered_villain state' = GameState.encountered_villain state →
  final_result level state' score finished_at = final_result level state score finished_at.
Proof. unfold Session.final_result. by intros -> -> -> -> ->. Qed.

Lemma run_calls w0 state w :
  run w0 state w →
  ∃ save saves,
    Forall (λ save, GameSave.user_email save = user_email ∧
                    GameSave.level_id save = level_id) (save :: saves) ∧
    if GameStatus.is_terminal (GameState.status state) then
      ∃ level score finished_at,
        levels_get level_id = Some level ∧
        ScoreStrategy_calculate (Level.scoring level) state level = Ok score ∧
        GameController.calls w
        = GameController.calls w0 ++ (GameController.upsert_active <$> save :: saves) ++
          [GameController.history_add (final_result level state score finished_at);
           GameController.delete_active user_email]
    else
      GameController.calls w
      = GameController.calls w0 ++ (GameController.upsert_active <$> save :: saves).
Proof.
  induction 1 as [state w Hstart
                 |state w direction state' w' _ (save & saves & Hall & IH) Hmove
                 |state w state' _ (save & saves & Hall & IH) Hrestore].
  - apply start_new_run_inv in Hstart as (level & _ & -> & created & updated & Hcalls).
    eexists _, []. split; [|cbn; exact Hcalls]. by repeat constructor.
  - destruct (decide (GameState.status state = GameStatus.IN_PROGRESS)) as [Hst|Hst].
    + rewrite Hst in IH. cbn in IH.
      destruct (move_calls _ _ _ _ _ Hst Hmove)
        as [_ [[Ht (level & score & Hl & Hs & Hc)]|[Ht (created & updated & Hc)]]];
        rewrite Ht.
      * exists save, saves. split; [done|].
        exists level, score, (clock (S (GameController.ticks w))).
        split; [done|]. split; [done|]. by rewrite Hc, IH, <- app_assoc.
      * exists save, (saves ++ [GameSave.mk user_email level_id state' created updated]).
        split.
        { rewrite app_comm_cons. apply Forall_app. split; [done|]. by repeat constructor. }
        rewrite Hc, IH, <- app_assoc. f_equal.
        by rewrite app_comm_cons, fmap_app.
    + destruct (move_terminal_inv _ _ _ _ _ Hst Hmove) as [-> ->].
      exists save, saves. split; [done|]. cbn [GameState.status GameState.set_message].
      destruct (GameStatus.is_terminal (GameState.status state)); [|done].
      destruct IH as (level & score & finished & Hl & Hs & Hc).
      exists level, score, finished. split; [done|]. split; [|done].
      by rewrite <- Hs.
  - destruct (restore_inv _ _ Hrestore) as (_ & Hp & _ & Hc & Hm & Hs & _ & _ & He).
    exists save, saves. split; [done|]. rewrite Hs.
    destruct (GameStatus.is_terminal (GameState.status state)); [|done].
    destruct IH as (level & score & finished & Hl & Hscore & Hcalls).
    exists level, score, finished. split; [done|].
    split; [by rewrite (calculate_ext _ _ state state')|].
    by rewrite (final_result_ext _ state state').
Qed.

(** The repository traffic of a game: autosaves of this user on this
    level, at least one, followed, exactly when the game is over, by one
    history record and the deletion of the active save.  The record holds
    the final status, move count, item count and location, and the score of
    the state under the level's strategy. *)
Theorem run_trace w0 state w :
  run w0 state w →
  ∃ save saves,
    Forall (λ save, GameSave.user_email save = user_email ∧
                    GameSave.level_id save = level_id) (save :: saves) ∧
    if GameStatus.is_terminal (GameState.status state) then
      ∃ level score finished_at,
        levels_get level_id = Some level ∧
        ScoreStrategy_calculate (Level.scoring level) state level = Ok score ∧
        GameController.calls w
        = GameController.calls w0 ++ (GameController.upsert_active <$> save :: saves) ++
          [GameController.history_add (final_result level state score finished_at);
           GameController.delete_active user_email]
    else
      GameController.calls w
      = GameController.calls w0 ++ (GameController.upsert_active <$> save :: saves).
Proof.
  intros Hrun. destruct (run_calls w0 state w Hrun) as (save & saves & Hall & Hcalls).
  exists save, saves. split; [exact Hall|exact Hcalls].
Qed.


(** ** The state of a game on its level *)

Local Abbreviation consistent := (Session.consistent (datetime := datetime) level_id).

Lemma consistent_start level started updated msg events t :
  Level.start_room level ∈ dict_keys (MapGraph.rooms (Level.map level)) →
  consistent level
    (GameState.set_updated_at t
       (GameState.set_event_log events
          (GameState.set_message msg
             (GameState.start level_id (Level.start_room level) started updated)))).
Proof.
  intros Hstart. constructor; cbn; try done; try set_solver.
Qed.

Lemma consistent_arrived level direction next_room entered_room state t :
  consistent level state →
  GameState.status state = GameStatus.IN_PROGRESS →
  dict_get (MapGraph.rooms (Level.map level)) next_room = Some entered_room →
  consistent level
    (GameState.set_updated_at t (arrived level direction next_room entered_room state)).
Proof.
  intros [Hloc Hvis Hval Hcol Hmc Hlid Hmet Hplace Hout] Hst Hentered.
  destruct (arrived_fields level direction next_room entered_room state)
    as (Hl & _ & _ & Hp & Hm & Hv & Hc & _ & Henc & Hs).
  assert (Hnext : next_room ∈ dict_keys (MapGraph.rooms (Level.map level))).
  { apply dict_get_is_Some. by eexists. }
  assert (Hnomeet : GameState.encountered_villain state = false).
  { destruct (GameState.encountered_villain state); [|done]. by destruct (proj1 Hmet). }
  constructor; cbn; rewrite ?Hl, ?Hp, ?Hm, ?Hv, ?Hc, ?Henc, ?Hs; cbn; try done.
  - set_solver.
  - intros r [->%elem_of_singleton|?]%elem_of_union; [done|by apply Hval].
  - intros name [Hin|Hin]%elem_of_union.
    + destruct (Hcol _ Hin) as (r & rm & ? & ? & ?). exists r, rm. set_solver.
    + exists next_room, entered_room. unfold relic_of in Hin.
      destruct (Room.item entered_room) as [[| n |]|]; set_solver.
  - lia.
  - rewrite Hnomeet, Hst. cbn.
    destruct (Room.item entered_room) as [[| |]|]; cbn; try done.
    destruct (decide _); done.
  - rewrite Hst. intros Hterm. exists entered_room. split; [done|].
    unfold LevelInvariants.holds_Villain.
    destruct (Room.item entered_room) as [[| |n]|]; try done. by exists n.
  - rewrite Hst. unfold relic_of.
    destruct (Room.item entered_room) as [[| |]|]; try done.
    rewrite union_empty_r_L. by destruct (decide _).
Qed.

Lemma consistent_bumped level state t :
  consistent level state →
  consistent level (GameState.set_updated_at t (bumped state)).
Proof. intros [? ? ? ? ? ? ? ? ?]. constructor; cbn; try done. lia. Qed.

Lemma consistent_ext level state state' :
  consistent level state →
  GameState.level_id state' = GameState.level_id state →
  GameState.player state' = GameState.player state →
  GameState.visited_rooms state'
    = {[ Player.location (GameState.player state) ]} ∪ GameState.visited_rooms state ∨
  GameState.visited_rooms state' = GameState.visited_rooms state →
  GameState.collected_items state' = GameState.collected_items state →
  GameState.move_count state' = GameState.move_count state →
  GameState.status state' = GameState.status state →
  GameState.encountered_villain state' = GameState.encountered_villain state →
  consistent level state'.
Proof.
  intros [Hloc Hvis Hval Hcol Hmc Hlid Hmet Hplace Hout] Hl Hp Hv Hc Hm Hs He.
  constructor; rewrite ?Hl, ?Hp, ?Hc, ?Hm, ?Hs, ?He; try done.
  - destruct Hv as [-> | ->]; set_solver.
  - destruct Hv as [-> | ->]; [|done].
    intros r [->%elem_of_singleton|?]%elem_of_union; [done|by apply Hval].
  - intros name Hin. destruct (Hcol _ Hin) as (r & rm & ? & ? & ?). exists r, rm.
    destruct Hv as [-> | ->]; set_solver.
Qed.

Lemma run_consistent_aux level w0 state w :
  levels_get level_id = Some level →
  Level.start_room level ∈ dict_keys (MapGraph.rooms (Level.map level)) →
  run w0 state w → consistent level state.
Proof.
  intros Hget Hstart.
  induction 1 as [state w Hrun
                 |state w direction state' w' _ IH Hmove
                 |state w state' _ IH Hrestore].
  - apply start_new_run_inv in Hrun as (level' & Hget' & -> & _).
    rewrite Hget in Hget'. injection Hget' as <-. by apply consistent_start.
  - destruct (decide (GameState.status state = GameStatus.IN_PROGRESS)) as [Hst|Hst].
    + destruct (move_in_progress_inv _ _ _ _ _ Hst Hmove)
        as (level' & room & Hget' & Hroom & [[_ ->]|(next & entered & _ & Hent & ->)]);
        rewrite Hget in Hget'; injection Hget' as <-.
      * by apply consistent_bumped.
      * by apply consistent_arrived.
    + destruct (move_terminal_inv _ _ _ _ _ Hst Hmove) as [-> _].
      apply (consistent_ext level state); try done. by right.
  - destruct (restore_inv _ _ Hrestore) as (Hl & Hp & Hv & Hc & Hm & Hs & _ & _ & He).
    apply (consistent_ext level state); try done. by left.
Qed.

(** In every game on a level whose start room exists, the state keeps the
    invariants its class documents: the location is a room of the level and
    is among the visited rooms, which are rooms of the level; every
    collected item is the relic of a visited room; the move count is not
    negative; the level identifier is the one the game was started on.
    And the status tells the villain: the game is over exactly when the
    villain has been met, the player then stands in the villain's room, a
    completed game holds every required item and a lost one does not. *)
Theorem run_consistent level w0 state w :
  levels_get level_id = Some level →
  Level.start_room level ∈ dict_keys (MapGraph.rooms (Level.map level)) →
  run w0 state w → consistent level state.
Proof.
  intros Hget Hstart Hrun. revert Hget Hstart.
  induction Hrun as [state w Hrun
                    |state w direction state' w' Hrun IH Hmove
                    |state w state' Hrun IH Hrestore]; intros Hget Hstart.
  - apply start_new_run_inv in Hrun as (level' & Hget' & -> & _).
    rewrite Hget in Hget'. injection Hget' as <-. by apply consistent_start.
  - specialize (IH Hget Hstart).
    destruct (decide (GameState.status state = GameStatus.IN_PROGRESS)) as [Hst|Hst].
    + destruct (move_in_progress_inv _ _ _ _ _ Hst Hmove)
        as (level' & room & Hget' & Hroom & [[_ ->]|(next & entered & _ & Hent & ->)]);
        rewrite Hget in Hget'; injection Hget' as <-.
      * by apply consistent_bumped.
      * by apply consistent_arrived.
    + destruct (move_terminal_inv _ _ _ _ _ Hst Hmove) as [-> _].
      apply (consistent_ext level state); try done. by right.
  - specialize (IH Hget Hstart).
    destruct (restore_inv _ _ Hrestore) as (Hl & Hp & Hv & Hc & Hm & Hs & _ & _ & He).
    apply (consistent_ext level state); try done. by left.
Qed.


(** ** Moves never fail on a built level *)

Lemma relics_bounded level state :
  consistent level state →
  size (GameState.collected_items state) ≤ length (MapGraph.rooms (Level.map level)).
Proof.
  intros Hcon.
  set (relic := λ r : Room.t,
         match Room.item r with Some (Item.Relic name) => Some name | _ => None end).
  set (names := omap relic (MapGraph.rooms (Level.map level)).*2).
  assert (Hsub : GameState.collected_items state ⊆ list_to_set names).
  { intros name Hin. destruct (Session.collected_found _ _ _ Hcon name Hin)
      as (room & r & _ & Hr%dict_get_Some_elem & Hitem).
    apply elem_of_list_to_set, list_elem_of_omap. exists r. split.
    - apply list_elem_of_fmap. by exists (room, r).
    - unfold relic. by rewrite Hitem. }
  apply subseteq_size in Hsub.
  pose proof (size_list_to_set_le names) as Hle.
  assert (Hlen : length names ≤ length (MapGraph.rooms (Level.map level))).
  { unfold names. rewrite <- (length_fmap snd).
    generalize ((MapGraph.rooms (Level.map level)).*2). intros l.
    induction l as [|x l IH]; cbn; [done|]. destruct (relic x); cbn; lia. }
  lia.
Qed.

(** On a level that the factory built, within the sizes of the scoring
    arithmetic, every move of a game returns: the level and the rooms are
    found and the score is computed without an exception. *)
Theorem move_returns (fuel : nat) defn level w0 state w (direction : string) :
  LevelFactory.from_definition fuel defn = Some (Ok level) →
  levels_get level_id = Some level →
  level_in_range level →
  run w0 state w →
  (GameState.move_count state + 1 < 2 ^ 63)%Z →
  ∃ state' w', move state direction w = Ok (state', w').
Proof.
  intros [Hinv _]%built_level_post Hget [Hrooms Hopt] Hrun Hmc.
  pose proof (run_consistent_aux level w0 state w Hget
                (LevelInvariants.start_exists _ Hinv) Hrun) as Hcon.
  rewrite move_eq.
  destruct (GameStatus.is_terminal (GameState.status state)) eqn:Hterm; [by eauto|].
  assert (Hst : GameState.status state = GameStatus.IN_PROGRESS)
    by by destruct (GameState.status state).
  rewrite Hget.
  destruct (proj2 (dict_get_is_Some _ _) (Session.location_valid _ _ _ Hcon))
    as [room Hroom].
  rewrite Hroom.
  destruct (dict_get (Room.exits room) direction) as [next_room|] eqn:Hexit;
    [|rewrite autosave_eq; by eauto].
  assert (Hnext : next_room ∈ dict_keys (MapGraph.rooms (Level.map level))).
  { apply (LevelInvariants.exits_closed _ Hinv
             (Player.location (GameState.player state)) room direction);
      by apply dict_get_Some_elem. }
  apply dict_get_is_Some in Hnext as [entered_room Hentered]. rewrite Hentered.
  rewrite persist_eq, Hget.
  destruct (GameStatus.is_terminal
              (GameState.status (arrived level direction next_room entered_room state)));
    [|rewrite autosave_eq; by do 2 eexists].
  cbn.
  set (s := GameState.set_updated_at _ _).
  assert (Hcon' : consistent level s) by by apply consistent_arrived.
  destruct (ScoreStrategy_returns (Level.scoring level) s level) as [score ->]; [|by eauto].
  split; [|split; [|done]].
  - pose proof (relics_bounded level s Hcon'). lia.
  - destruct (arrived_fields level direction next_room entered_room state)
      as (_ & _ & _ & _ & Hm & _).
    unfold s. cbn. rewrite Hm. done.
Qed.

(** ** The optimum against the moves of a game *)

Local Abbreviation shadowed := (Session.shadowed (datetime := datetime)).

Lemma pick_up_extensive (required : gset string) (i : option Item.t) (items : gset string) :
  items ⊆ pick_up required i items.
Proof. unfold pick_up. destruct i; [|done]. destruct (decide _); set_solver. Qed.

Lemma pick_up_relic (required : gset string) (name : string) (items : gset string) :
  name ∈ required → name ∈ pick_up required (Some (Item.Relic name)) items.
Proof.
  intros Hreq. unfold pick_up. cbn. destruct (decide _) as [_|Hno]; [set_solver|].
  destruct (decide (name ∈ items)); [done|]. destruct Hno. done.
Qed.

Lemma walk_stuck (m : MapGraph.t) (required : gset string) (start : string)
    (r : Room.t) (k : nat) (s : SearchSpace.state) :
  dict_get (MapGraph.rooms m) start = Some r → is_villain (Room.item r) = true →
  walk m required start k s → k = 0.
Proof.
  intros Hr Hv. induction 1 as [|k s t Hw IH (r' & d & Hr' & Hv' & _)]; [done|].
  subst k. inversion Hw; subst. cbn in Hr'. congruence.
Qed.

Section optimum.
Context (level : Level.t) (n : nat).
Hypothesis Hget : levels_get level_id = Some level.
Hypothesis Hinv : LevelInvariants.t level.
Hypothesis Hpost :
  post (Level.map level) (StandardRules.required_items (Level.rules level))
    (Level.start_room level) (Ok n).

Local Abbreviation required := (StandardRules.required_items (Level.rules level)).

Lemma built_is_villain (room : string) (r : Room.t) :
  dict_get (MapGraph.rooms (Level.map level)) room = Some r →
  is_villain (Room.item r) = true ↔ LevelInvariants.holds_Villain r.
Proof.
  intros Hr%dict_get_Some_elem. unfold is_villain, LevelInvariants.holds_Villain.
  destruct (Room.item r) as [i|] eqn:Hi; [|split; [done|by intros [? ?]]].
  destruct (LevelInvariants.items_built _ Hinv _ _ _ Hr Hi) as (name & [-> | ->]); cbn.
  - split; [done|by intros [? ?]].
  - split; [by eexists|done].
Qed.

Lemma shadowed_arrived direction next_room (room entered_room : Room.t) state t :
  shadowed level state →
  GameState.status state = GameStatus.IN_PROGRESS →
  dict_get (MapGraph.rooms (Level.map level)) (Player.location (GameState.player state))
    = Some room →
  dict_get (Room.exits room) direction = Some next_room →
  dict_get (MapGraph.rooms (Level.map level)) next_room = Some entered_room →
  let state' :=
    GameState.set_updated_at t (arrived level direction next_room entered_room state) in
  (GameState.status state' = GameStatus.IN_PROGRESS → shadowed level state') ∧
  (GameState.status state' = GameStatus.COMPLETED →
   (Z.of_nat n ≤ GameState.move_count state')%Z).
Proof.
  intros (k & s & r & Hwalk & Hloc & Hk & Hr & Hvillain & Hitems) Hst Hroom Hexit
    Hentered state'.
  rewrite Hloc, Hroom in Hr. injection Hr as <-.
  destruct (arrived_fields level direction next_room entered_room state)
    as (_ & _ & _ & Hp & Hm & _ & Hc & _ & _ & Hs).
  set (t' := (next_room, pick_up required (Room.item room) s.2) : SearchSpace.state).
  assert (Hwalk' : walk (Level.map level) required (Level.start_room level) (S k) t').
  { apply (walk_S _ _ _ k s t' Hwalk). exists room, direction.
    rewrite Hloc. repeat split; try done. by apply dict_get_Some_elem. }
  assert (Hs' : GameState.status state'
                = match Room.item entered_room with
                  | Some (Item.Villain _) =>
                      if decide (required ⊆ GameState.collected_items state)
                      then GameStatus.COMPLETED else GameStatus.GAME_OVER
                  | _ => GameStatus.IN_PROGRESS
                  end) by (rewrite <- Hst; exact Hs).
  assert (Hp' : GameState.player state' = Player.mk next_room) by exact Hp.
  assert (Hm' : GameState.move_count state' = (GameState.move_count state + 1)%Z)
    by exact Hm.
  assert (Hc' : GameState.collected_items state'
                = GameState.collected_items state ∪ relic_of entered_room) by exact Hc.
  clearbody state'. rewrite Hs'. split.
  - intros Hstatus. exists (S k), t', entered_room. rewrite Hp', Hm', Hc'. cbn.
    split; [done|]. split; [done|]. split; [lia|]. split; [done|].
    destruct (Room.item entered_room) as [[nm ky|nm|nm]|] eqn:Hitem.
    + destruct (LevelInvariants.items_built _ Hinv next_room entered_room _
                  (dict_get_Some_elem _ _ _ Hentered) Hitem) as (? & [?|?]); done.
    + split; [done|]. unfold relic_of. rewrite Hitem.
      intros x [[Hx| ->%elem_of_singleton]%elem_of_union Hreq]%elem_of_intersection.
      * apply pick_up_extensive. set_solver.
      * by apply pick_up_relic.
    + by destruct (decide _).
    + split; [done|]. unfold relic_of. rewrite Hitem. cbn. set_solver.
  - intros Hstatus. rewrite Hm'.
    destruct (Room.item entered_room) as [[nm ky|nm|nm]|] eqn:Hitem; try done.
    destruct (decide _) as [Hsub|]; [|done].
    destruct Hpost as [_ Hmin].
    assert (n ≤ S k); [|lia].
    apply (Hmin (S k) t' Hwalk'). exists entered_room. cbn.
    split; [done|]. split; [by rewrite Hitem|].
    etrans; [|apply pick_up_extensive]. set_solver.
Qed.

Lemma run_shadowed w0 state w (r0 : Room.t) :
  dict_get (MapGraph.rooms (Level.map level)) (Level.start_room level) = Some r0 →
  is_villain (Room.item r0) = false →
  run w0 state w →
  (GameState.status state = GameStatus.IN_PROGRESS → shadowed level state) ∧
  (GameState.status state = GameStatus.COMPLETED →
   (Z.of_nat n ≤ GameState.move_count state)%Z).
Proof.
  intros Hr0 Hv0.
  induction 1 as [state w Hrun
                 |state w direction state' w' _ [IHp IHc] Hmove
                 |state w state' _ [IHp IHc] Hrestore].
  - apply start_new_run_inv in Hrun as (level' & Hget' & -> & _).
    rewrite Hget in Hget'. injection Hget' as <-. cbn. split; [|done].
    intros _. exists 0, (init (Level.start_room level)), r0. cbn.
    split; [constructor|]. repeat split; try done. set_solver.
  - destruct (decide (GameState.status state = GameStatus.IN_PROGRESS)) as [Hst|Hst].
    + destruct (move_in_progress_inv _ _ _ _ _ Hst Hmove)
        as (level' & room & Hget' & Hroom
            & [[_ ->]|(next & entered & Hexit & Hent & ->)]);
        rewrite Hget in Hget'; injection Hget' as <-.
      * cbn. rewrite Hst. split; [|done]. intros _.
        destruct (IHp Hst) as (k & s & r & ? & ? & ? & ? & ? & ?).
        exists k, s, r. cbn. repeat split; try done. lia.
      * exact (shadowed_arrived direction next room entered state _
                 (IHp Hst) Hst Hroom Hexit Hent).
    + destruct (move_terminal_inv _ _ _ _ _ Hst Hmove) as [-> _]. cbn.
      split; [done|]. exact IHc.
  - destruct (restore_inv _ _ Hrestore) as (_ & Hp & _ & Hc & Hm & Hs & _).
    rewrite Hs, Hm. split; [|done]. intros Hst.
    destruct (IHp Hst) as (k & s & r & ? & ? & ? & ? & ? & ?).
    exists k, s, r. rewrite Hp, Hm, Hc. repeat split; done.
Qed.

(** *** The optimum is attained *)

Hypothesis Hrange : level_in_range level.
Hypothesis Hplain : Session.plain level.

Local Abbreviation play := (Session.play clock levels_get user_email level_id).

Lemma play_app (ds : list string) (d : string) state w :
  play (ds ++ [d]) state w
  = match play ds state w with
    | Ok (s, w') => move s d w'
    | Raise e => Raise e
    end.
Proof.
  revert state w. induction ds as [|d' ds IH]; intros state w; cbn.
  - unfold GameController.mbind, GameController.ret.
    by destruct (move state d w) as [[? ?]|].
  - unfold GameController.mbind.
    destruct (move state d' w) as [[s' w']|]; [|done]. apply IH.
Qed.

Lemma play_run w0 (ds : list string) state w state' w' :
  run w0 state w → play ds state w = Ok (state', w') → run w0 state' w'.
Proof.
  revert state w. induction ds as [|d ds IH]; intros state w Hrun; cbn.
  - by intros [= <- <-].
  - unfold GameController.mbind.
    destruct (move state d w) as [[s1 w1]|] eqn:Hmove; [|done].
    apply IH. by apply (Session.run_move _ _ _ _ _ _ _ state w d).
Qed.

Lemma dict_get_NoDup {V : Type} (d : list (string * V)) (k : string) (v : V) :
  NoDup d.*1 → (k, v) ∈ d → dict_get d k = Some v.
Proof.
  induction d as [|[k' v'] d IH]; cbn; [by intros _ ?%elem_of_nil|].
  intros [Hk Hd]%NoDup_cons [[= -> ->]|Hin]%elem_of_cons.
  - by rewrite String.eqb_refl.
  - destruct (String.eqb_spec k' k) as [->|_]; [|by apply IH].
    destruct Hk. apply list_elem_of_fmap. by exists (k, v).
Qed.

Lemma pick_up_collects (r : Room.t) (collected items : gset string) (room : string) :
  dict_get (MapGraph.rooms (Level.map level)) room = Some r →
  is_villain (Room.item r) = false →
  collected ∩ required = items →
  (collected ∪ relic_of r) ∩ required = pick_up required (Room.item r) items.
Proof.
  intros Hr Hv <-. unfold relic_of, pick_up.
  destruct (Room.item r) as [[nm ky|nm|nm]|] eqn:Hitem; cbn.
  - destruct (LevelInvariants.items_built _ Hinv room r _
                (dict_get_Some_elem _ _ _ Hr) Hitem) as (? & [?|?]); done.
  - destruct (decide _) as [[? ?]|Hno]; [set_solver|].
    apply set_eq. intros x. rewrite !elem_of_intersection, elem_of_union, elem_of_singleton.
    split; [|tauto]. intros [[?| ->] Hreq]; [done|].
    destruct (decide (nm ∈ collected)); [done|]. destruct Hno. set_solver.
  - done.
  - by rewrite union_empty_r_L.
Qed.

Lemma walk_played w0 state0 w1 (k : nat) (s : SearchSpace.state) (r : Room.t) :
  start_new_run w0 = Ok (state0, w1) →
  walk (Level.map level) required (Level.start_room level) k s →
  dict_get (MapGraph.rooms (Level.map level)) s.1 = Some r →
  is_villain (Room.item r) = false →
  ∃ directions state w,
    play directions state0 w1 = Ok (state, w) ∧
    length directions = k ∧
    GameState.status state = GameStatus.IN_PROGRESS ∧
    Player.location (GameState.player state) = s.1 ∧
    GameState.move_count state = Z.of_nat k ∧
    GameState.collected_items state ∩ required = pick_up required (Room.item r) s.2.
Proof.
  intros Hstart Hwalk. revert r.
  induction Hwalk as [|k s t Hwalk IH (rs & d & Hrs & Hvs & Hexit & Ht)]; intros r Hr Hv.
  - exists [], state0, w1. cbn in *.
    apply start_new_run_inv in Hstart as (level' & Hget' & -> & _).
    rewrite Hget in Hget'. injection Hget' as <-. cbn.
    repeat split; try done.
    destruct Hplain as [(r0 & Hr0 & Hnone) _]. rewrite Hr in Hr0. injection Hr0 as <-.
    rewrite Hnone. cbn. set_solver.
  - destruct (IH rs Hrs Hvs) as (ds & state & w & Hplay & Hlen & Hst & Hloc & Hm & Hc).
    assert (Hd : dict_get (Room.exits rs) d = Some t.1).
    { apply dict_get_NoDup; [|done].
      destruct Hplain as (_ & _ & Hnodup).
      apply (Hnodup s.1). by apply dict_get_Some_elem. }
    assert (Hnov : ∀ nm, Room.item r ≠ Some (Item.Villain nm)).
    { intros nm Hitem. unfold is_villain in Hv. by rewrite Hitem in Hv. }
    destruct (arrived_fields level d t.1 r state)
      as (_ & _ & _ & Hp' & Hm' & _ & Hc' & _ & _ & Hs').
    assert (Hs'' : GameState.status (arrived level d t.1 r state) = GameStatus.IN_PROGRESS).
    { rewrite Hs', Hst. by destruct (Room.item r) as [[| |nm]|]. }
    exists (ds ++ [d]),
      (GameState.set_updated_at (clock (GameController.ticks w))
         (arrived level d t.1 r state)).
    eexists. split.
    { rewrite play_app, Hplay, move_eq, Hst. cbn [GameStatus.is_terminal].
      rewrite Hget, Hloc, Hrs, Hd, Hr, persist_eq, Hs''. cbn [GameStatus.is_terminal].
      by rewrite autosave_eq. }
    split; [rewrite length_app; cbn; lia|].
    split; [exact Hs''|].
    split; [change (Player.location (GameState.player (arrived level d t.1 r state)) = t.1);
            by rewrite Hp'|].
    split; [change (GameState.move_count (arrived level d t.1 r state) = Z.of_nat (S k));
            rewrite Hm', Hm; lia|].
    change (GameState.collected_items (arrived level d t.1 r state) ∩ required
            = pick_up required (Room.item r) t.2).
    rewrite Hc', Ht. apply (pick_up_collects r _ _ t.1 Hr Hv). by rewrite Hc.
Qed.
End optimum.

(** No game is completed in fewer moves than the optimum that the factory
    computed for its level: in a game on a built level, a completed state
    has made at least [optimal_moves] moves. *)
Theorem optimum_is_lower_bound (fuel : nat) defn level w0 state w :
  LevelFactory.from_definition fuel defn = Some (Ok level) →
  levels_get level_id = Some level →
  run w0 state w →
  GameState.status state = GameStatus.COMPLETED →
  ∃ n, Level.optimal_moves level = Some n ∧ (n ≤ GameState.move_count state)%Z.
Proof.
  intros (Hinv & n & Hn & Hpost)%built_level_post Hget Hrun Hst.
  exists (Z.of_nat n). split; [done|].
  destruct (proj2 (dict_get_is_Some _ _) (LevelInvariants.start_exists _ Hinv))
    as [r0 Hr0].
  destruct (is_villain (Room.item r0)) eqn:Hv0.
  - destruct Hpost as [(s & Hwalk & _) _].
    apply (walk_stuck _ _ _ r0 _ _ Hr0 Hv0) in Hwalk as ->.
    apply (Session.moves_counted level_id level).
    by apply (run_consistent_aux level w0 state w Hget
                (LevelInvariants.start_exists _ Hinv)).
  - by apply (run_shadowed level n Hget Hinv Hpost w0 state w r0).
Qed.

(** On a level that the factory built, within the sizes of the scoring
    arithmetic, whose start room holds no item and whose villain is not
    listed as a required item, the optimum is attained: from the state that
    [start_new_run] returns, some sequence of [optimal_moves] moves ends
    the game completed. *)
Theorem optimum_is_attained (fuel : nat) defn level w0 state0 w1 :
  LevelFactory.from_definition fuel defn = Some (Ok level) →
  levels_get level_id = Some level →
  level_in_range level →
  Session.plain level →
  start_new_run w0 = Ok (state0, w1) →
  ∃ directions state w,
    Session.play clock levels_get user_email level_id directions state0 w1 = Ok (state, w) ∧
    GameState.status state = GameStatus.COMPLETED ∧
    Level.optimal_moves level = Some (GameState.move_count state) ∧
    GameState.move_count state = Z.of_nat (length directions).
Proof.
  intros (Hinv & n & Hn & Hpost)%built_level_post Hget Hrange Hplain Hstart.
  pose proof Hpost as [(s & Hwalk & rv & Hrv & Hvillain & Hwin) _].
  pose proof Hplain as [(r0 & Hr0 & Hnone) [Hname Hnodup]].
  inversion Hwalk as [Hz Hs|k s' t Hwalk' (rs & d & Hrs & Hvs & Hexit & Ht) Hk Hs].
  { subst s. cbn in Hrv. rewrite Hr0 in Hrv. injection Hrv as <-.
    unfold is_villain in Hvillain. by rewrite Hnone in Hvillain. }
  subst t.
  destruct (walk_played level n Hget Hinv Hpost Hrange Hplain
              w0 state0 w1 k s' rs Hstart Hwalk' Hrs Hvs)
    as (ds & state & w & Hplay & Hlen & Hst & Hloc & Hm & Hc).
  assert (Hd : dict_get (Room.exits rs) d = Some s.1).
  { apply dict_get_NoDup; [|done]. apply (Hnodup s'.1). by apply dict_get_Some_elem. }
  destruct (proj1 (built_is_villain level Hinv s.1 rv Hrv) Hvillain) as [nm Hitem].
  assert (Hsub : StandardRules.required_items (Level.rules level)
                   ⊆ GameState.collected_items state).
  { assert (Hpick : pick_up (StandardRules.required_items (Level.rules level))
                      (Room.item rv) s.2 = s.2).
    { unfold pick_up. rewrite Hitem. cbn. destruct (decide _) as [[Hreq _]|]; [|done].
      destruct (Hname s.1 rv nm (dict_get_Some_elem _ _ _ Hrv) Hitem Hreq). }
    rewrite Hpick, Ht, <- Hc in Hwin. set_solver. }
  destruct (arrived_fields level d s.1 rv state)
    as (_ & _ & _ & _ & Hm' & _ & _ & _ & _ & Hs').
  rewrite Hitem, decide_True in Hs' by done.
  set (final := GameState.set_updated_at (clock (GameController.ticks w))
                  (arrived level d s.1 rv state)).
  assert (Hrun : run w0 state w).
  { apply (play_run w0 ds state0 w1); [|done]. by apply Session.run_start. }
  assert (Hcon : consistent level final).
  { apply consistent_arrived; try done.
    by apply (run_consistent_aux level w0 state w Hget
                (LevelInvariants.start_exists _ Hinv)). }
  destruct (ScoreStrategy_returns (Level.scoring level) final level) as [score Hscore].
  { destruct Hrange as [Hrooms Hopt]. rewrite Hn in Hopt.
    split; [|split; [|by rewrite Hn]].
    - pose proof (relics_bounded level final Hcon). lia.
    - unfold final. cbn. rewrite Hm', Hm. lia. }
  exists (ds ++ [d]), final. eexists. split.
  { rewrite play_app, Hplay, move_eq, Hst. cbn [GameStatus.is_terminal].
    rewrite Hget, Hloc, Hrs, Hd, Hrv, persist_eq, Hs'. cbn [GameStatus.is_terminal].
    rewrite Hget. cbn. fold final. by rewrite Hscore. }
  split; [exact Hs'|]. unfold final. cbn. rewrite Hm', Hm, Hn, length_app. cbn.
  split; [f_equal|]; lia.
Qed.

End session.

(** ** A game on the two-room level *)

(** The game that starts on the two-room level and walks east. *)
Ltac two_rooms_game :=
  eapply (Session.run_move _ _ _ _ _ _ _ _ _ "east");
    [apply Session.run_start; vm_compute; reflexivity | vm_compute; reflexivity].

Lemma two_rooms_run :
  ∃ state w,
    Session.run text_isoformat text_fromisoformat noon_clock two_rooms_repo
      "player@example.com" "level_test" text_world state w ∧
    GameState.status state = GameStatus.COMPLETED ∧
    GameState.move_count state = 1%Z.
Proof. do 2 eexists. split; [two_rooms_game|]. by split. Qed.

Lemma move_only_extends_witness :
  ∃ state' w',
    GameController.move tick_clock two_rooms_repo "player@example.com" "level_test"
      two_rooms_start "east" fresh_world = Ok (state', w') ∧
    GameState.level_id state' = GameState.level_id two_rooms_start ∧
    GameState.started_at state' = GameState.started_at two_rooms_start ∧
    GameState.move_count state'
      = (if GameStatus.is_terminal (GameState.status two_rooms_start)
         then GameState.move_count two_rooms_start
         else GameState.move_count two_rooms_start + 1)%Z ∧
    GameState.event_log two_rooms_start `prefix_of` GameState.event_log state' ∧
    GameState.visited_rooms two_rooms_start ⊆ GameState.visited_rooms state' ∧
    GameState.collected_items two_rooms_start ⊆ GameState.collected_items state' ∧
    (GameState.encountered_villain two_rooms_start = true →
     GameState.encountered_villain state' = true) ∧
    (GameStatus.is_terminal (GameState.status two_rooms_start) = true →
     GameState.status state' = GameState.status two_rooms_start).
Proof.
  do 2 eexists. split; [vm_compute; reflexivity|].
  eapply (move_only_extends tick_clock two_rooms_repo "player@example.com" "level_test"
            two_rooms_start "east" fresh_world).
  vm_compute. reflexivity.
Defined.

Lemma move_persists_witness :
  ∃ state' w',
    GameController.move tick_clock two_rooms_repo "player@example.com" "level_test"
      two_rooms_start "east" fresh_world = Ok (state', w') ∧
    GameState.updated_at state' = tick_clock (GameController.ticks fresh_world) ∧
    if GameStatus.is_terminal (GameState.status state') then
      ∃ level score,
        two_rooms_repo "level_test" = Some level ∧
        ScoreStrategy_calculate (Level.scoring level) state' level = Ok score ∧
        GameController.calls w'
        = GameController.calls fresh_world ++
          [GameController.history_add
             (Session.final_result "player@example.com" "level_test" level state' score
                (tick_clock (S (GameController.ticks fresh_world))));
           GameController.delete_active "player@example.com"]
    else
      ∃ created_at updated_at,
        GameController.calls w'
        = GameController.calls fresh_world ++
          [GameController.upsert_active
             (GameSave.mk "player@example.com" "level_test" state' created_at updated_at)].
Proof.
  do 2 eexists. split; [vm_compute; reflexivity|].
  apply (move_persists tick_clock two_rooms_repo "player@example.com" "level_test"
           two_rooms_start "east" fresh_world); [reflexivity|vm_compute; reflexivity].
Defined.

Lemma run_trace_witness :
  ∃ state w,
    Session.run text_isoformat text_fromisoformat noon_clock two_rooms_repo
      "player@example.com" "level_test" text_world state w ∧
    ∃ save saves,
      Forall (λ save, GameSave.user_email save = "player@example.com" ∧
                      GameSave.level_id save = "level_test") (save :: saves) ∧
      if GameStatus.is_terminal (GameState.status state) then
        ∃ level score finished_at,
          two_rooms_repo "level_test" = Some level ∧
          ScoreStrategy_calculate (Level.scoring level) state level = Ok score ∧
          GameController.calls w
          = GameController.calls text_world ++
            (GameController.upsert_active <$> save :: saves) ++
            [GameController.history_add
               (Session.final_result "player@example.com" "level_test" level state score
                  finished_at);
             GameController.delete_active "player@example.com"]
      else
        GameController.calls w
        = GameController.calls text_world ++
          (GameController.upsert_active <$> save :: saves).
Proof.
  do 2 eexists. split; [two_rooms_game|].
  apply (run_trace text_isoformat text_fromisoformat noon_clock two_rooms_repo
           "player@example.com" "level_test" text_world).
  two_rooms_game.
Defined.

Lemma run_consistent_witness :
  ∃ state w,
    Session.run text_isoformat text_fromisoformat noon_clock two_rooms_repo
      "player@example.com" "level_test" text_world state w ∧
    Session.consistent "level_test" two_rooms_level state.
Proof.
  do 2 eexists. split; [two_rooms_game|].
  eapply (run_consistent text_isoformat text_fromisoformat noon_clock two_rooms_repo
            "player@example.com" "level_test" two_rooms_level text_world).
  - reflexivity.
  - compute_done.
  - two_rooms_game.
Defined.

Lemma move_returns_witness :
  ∃ state w,
    Session.run text_isoformat text_fromisoformat noon_clock two_rooms_repo
      "player@example.com" "level_test" text_world state w ∧
    GameState.status state = GameStatus.IN_PROGRESS ∧
    ∃ state' w',
      GameController.move noon_clock two_rooms_repo "player@example.com" "level_test"
        state "east" w = Ok (state', w').
Proof.
  do 2 eexists. split; [apply Session.run_start; vm_compute; reflexivity|].
  split; [reflexivity|].
  eapply (move_returns text_isoformat text_fromisoformat noon_clock two_rooms_repo
            "player@example.com" "level_test" 2 level_test two_rooms_level text_world).
  - reflexivity.
  - reflexivity.
  - split; [by vm_compute|by vm_compute].
  - apply Session.run_start; vm_compute; reflexivity.
  - by vm_compute.
Defined.

Lemma optimum_is_lower_bound_witness :
  ∃ state w,
    Session.run text_isoformat text_fromisoformat noon_clock two_rooms_repo
      "player@example.com" "level_test" text_world state w ∧
    GameState.status state = GameStatus.COMPLETED ∧
    ∃ n, Level.optimal_moves two_rooms_level = Some n ∧ (n ≤ GameState.move_count state)%Z.
Proof.
  do 2 eexists. split; [two_rooms_game|]. split; [reflexivity|].
  eapply (optimum_is_lower_bound text_isoformat text_fromisoformat noon_clock two_rooms_repo
            "player@example.com" "level_test" 2 level_test two_rooms_level text_world).
  - reflexivity.
  - reflexivity.
  - two_rooms_game.
  - reflexivity.
Defined.

Lemma two_rooms_plain : Session.plain two_rooms_level.
Proof.
  split; [by eexists|]. split.
  - intros room r name Hin Hitem. set_solver.
  - intros room r Hin.
    apply elem_of_cons in Hin as [[= -> ->]|Hin];
      [|apply elem_of_cons in Hin as [[= -> ->]|Hin]; [|by apply elem_of_nil in Hin]];
      cbn; apply NoDup_singleton.
Qed.

Lemma optimum_is_attained_witness :
  ∃ state0 w1,
    GameController.start_new_run noon_clock two_rooms_repo "player@example.com" "level_test"
      text_world = Ok (state0, w1) ∧
    ∃ directions state w,
      Session.play noon_clock two_rooms_repo "player@example.com" "level_test"
        directions state0 w1 = Ok (state, w) ∧
      GameState.status state = GameStatus.COMPLETED ∧
      Level.optimal_moves two_rooms_level = Some (GameState.move_count state) ∧
      GameState.move_count state = Z.of_nat (length directions).
Proof.
  do 2 eexists. split; [vm_compute; reflexivity|].
  eapply (optimum_is_attained text_isoformat text_fromisoformat noon_clock two_rooms_repo
            "player@example.com" "level_test" 2 level_test two_rooms_level text_world).
  - reflexivity.
  - reflexivity.
  - split; by vm_compute.
  - apply two_rooms_plain.
  - vm_compute. reflexivity.
Defined.

End SessionFacts.


(** * The in-memory repositories *)

Module RepositoryFacts.
Import FactoryFacts SessionFacts.

Section history.
Context {datetime : Type}.
Implicit Types (r x y : GameResult.t datetime) (l : list (GameResult.t datetime)).
Implicit Types (repo : InMemoryHistoryRepository.t (datetime := datetime)).

Local Abbreviation insert_by_score := InMemoryHistoryRepository.insert_by_score.
Local Abbreviation sorted_by_score := InMemoryHistoryRepository.sorted_by_score.
Local Abbreviation top_scores := InMemoryHistoryRepository.top_scores.
Local Abbreviation by_user := InMemoryHistoryRepository.by_user.
Local Abbreviation record := InMemoryHistoryRepository.record.

Local Abbreviation score_ge := (score_ge (datetime := datetime)).

Lemma insert_by_score_perm r l : insert_by_score r l ≡ₚ r :: l.
Proof.
  induction l as [|x l IH]; cbn; [done|].
  destruct (_ <=? _)%Z; [done|]. rewrite IH. apply Permutation_swap.
Qed.

Lemma sorted_by_score_perm l : sorted_by_score l ≡ₚ l.
Proof.
  induction l as [|x l IH]; cbn; [done|].
  rewrite insert_by_score_perm. by rewrite IH.
Qed.

Lemma insert_by_score_sorted r l :
  StronglySorted score_ge l → StronglySorted score_ge (insert_by_score r l).
Proof.
  induction 1 as [|x l Hs IH Hx]; cbn; [repeat constructor|].
  destruct (Z.leb_spec (GameResult.score x) (GameResult.score r)) as [Hle|Hlt].
  - constructor; [by constructor|]. constructor; [done|].
    eapply Forall_impl; [exact Hx|]. unfold score_ge. intros y Hy. lia.
  - constructor; [done|].
    rewrite insert_by_score_perm. constructor; [unfold score_ge; lia|done].
Qed.

Lemma sorted_by_score_sorted l : StronglySorted score_ge (sorted_by_score l).
Proof.
  induction l as [|x l IH]; cbn; [constructor|]. by apply insert_by_score_sorted.
Qed.

Lemma insert_by_score_stable (v : Z) r l :
  filter (λ x, GameResult.score x = v) (insert_by_score r l)
  = filter (λ x, GameResult.score x = v) (r :: l).
Proof.
  induction l as [|x l IH]; cbn; [done|].
  destruct (Z.leb_spec (GameResult.score x) (GameResult.score r)) as [Hle|Hlt]; [done|].
  rewrite !filter_cons in *. rewrite IH.
  destruct (decide (GameResult.score x = v)), (decide (GameResult.score r = v)); try done.
  lia.
Qed.

Lemma sorted_by_score_stable (v : Z) l :
  filter (λ x, GameResult.score x = v) (sorted_by_score l)
  = filter (λ x, GameResult.score x = v) l.
Proof.
  induction l as [|x l IH]; [done|].
  change (sorted_by_score (x :: l)) with (insert_by_score x (sorted_by_score l)).
  by rewrite insert_by_score_stable, !filter_cons, IH.
Qed.

Lemma sorted_split (n : nat) l :
  StronglySorted score_ge l →
  StronglySorted score_ge (take n l) ∧
  Forall (λ x, Forall (λ y, score_ge x y) (drop n l)) (take n l).
Proof.
  intros Hs. rewrite <- (take_drop n l) in Hs.
  apply StronglySorted_app in Hs as (Hle & Htake & _). split; [done|].
  apply Forall_forall. intros x Hx. apply Forall_forall. intros y Hy. by apply Hle.
Qed.

(** The leaderboard of a level, for a limit that is not negative, is the
    best of the level's results: it holds [limit] of them, or all of them
    when there are fewer; they are in decreasing order of score; every
    result of the level left out scores no more than any result shown; and
    results of equal score appear in the order they were added. *)
Theorem top_scores_spec (level_id : string) (limit : Z) repo :
  (0 ≤ limit)%Z →
  let candidates := filter (λ r, GameResult.level_id r = level_id) repo in
  let shown := top_scores level_id limit repo in
  length shown = Nat.min (Z.to_nat limit) (length candidates) ∧
  StronglySorted score_ge shown ∧
  (∃ rest, shown ++ rest ≡ₚ candidates ∧
           Forall (λ x, Forall (λ y, score_ge x y) rest) shown) ∧
  (∀ v : Z, filter (λ x, GameResult.score x = v) shown
            `prefix_of` filter (λ x, GameResult.score x = v) candidates).
Proof.
  intros Hlimit candidates shown. unfold InMemoryHistoryRepository.t in *.
  assert (Hshown : shown = take (Z.to_nat limit) (sorted_by_score candidates)).
  { unfold shown, InMemoryHistoryRepository.top_scores, slice_to.
    by destruct (Z.leb_spec 0 limit); [|lia]. }
  pose proof (sorted_by_score_sorted candidates) as Hsorted.
  rewrite Hshown. split; [|split; [|split]].
  - rewrite length_take. by rewrite (Permutation_length (sorted_by_score_perm candidates)).
  - by apply sorted_split.
  - exists (drop (Z.to_nat limit) (sorted_by_score candidates)). split.
    + rewrite take_drop. apply sorted_by_score_perm.
    + by apply sorted_split.
  - intros v. rewrite <- (sorted_by_score_stable v candidates).
    rewrite <- (take_drop (Z.to_nat limit) (sorted_by_score candidates)) at 2.
    rewrite filter_app. by apply prefix_app_r.
Qed.

Lemma record_app (calls1 calls2 : list (GameController.call (datetime := datetime))) repo :
  record (calls1 ++ calls2) repo = record calls2 (record calls1 repo).
Proof. apply foldl_app. Qed.

Lemma record_upserts (saves : list (GameSave.t datetime)) repo :
  record (GameController.upsert_active <$> saves) repo = repo.
Proof. induction saves as [|save saves IH]; [done|]. exact IH. Qed.

Section game.
Context (isoformat : datetime → string) (fromisoformat : string → result datetime).
Context (clock : nat → datetime) (levels_get : string → option Level.t).
Context (user_email level_id : string).

(** The history of an in-memory repository that receives the
    controller's calls: while a game is in progress it is what it was
    when the game started; once the game is over it holds exactly one
    more result, the game's, with the final status, move count and score,
    which is then the last entry of the user's history, the history of
    every other user being unchanged. *)
Theorem finished_game_in_history w0 state w repo :
  Session.run isoformat fromisoformat clock levels_get user_email level_id w0 state w →
  let before := record (GameController.calls w0) repo in
  let after := record (GameController.calls w) repo in
  if GameStatus.is_terminal (GameState.status state) then
    ∃ level score finished_at,
      let result :=
        Session.final_result user_email level_id level state score finished_at in
      levels_get level_id = Some level ∧
      ScoreStrategy_calculate (Level.scoring level) state level = Ok score ∧
      after = before ++ [result] ∧
      by_user user_email after = by_user user_email before ++ [result] ∧
      ∀ other, other ≠ user_email → by_user other after = by_user other before
  else after = before.
Proof.
  intros Hrun before after.
  destruct (run_calls _ _ _ _ _ _ _ _ _ Hrun) as (save & saves & _ & Hcalls).
  unfold after, before.
  destruct (GameStatus.is_terminal (GameState.status state)).
  - destruct Hcalls as (level & score & finished_at & Hlevel & Hscore & ->).
    exists level, score, finished_at. cbn zeta.
    split; [done|]. split; [done|].
    rewrite !record_app, record_upserts. cbn.
    split; [done|]. unfold InMemoryHistoryRepository.add, InMemoryHistoryRepository.by_user.
    unfold InMemoryHistoryRepository.t in *. split.
    + rewrite filter_app, filter_cons. by rewrite decide_True.
    + intros other Hother.
      rewrite filter_app, filter_cons, decide_False by (cbn; congruence).
      by rewrite filter_nil, app_nil_r.
  - by rewrite Hcalls, record_app, record_upserts.
Qed.
End game.
End history.

Lemma finished_game_in_history_witness :
  ∃ state w,
    Session.run text_isoformat text_fromisoformat noon_clock two_rooms_repo
      "player@example.com" "level_test" text_world state w ∧
    let before := InMemoryHistoryRepository.record (GameController.calls text_world) [] in
    let after := InMemoryHistoryRepository.record (GameController.calls w) [] in
    if GameStatus.is_terminal (GameState.status state) then
      ∃ level score finished_at,
        let result :=
          Session.final_result "player@example.com" "level_test" level state score
            finished_at in
        two_rooms_repo "level_test" = Some level ∧
        ScoreStrategy_calculate (Level.scoring level) state level = Ok score ∧
        after = before ++ [result] ∧
        InMemoryHistoryRepository.by_user "player@example.com" after
        = InMemoryHistoryRepository.by_user "player@example.com" before ++ [result] ∧
        ∀ other, other ≠ "player@example.com" →
                 InMemoryHistoryRepository.by_user other after
                 = InMemoryHistoryRepository.by_user other before
    else after = before.
Proof.
  do 2 eexists. split; [two_rooms_game|].
  apply (finished_game_in_history text_isoformat text_fromisoformat noon_clock two_rooms_repo
           "player@example.com" "level_test" text_world).
  two_rooms_game.
Defined.

Lemma top_scores_spec_witness :
  let repo : InMemoryHistoryRepository.t (datetime := unit) :=
    [ GameResult.mk "a@example.com" "level_easy" GameStatus.COMPLETED 2250 9 6 tt None;
      GameResult.mk "b@example.com" "level_easy" GameStatus.GAME_OVER 416 5 5 tt None;
      GameResult.mk "c@example.com" "level_hard" GameStatus.COMPLETED 2750 9 6 tt None;
      GameResult.mk "d@example.com" "level_easy" GameStatus.COMPLETED 2250 9 6 tt None ] in
  let candidates := filter (λ r, GameResult.level_id r = "level_easy") repo in
  let shown := InMemoryHistoryRepository.top_scores "level_easy" 2 repo in
  length shown = Nat.min (Z.to_nat 2) (length candidates) ∧
  StronglySorted score_ge shown ∧
  (∃ rest, shown ++ rest ≡ₚ candidates ∧
           Forall (λ x, Forall (λ y, score_ge x y) rest) shown) ∧
  (∀ v : Z, filter (λ x, GameResult.score x = v) shown
            `prefix_of` filter (λ x, GameResult.score x = v) candidates).
Proof. intros repo. apply (top_scores_spec "level_easy" 2 repo). lia. Defined.

(** ** The level repository *)

Section levels.
Local Abbreviation load := InMemoryLevelRepository.load.

Lemma odict_get_set {V : Type} (d : list (option string * V)) (k k' : option string) (v : V) :
  odict_get (odict_set d k v) k' = if decide (k = k') then Some v else odict_get d k'.
Proof.
  induction d as [|[q v'] d IH]; cbn.
  - by destruct (decide (k = k')).
  - destruct (decide (q = k)) as [->|Hqk]; cbn.
    + by destruct (decide (k = k')).
    + destruct (decide (q = k')) as [->|Hqk']; [by rewrite decide_False|done].
Qed.

Lemma load_served (fuel : nat) (level_defs : list LevelDefinition.t)
    (levels repo : InMemoryLevelRepository.t) (level_id : string) (level : Level.t) :
  load fuel level_defs levels = Some (Ok repo) →
  odict_get repo (Some level_id) = Some level →
  odict_get levels (Some level_id) = Some level ∨
  ∃ defn, defn ∈ level_defs ∧
          LevelFactory.from_definition fuel defn = Some (Ok level) ∧
          LevelDefinition.id defn = Some level_id.
Proof.
  revert levels. induction level_defs as [|defn defs IH]; intros levels; cbn.
  - intros [= <-]. by left.
  - destruct (LevelFactory.from_definition fuel defn) as [[built|e]|] eqn:Hbuilt; [|done|done].
    intros Hload Hget. destruct (IH _ Hload Hget) as [Hold|(defn' & Hin & Hb & Hid)].
    + rewrite odict_get_set in Hold. destruct (decide _) as [Hid|_].
      * injection Hold as ->. right. exists defn. split; [left|done].
      * by left.
    + right. exists defn'. split; [by right|done].
Qed.

Lemma load_serves (fuel : nat) (level_defs : list LevelDefinition.t)
    (levels repo : InMemoryLevelRepository.t) (k : option string) :
  load fuel level_defs levels = Some (Ok repo) →
  is_Some (odict_get levels k) ∨ (∃ defn, defn ∈ level_defs ∧ LevelDefinition.id defn = k) →
  is_Some (odict_get repo k).
Proof.
  revert levels. induction level_defs as [|defn defs IH]; intros levels; cbn.
  - intros [= <-] [?|(? & ?%elem_of_nil & _)]; done.
  - destruct (LevelFactory.from_definition fuel defn) as [[built|e]|] eqn:Hbuilt; [|done|done].
    intros Hload Hor. apply (IH _ Hload). rewrite odict_get_set.
    destruct (decide (LevelDefinition.id defn = k)) as [Hid|Hid]; [left; by eexists|].
    destruct Hor as [?|(defn' & [->|?]%elem_of_cons & Hid')]; [by left|done|].
    right. by exists defn'.
Qed.

(** An in-memory level repository serves built levels only: every level
    it returns was built by the factory from one of the definitions it was
    given, carries the identifier it is served under and satisfies the
    invariants of a built level; the identifier of every definition is
    served; and an identifier that no definition carries is not. *)
Theorem level_repository_serves_built_levels (fuel : nat)
    (level_defs : list LevelDefinition.t) (repo : InMemoryLevelRepository.t) :
  InMemoryLevelRepository.init fuel level_defs = Some (Ok repo) →
  (∀ level_id level,
     InMemoryLevelRepository.get repo level_id = Some level →
     Level.id level = level_id ∧ LevelInvariants.t level ∧
     ∃ defn, defn ∈ level_defs ∧ LevelFactory.from_definition fuel defn = Some (Ok level)) ∧
  (∀ defn, defn ∈ level_defs →
     ∃ level_id, LevelDefinition.id defn = Some level_id ∧
                 is_Some (InMemoryLevelRepository.get repo level_id)) ∧
  (∀ level_id,
     (∀ defn, defn ∈ level_defs → LevelDefinition.id defn ≠ Some level_id) →
     InMemoryLevelRepository.get repo level_id = None).
Proof.
  unfold InMemoryLevelRepository.init, InMemoryLevelRepository.get. intros Hload.
  split; [|split].
  - intros level_id level Hget.
    destruct (load_served _ _ _ _ _ _ Hload Hget) as [?|(defn & Hin & Hbuilt & Hid)]; [done|].
    destruct (built_level_post _ _ _ Hbuilt) as [Hinv _].
    pose proof (from_definition_inv _ _ _ Hbuilt)
      as (i & ? & ? & ? & ? & ? & ? & ? & ? & ? & Hdefn & _ & _ & _ & _ & Hlevel).
    rewrite Hdefn in Hid. cbn in Hid. injection Hid as <-.
    split; [by rewrite Hlevel|]. split; [done|]. by exists defn.
  - intros defn Hin.
    assert (Hsome : is_Some (odict_get repo (LevelDefinition.id defn))).
    { apply (load_serves _ _ _ _ _ Hload). right. by exists defn. }
    destruct (LevelDefinition.id defn) as [level_id|] eqn:Hid; [by exists level_id|].
    exfalso. clear Hsome. revert Hload. generalize ([] : InMemoryLevelRepository.t).
    induction level_defs as [|d ds IH]; [by apply elem_of_nil in Hin|].
    intros levels. cbn.
    destruct (LevelFactory.from_definition fuel d) as [[built|e]|] eqn:Hbuilt; [|done|done].
    apply elem_of_cons in Hin as [<-|Hin]; [|by apply IH].
    apply from_definition_inv in Hbuilt
      as (? & ? & ? & ? & ? & ? & ? & ? & ? & ? & -> & _). done.
  - intros level_id Hnone.
    destruct (odict_get repo (Some level_id)) as [level|] eqn:Hget; [|done].
    destruct (load_served _ _ _ _ _ _ Hload Hget) as [?|(defn & Hin & _ & Hid)]; [done|].
    by destruct (Hnone defn Hin).
Qed.
End levels.

Lemma level_repository_serves_built_levels_witness :
  (∀ level_id level,
     InMemoryLevelRepository.get [(Some "level_test", two_rooms_level)] level_id = Some level →
     Level.id level = level_id ∧ LevelInvariants.t level ∧
     ∃ defn, defn ∈ [level_test] ∧ LevelFactory.from_definition 2 defn = Some (Ok level)) ∧
  (∀ defn, defn ∈ [level_test] →
     ∃ level_id, LevelDefinition.id defn = Some level_id ∧
                 is_Some (InMemoryLevelRepository.get [(Some "level_test", two_rooms_level)]
                            level_id)) ∧
  (∀ level_id,
     (∀ defn, defn ∈ [level_test] → LevelDefinition.id defn ≠ Some level_id) →
     InMemoryLevelRepository.get [(Some "level_test", two_rooms_level)] level_id = None).
Proof. apply (level_repository_serves_built_levels 2 [level_test]). reflexivity. Defined.

End RepositoryFacts.


(** * The UI projection *)

Module ProjectionFacts.
Import SolverFacts FactoryFacts.

Section projection.
Context {datetime : Type}.
Implicit Types (state : GameState.t datetime) (level : Level.t).
Implicit Types (visibility : LevelUIProjection.t).

Local Abbreviation render_room := (Projection.render_room (datetime := datetime)).
Local Abbreviation project_rooms := (Projection.project_rooms (datetime := datetime)).
Local Abbreviation ui_projection := (Projection.ui_projection (datetime := datetime)).

(** A cell of the projection against the room it was computed for. *)
Local Abbreviation cell_for visibility state coords :=
  (λ (item : string * Room.t) (c : string * Projection.cell),
     c.1 = item.1 ∧
     dict_get coords item.1 = Some (Projection.x c.2, Projection.y c.2) ∧
     Projection.render c.2 = render_room visibility state item.1 item.2).

Lemma project_rooms_Ok visibility state coords items rooms max_x max_y out mx my :
  project_rooms visibility state coords items rooms max_x max_y = Ok (out, mx, my) →
  ∃ cells,
    Forall2 (cell_for visibility state coords) items cells ∧
    out = rooms ++ cells ∧
    (max_x ≤ mx)%Z ∧ (max_y ≤ my)%Z ∧
    Forall (λ c, (Projection.x c.2 ≤ mx)%Z ∧ (Projection.y c.2 ≤ my)%Z) cells.
Proof.
  revert rooms max_x max_y.
  induction items as [|[room_name room] items IH]; intros rooms max_x max_y; cbn.
  - intros [= <- <- <-]. exists []. rewrite app_nil_r. repeat split; try done; lia.
  - unfold dict_item.
    destruct (dict_get coords room_name) as [[x y]|] eqn:Hxy; cbn; [|done].
    intros (cells & Hcells & -> & Hx & Hy & Hall)%IH.
    exists ((room_name,
             Projection.mk_cell x y (render_room visibility state room_name room)) :: cells).
    split; [constructor; [|exact Hcells]|].
    { cbn. by rewrite Hxy. }
    rewrite <- app_assoc. split; [done|].
    split; [lia|]. split; [lia|]. constructor; [cbn; lia|done].
Qed.

Lemma cells_keys visibility state coords items cells :
  Forall2 (cell_for visibility state coords) items cells →
  dict_keys cells = dict_keys items.
Proof.
  unfold dict_keys. induction 1 as [|[k r] [k' c] items cells (Hk & _) _ IH]; [done|].
  cbn in *. by rewrite Hk, IH.
Qed.

Lemma project_rooms_returns visibility state coords items rooms max_x max_y :
  (∀ room, room ∈ dict_keys items → room ∈ dict_keys coords) →
  ∃ out mx my, project_rooms visibility state coords items rooms max_x max_y = Ok (out, mx, my).
Proof.
  revert rooms max_x max_y.
  induction items as [|[room_name room] items IH]; intros rooms max_x max_y Hall; cbn.
  - by eauto.
  - assert (Hin : room_name ∈ dict_keys coords) by (apply Hall; left).
    apply dict_get_is_Some in Hin as [xy Hxy]. unfold dict_item. rewrite Hxy. cbn.
    apply IH. intros room' Hroom. apply Hall. by right.
Qed.

(** When every room of the map has coordinates, as in every built level,
    the projection is returned.  It names the player's room, and holds one
    cell for each room of the map, in the map's order, at the room's
    coordinates; the grid is at least one by one and every cell lies below
    its width and height. *)
Theorem ui_projection_returns level state :
  (∀ room, room ∈ dict_keys (MapGraph.rooms (Level.map level)) →
           room ∈ dict_keys (MapGraph.coords (Level.map level))) →
  ∃ p, ui_projection level state = Ok p ∧
    Projection.player_room p = Player.location (GameState.player state) ∧
    dict_keys (Projection.rooms p) = dict_keys (MapGraph.rooms (Level.map level)) ∧
    (1 ≤ Projection.width p)%Z ∧ (1 ≤ Projection.height p)%Z ∧
    ∀ room c, (room, c) ∈ Projection.rooms p →
      dict_get (MapGraph.coords (Level.map level)) room
        = Some (Projection.x c, Projection.y c) ∧
      (Projection.x c < Projection.width p)%Z ∧
      (Projection.y c < Projection.height p)%Z.
Proof.
  intros Hcoords. unfold Projection.ui_projection.
  set (visibility := VisibilityPolicy_project _ _ _).
  destruct (project_rooms_returns visibility state _ _ [] 0%Z 0%Z Hcoords)
    as (out & mx & my & Hp).
  rewrite Hp. cbn.
  apply project_rooms_Ok in Hp as (cells & Hm & -> & Hx & Hy & Hall).
  eexists. split; [reflexivity|]. cbn -[dict_keys]. split; [done|]. split.
  { by apply cells_keys in Hm. }
  split; [lia|]. split; [lia|].
  intros room c Hin. rewrite Forall_forall in Hall.
  destruct (Hall _ Hin) as [Hcx Hcy]. cbn in Hcx, Hcy.
  split; [|lia].
  apply list_elem_of_lookup in Hin as [i Hi].
  destruct (Forall2_lookup_r _ _ _ _ _ Hm Hi) as ([k r] & _ & Hk & Hxy & _).
  cbn in Hk, Hxy. by subst k.
Qed.

Lemma render_room_cases visibility state (room : string) (r : Room.t) :
  let out := render_room visibility state room r in
  (out = "hidden" ∧ LevelUIProjection.can_render_room visibility room = false) ∨
  (LevelUIProjection.can_render_room visibility room = true ∧
   ((out = "player" ∧ room = Player.location (GameState.player state)) ∨
    (room ≠ Player.location (GameState.player state) ∧
     (out = "empty" ∨
      (out = "villain" ∧ LevelUIProjection.show_villain visibility = true ∧
       (Item.render_key <$> Room.item r) = Some "villain") ∨
      (out = "relic" ∧ LevelUIProjection.show_items visibility = true ∧
       ∃ item, Room.item r = Some item ∧ Item.render_key item = "relic" ∧
               Item.name item ∉ GameState.collected_items state))))).
Proof.
  unfold Projection.render_room.
  destruct (LevelUIProjection.can_render_room visibility room); cbn; [right|by left].
  split; [done|].
  destruct (String.eqb_spec room (Player.location (GameState.player state)));
    [by left|right].
  split; [done|].
  destruct (Room.item r) as [item|]; [|by left].
  destruct (String.eqb_spec (Item.render_key item) "villain") as [Hv|Hv].
  - destruct (LevelUIProjection.show_villain visibility); [|by left].
    right; left. cbn. by rewrite Hv.
  - destruct (String.eqb_spec (Item.render_key item) "relic") as [Hrelic|Hrelic]; [|by left].
    destruct (LevelUIProjection.show_items visibility); [|by left]. cbn.
    destruct (bool_decide_reflect (Item.name item ∈ GameState.collected_items state));
      [by left|].
    right; right. split; [done|]. split; [done|]. by exists item.
Qed.

Lemma policy_flags level state (room : string) :
  let visibility := VisibilityPolicy_project (Level.visibility level) level state in
  (LevelUIProjection.can_render_room visibility room = false ↔
   Level.visibility level = VisibilityPolicy.HardVisibility ∧
   room ∉ GameState.visited_rooms state ∧
   room ≠ Player.location (GameState.player state)) ∧
  (LevelUIProjection.show_villain visibility = true ↔
   Level.visibility level ≠ VisibilityPolicy.HardVisibility) ∧
  (LevelUIProjection.show_items visibility = true ↔
   Level.visibility level = VisibilityPolicy.EasyVisibility).
Proof.
  unfold VisibilityPolicy_project, LevelUIProjection.can_render_room.
  destruct (Level.visibility level); cbn.
  - repeat split; try done. by intros (? & _).
  - repeat split; try done. by intros (? & _).
  - split; [|by repeat split].
    rewrite bool_decide_eq_false, not_elem_of_union, not_elem_of_singleton. tauto.
Qed.

(** What the projection shows.  Every cell is the cell of a room of the
    map, and is rendered as one of hidden, player, empty, villain or relic.
    A room is hidden exactly under the hard policy when it has neither been
    visited nor is the player's; the player's room is always rendered as
    the player, and no other room is; a villain is shown only under the
    easy and medium policies, a relic only under the easy policy and only
    while it has not been collected.  So the hard policy shows nothing but
    hidden, player and empty cells. *)
Theorem ui_projection_reveals level state p :
  ui_projection level state = Ok p →
  ∀ room c, (room, c) ∈ Projection.rooms p →
    ∃ r, (room, r) ∈ MapGraph.rooms (Level.map level) ∧
      Projection.render c ∈ ["hidden"; "player"; "empty"; "villain"; "relic"] ∧
      (Projection.render c = "hidden" ↔
       Level.visibility level = VisibilityPolicy.HardVisibility ∧
       room ∉ GameState.visited_rooms state ∧
       room ≠ Player.location (GameState.player state)) ∧
      (Projection.render c = "player" ↔ room = Player.location (GameState.player state)) ∧
      (Projection.render c = "villain" →
       Level.visibility level ≠ VisibilityPolicy.HardVisibility ∧
       (Item.render_key <$> Room.item r) = Some "villain") ∧
      (Projection.render c = "relic" →
       Level.visibility level = VisibilityPolicy.EasyVisibility ∧
       ∃ item, Room.item r = Some item ∧ Item.render_key item = "relic" ∧
               Item.name item ∉ GameState.collected_items state).
Proof.
  unfold Projection.ui_projection.
  destruct (project_rooms _ _ _ _ _ _ _) as [[[out mx] my]|] eqn:Hp; cbn; [|done].
  intros [= <-]. cbn. intros room c Hin.
  apply project_rooms_Ok in Hp as (cells & Hm & -> & _). cbn in Hin.
  apply list_elem_of_lookup in Hin as [i Hi].
  destruct (Forall2_lookup_r _ _ _ _ _ Hm Hi) as ([k r] & Hr & Hk & _ & Hrender).
  cbn in Hk, Hrender. subst k. exists r.
  split; [by eapply list_elem_of_lookup_2|].
  rewrite Hrender. clear Hrender Hm Hi Hr.
  destruct (policy_flags level state room) as (Hhidden & Hvillain & Hitems).
  pose proof (render_room_cases
                (VisibilityPolicy_project (Level.visibility level) level state)
                state room r) as Hcases.
  cbn zeta in Hcases, Hhidden, Hvillain, Hitems.
  destruct Hcases as [[-> Hno]|[Hyes [[-> Hloc]|[Hloc [->|[(-> & Hv & Hkey)|(-> & Hi & Hrelic)]]]]]].
  - split; [set_solver|]. split; [split; [intros _; by apply Hhidden|done]|].
    split; [split; [done|]|by split].
    intros Hloc. apply Hhidden in Hno as (_ & _ & ?). done.
  - split; [set_solver|]. split; [|by repeat split].
    split; [done|]. intros Hh%Hhidden. congruence.
  - split; [set_solver|]. split; [|by repeat split].
    split; [done|]. intros Hh%Hhidden. congruence.
  - split; [set_solver|]. split; [split; [done|intros Hh%Hhidden; congruence]|].
    split; [by split|]. split; [|done]. intros _. split; [by apply Hvillain|done].
  - split; [set_solver|]. split; [split; [done|intros Hh%Hhidden; congruence]|].
    split; [by split|]. split; [done|]. intros _. split; [by apply Hitems|done].
Qed.
End projection.

Lemma ui_projection_returns_witness :
  ∃ p, Projection.ui_projection two_rooms_level two_rooms_start = Ok p ∧
    Projection.player_room p = Player.location (GameState.player two_rooms_start) ∧
    dict_keys (Projection.rooms p) = dict_keys (MapGraph.rooms (Level.map two_rooms_level)) ∧
    (1 ≤ Projection.width p)%Z ∧ (1 ≤ Projection.height p)%Z ∧
    ∀ room c, (room, c) ∈ Projection.rooms p →
      dict_get (MapGraph.coords (Level.map two_rooms_level)) room
        = Some (Projection.x c, Projection.y c) ∧
      (Projection.x c < Projection.width p)%Z ∧
      (Projection.y c < Projection.height p)%Z.
Proof.
  apply (ui_projection_returns two_rooms_level two_rooms_start).
  intros room Hroom. vm_compute in Hroom. vm_compute. exact Hroom.
Defined.

Lemma ui_projection_reveals_witness :
  let level := with_difficulty Difficulty.HARD two_rooms_level in
  ∃ p, Projection.ui_projection level two_rooms_start = Ok p ∧
    ∀ room c, (room, c) ∈ Projection.rooms p →
      ∃ r, (room, r) ∈ MapGraph.rooms (Level.map level) ∧
        Projection.render c ∈ ["hidden"; "player"; "empty"; "villain"; "relic"] ∧
        (Projection.render c = "hidden" ↔
         Level.visibility level = VisibilityPolicy.HardVisibility ∧
         room ∉ GameState.visited_rooms two_rooms_start ∧
         room ≠ Player.location (GameState.player two_rooms_start)) ∧
        (Projection.render c = "player" ↔
         room = Player.location (GameState.player two_rooms_start)) ∧
        (Projection.render c = "villain" →
         Level.visibility level ≠ VisibilityPolicy.HardVisibility ∧
         (Item.render_key <$> Room.item r) = Some "villain") ∧
        (Projection.render c = "relic" →
         Level.visibility level = VisibilityPolicy.EasyVisibility ∧
         ∃ item, Room.item r = Some item ∧ Item.render_key item = "relic" ∧
                 Item.name item ∉ GameState.collected_items two_rooms_start).
Proof.
  intros level. eexists. split; [vm_compute; reflexivity|].
  apply (ui_projection_reveals level two_rooms_start). vm_compute. reflexivity.
Defined.

(** Under the hard policy the two-room level shows the player and hides the
    villain's room. *)
Lemma two_rooms_fog :
  Projection.ui_projection (with_difficulty Difficulty.HARD two_rooms_level) two_rooms_start
  = Ok (Projection.mk "A" 2 1
          [ ("A", Projection.mk_cell 0 0 "player"); ("B", Projection.mk_cell 1 0 "hidden") ]).
Proof. vm_compute. reflexivity. Qed.

End ProjectionFacts.


(** * Order and bounds of the scores *)

Module ScoringOrder.
Import PyFloat PyFloatFacts ScoringFacts.

(** ** Rounding and thresholds *)

Lemma Z_Q_le (a b : Z) : (a ≤ b)%Z → (inject_Z a <= inject_Z b)%Q.
Proof. by rewrite <- Zle_Qle. Qed.

Lemma Z_Q_lt (a b : Z) : (a < b)%Z → (inject_Z a < inject_Z b)%Q.
Proof. by rewrite <- Zlt_Qlt. Qed.

(** A rounded value stays on the side of an integer that it was on. *)
Lemma rne_le_int (x : Q) (n : Z) :
  (0 ≤ n < 2 ^ 53)%Z → (x <= inject_Z n)%Q → (rne x <= inject_Z n)%Q.
Proof. intros Hn Hx. rewrite <- (rne_int n Hn). by apply rne_mono. Qed.

Lemma rne_ge_int (x : Q) (n : Z) :
  (0 ≤ n < 2 ^ 53)%Z → (inject_Z n <= x)%Q → (inject_Z n <= rne x)%Q.
Proof. intros Hn Hx. rewrite <- (rne_int n Hn). by apply rne_mono. Qed.

(** Halves of integers below [2 ^ 52] are binary64 numbers. *)
Lemma rne_half (m : Z) : (0 ≤ m < 2 ^ 52)%Z → (rne (inject_Z m * (1 # 2)) == inject_Z m * (1 # 2))%Q.
Proof.
  intros [H0 H52]. destruct (Z.eq_dec m 0%Z) as [->|Hm]; [reflexivity|].
  assert (Hpos : (0 < inject_Z m * (1 # 2))%Q).
  { pose proof (Z_Q_lt 0 m ltac:(lia)) as H. change (inject_Z 0) with 0%Q in H. lra. }
  apply (rne_grid _ m (-1)); [done| |change (2 ^ (-1))%Q with (1 # 2)%Q; ring].
  destruct (Qlog2_spec _ Hpos) as [H1 _].
  assert (Qlog2 (inject_Z m * (1 # 2)) < 52)%Z; [|unfold ulp_exp; lia].
  destruct (Z_lt_ge_dec (Qlog2 (inject_Z m * (1 # 2))) 52) as [|Hge]; [done|exfalso].
  pose proof (pow2_le 52 (Qlog2 (inject_Z m * (1 # 2))) ltac:(lia)) as Hle.
  assert (Hm52 : (inject_Z m < 2 ^ 52)%Q).
  { rewrite pow2_Z by lia. by apply Z_Q_lt. }
  lra.
Qed.

Lemma rne_le_half (x : Q) (m : Z) :
  (0 ≤ m < 2 ^ 52)%Z → (x <= inject_Z m * (1 # 2))%Q → (rne x <= inject_Z m * (1 # 2))%Q.
Proof. intros Hm Hx. rewrite <- (rne_half m Hm). by apply rne_mono. Qed.

(** The penalty in closed form. *)
Local Abbreviation penalty_of base ratio :=
  (Qfloor (rne (rne (rne (inject_Z base) * ratio) * (1 # 2)))).

(** A larger base score against a penalty ratio that is no larger: the
    penalty grows by no more than the base. *)
Lemma penalty_slope (b1 b2 : Z) (r1 r2 : Q) :
  (0 ≤ b2 ≤ b1)%Z → (b1 < 2 ^ 50)%Z → (0 <= r1)%Q → (r1 <= r2)%Q → (r2 <= 1)%Q →
  (b2 - penalty_of b2 r2 ≤ b1 - penalty_of b1 r1)%Z.
Proof.
  intros Hb H50 Hr0 Hr12 Hr1.
  assert (Hb1 : (rne (inject_Z b1) == inject_Z b1)%Q) by (apply rne_int; lia).
  assert (Hb2 : (rne (inject_Z b2) == inject_Z b2)%Q) by (apply rne_int; lia).
  assert (Hq1 : (0 <= inject_Z b1)%Q) by (apply (Z_Q_le 0); lia).
  assert (Hq2 : (0 <= inject_Z b2)%Q) by (apply (Z_Q_le 0); lia).
  assert (Hmono : (penalty_of b1 r1 ≤ penalty_of b1 r2)%Z).
  { apply Qfloor_resp_le, rne_mono.
    apply Qmult_le_compat_r; [|lra]. apply rne_mono. rewrite Hb1. nra. }
  destruct (Z.eq_dec b1 b2) as [->|Hne]; [lia|].
  set (d := (b1 - b2)%Z). assert (Hd : (1 ≤ d)%Z) by (unfold d; lia).
  set (p := penalty_of b2 r2).
  assert (Hp0 : (0 ≤ p)%Z).
  { unfold p. rewrite <- (Qfloor_Z 0). apply Qfloor_resp_le.
    apply rne_nonneg. apply Qmult_le_0_compat; [|lra]. apply rne_nonneg. rewrite Hb2. nra. }
  assert (Hp50 : (p ≤ 2 ^ 50)%Z).
  { unfold p. rewrite <- (Qfloor_Z (2 ^ 50)). apply Qfloor_resp_le.
    apply rne_le_int; [lia|].
    assert (Hx : (rne (rne (inject_Z b2) * r2) <= inject_Z (2 ^ 50))%Q).
    { apply rne_le_int; [lia|]. rewrite Hb2.
      pose proof (Z_Q_le b2 (2 ^ 50) ltac:(lia)). nra. }
    pose proof (rne_nonneg (rne (inject_Z b2) * r2) ltac:(rewrite Hb2; nra)). lra. }
  (* the exact product of the smaller base stays below the next even integer *)
  assert (Hy2 : (rne (rne (rne (inject_Z b2) * r2) * (1 # 2)) < inject_Z (p + 1))%Q).
  { unfold p. apply Qlt_floor. }
  assert (Hx2 : (rne (rne (inject_Z b2) * r2) * (1 # 2) < inject_Z (p + 1))%Q).
  { apply Qnot_le_lt. intros Hge. apply (rne_ge_int _ (p + 1)) in Hge; [lra|lia]. }
  assert (He2 : (inject_Z b2 * r2 < inject_Z (2 * p + 2))%Q).
  { apply Qnot_le_lt. intros Hge. rewrite <- Hb2 in Hge.
    apply (rne_ge_int _ (2 * p + 2)) in Hge; [|lia].
    rewrite inject_Z_plus, inject_Z_mult in Hge.
    rewrite inject_Z_plus in Hx2. change (inject_Z 2) with 2%Q in Hge.
    change (inject_Z 1) with 1%Q in Hx2. lra. }
  (* so the product of the larger base is at most [2 p + 2 + d] *)
  assert (He1 : (inject_Z b1 * r2 <= inject_Z (2 * p + 2 + d))%Q).
  { assert (Hbd : (inject_Z b1 == inject_Z b2 + inject_Z d)%Q).
    { unfold d. rewrite <- inject_Z_plus. f_equiv. lia. }
    rewrite (inject_Z_plus (2 * p + 2) d).
    pose proof (Z_Q_le 0 d ltac:(lia)) as Hd0. change (inject_Z 0) with 0%Q in Hd0.
    rewrite Hbd. nra. }
  assert (Hx1 : (rne (rne (inject_Z b1) * r2) <= inject_Z (2 * p + 2 + d))%Q).
  { apply rne_le_int; [unfold d; lia|]. by rewrite Hb1. }
  assert (Hy1 : (rne (rne (rne (inject_Z b1) * r2) * (1 # 2))
                 <= inject_Z (2 * p + 2 + d) * (1 # 2))%Q).
  { apply rne_le_half; [unfold d; lia|]. lra. }
  assert (Hpen : (penalty_of b1 r2 ≤ p + d)%Z).
  { etrans; [apply Qfloor_resp_le, Hy1|].
    assert (Hfl : (Qfloor (inject_Z (2 * p + 2 + d) * (1 # 2)) = (2 * p + 2 + d) / 2)%Z).
    { unfold Qfloor. cbn. by rewrite Z.mul_1_r. }
    rewrite Hfl. apply Z.lt_succ_r, Z.div_lt_upper_bound; lia. }
  unfold d in Hpen. lia.
Qed.


(** ** The scores in closed form *)

Section order.
Context {datetime : Type}.
Implicit Types (state : GameState.t datetime) (level : Level.t).

Local Abbreviation progress_of c t :=
  (if (t =? 0)%Z then 0%Q else rne (inject_Z c / inject_Z t)).
Local Abbreviation progress_score_of c t :=
  (Qfloor (rne (rne (inject_Z 500) * progress_of c t))).
Local Abbreviation efficiency_of o mc :=
  (if negb (truthy_opt_int o) || (mc <=? 0)%Z then 1%Q
   else PyFloat.min (rne (inject_Z (default 0%Z o) / inject_Z mc)) 1%Q).
Local Abbreviation efficiency_score_of o mc :=
  (Qfloor (rne (rne (inject_Z 1000) * efficiency_of o mc))).
Local Abbreviation final_of ps es m :=
  (Qfloor (rne (rne (inject_Z (1000 + ps)) + rne (rne (inject_Z es) * m)))).

Lemma Qdiv_le_num (a b t : Z) :
  (0 ≤ a ≤ b)%Z → (0 < t)%Z → (inject_Z a / inject_Z t <= inject_Z b / inject_Z t)%Q.
Proof.
  intros Hab Ht. pose proof (Z_Q_le a b ltac:(lia)) as H.
  pose proof (Z_Q_lt 0 t Ht) as H0. change (inject_Z 0) with 0%Q in H0.
  apply Qmult_le_compat_r; [done|]. apply Qlt_le_weak, Qinv_lt_0_compat, H0.
Qed.

Lemma Qdiv_le_den (a t u : Z) :
  (0 ≤ a)%Z → (0 < t ≤ u)%Z → (inject_Z a / inject_Z u <= inject_Z a / inject_Z t)%Q.
Proof.
  intros Ha Htu.
  pose proof (Z_Q_le 0 a Ha) as HA. change (inject_Z 0) with 0%Q in HA.
  pose proof (Z_Q_lt 0 t ltac:(lia)) as HT. change (inject_Z 0) with 0%Q in HT.
  pose proof (Z_Q_le t u ltac:(lia)) as HTU.
  assert (Hinv : (/ inject_Z u <= / inject_Z t)%Q).
  { apply Qle_shift_inv_r; [lra|].
    assert (E : (/ inject_Z t * inject_Z u == inject_Z u / inject_Z t)%Q)
      by (unfold Qdiv; ring).
    apply (Qle_trans _ (inject_Z u / inject_Z t)%Q); [|by apply Qle_lteq; right].
    apply Qle_shift_div_l; lra. }
  unfold Qdiv. nra.
Qed.

Lemma Qdiv_le_1 (a t : Z) :
  (0 ≤ a)%Z → (0 < t)%Z → (inject_Z a / inject_Z t <= inject_Z a)%Q.
Proof.
  intros Ha Ht.
  pose proof (Z_Q_le 0 a Ha) as HA. change (inject_Z 0) with 0%Q in HA.
  pose proof (Z_Q_le 1 t ltac:(lia)) as HT. change (inject_Z 1) with 1%Q in HT.
  apply Qle_shift_div_r; [lra|]. nra.
Qed.

Lemma progress_of_range (c t : Z) :
  (0 ≤ c < 2 ^ 40)%Z → (0 ≤ t)%Z →
  (0 <= progress_of c t)%Q ∧ (progress_of c t <= inject_Z (2 ^ 40))%Q.
Proof.
  intros Hc Ht. destruct (Z.eqb_spec t 0) as [->|Hne].
  - split; [lra|]. by apply (Z_Q_le 0).
  - pose proof (Qdiv_le_1 c t ltac:(lia) ltac:(lia)) as H1.
    pose proof (Qdiv_le_num 0 c t ltac:(lia) ltac:(lia)) as H0.
    assert (E : (inject_Z 0 / inject_Z t == 0)%Q) by (unfold Qdiv; change (inject_Z 0) with 0%Q; ring).
    rewrite E in H0. split; [by apply rne_nonneg|].
    apply rne_le_int; [lia|]. pose proof (Z_Q_le c (2 ^ 40) ltac:(lia)). lra.
Qed.

Lemma progress_of_mono (c1 c2 t : Z) :
  (0 ≤ c1 ≤ c2)%Z → (0 ≤ t)%Z → (progress_of c1 t <= progress_of c2 t)%Q.
Proof.
  intros Hc Ht. destruct (Z.eqb_spec t 0) as [->|Hne]; [lra|].
  apply rne_mono, Qdiv_le_num; lia.
Qed.

Lemma progress_closed state level :
  (StandardScore.collected state < 2 ^ 40)%Z →
  StandardScore.progress state level
  = Ok (progress_of (StandardScore.collected state) (StandardScore.total_required level)).
Proof.
  intros Hc. unfold StandardScore.progress.
  destruct (Z.eqb_spec (StandardScore.total_required level) 0) as [|Hne]; cbn; [done|].
  destruct (truediv_bounded (StandardScore.collected state)
              (StandardScore.total_required level) 40) as (r & -> & -> & _); [lia| | |done].
  - unfold StandardScore.collected in *. lia.
  - unfold StandardScore.total_required in *. lia.
Qed.

Lemma progress_score_closed state level :
  (StandardScore.collected state < 2 ^ 40)%Z →
  StandardScore.progress_score state level
  = Ok (progress_score_of (StandardScore.collected state)
          (StandardScore.total_required level)) ∧
  (0 ≤ progress_score_of (StandardScore.collected state)
         (StandardScore.total_required level) ≤ 2 ^ 49)%Z.
Proof.
  intros Hc. unfold StandardScore.progress_score. rewrite progress_closed by done.
  cbn [bind].
  destruct (progress_of_range (StandardScore.collected state)
              (StandardScore.total_required level)) as [Hp0 Hp1].
  { unfold StandardScore.collected in *. lia. }
  { unfold StandardScore.total_required. lia. }
  rewrite <- pow2_Z in Hp1 by lia.
  destruct (int_mul_bounded StandardScore.MAX_PROGRESS_SCORE _ 9 40 ltac:(lia) ltac:(lia)
              ltac:(lia) ltac:(unfold StandardScore.MAX_PROGRESS_SCORE; lia) Hp0 Hp1)
    as (x & -> & -> & Hx0 & Hx1).
  cbn [bind]. rewrite to_int_floor by done. split; [done|]. split.
  - rewrite <- (Qfloor_Z 0). by apply Qfloor_resp_le.
  - rewrite <- (Qfloor_Z (2 ^ 49)). apply Qfloor_resp_le.
    change (9 + 40)%Z with 49%Z in Hx1. by rewrite <- pow2_Z.
Qed.

Lemma efficiency_of_range (o : option Z) (mc : Z) :
  match o with Some o => (0 ≤ o < 2 ^ 63)%Z | None => True end →
  (0 <= efficiency_of o mc)%Q ∧ (efficiency_of o mc <= 1)%Q.
Proof.
  intros Ho. destruct (negb _ || _) eqn:Hguard; [split; lra|].
  apply orb_false_iff in Hguard as [Ht Hm]. apply negb_false_iff in Ht.
  destruct o as [o|]; [|done]. cbn in *. apply Z.leb_gt in Hm.
  split; [|apply min_le_r]. apply min_nonneg; [|lra]. apply rne_nonneg.
  pose proof (Qdiv_le_num 0 o mc ltac:(lia) ltac:(lia)) as H0.
  assert (E : (inject_Z 0 / inject_Z mc == 0)%Q)
    by (unfold Qdiv; change (inject_Z 0) with 0%Q; ring).
  by rewrite E in H0.
Qed.

Lemma efficiency_closed state level :
  in_range state level →
  StandardScore.efficiency state level
  = Ok (efficiency_of (Level.optimal_moves level) (GameState.move_count state)).
Proof.
  intros (_ & Hmc & Hopt). unfold StandardScore.efficiency.
  destruct (negb _ || _) eqn:Hguard; [done|].
  apply orb_false_iff in Hguard as [Ho Hm]. apply negb_false_iff in Ho.
  destruct (Level.optimal_moves level) as [o|]; [|done]. cbn in *.
  apply Z.leb_gt in Hm.
  by destruct (truediv_bounded o (GameState.move_count state) 63)
    as (q & -> & -> & _); [lia..|].
Qed.

Lemma efficiency_score_closed state level :
  in_range state level →
  StandardScore.efficiency_score state level
  = Ok (efficiency_score_of (Level.optimal_moves level) (GameState.move_count state)) ∧
  (0 ≤ efficiency_score_of (Level.optimal_moves level) (GameState.move_count state)
     ≤ 1000)%Z.
Proof.
  intros Hr. unfold StandardScore.efficiency_score. rewrite efficiency_closed by done.
  cbn [bind].
  destruct (efficiency_of_range (Level.optimal_moves level) (GameState.move_count state))
    as [He0 He1]; [apply Hr|].
  destruct (int_mul_bounded StandardScore.MAX_EFFICIENCY_SCORE _ 10 0 ltac:(lia) ltac:(lia)
              ltac:(lia) ltac:(unfold StandardScore.MAX_EFFICIENCY_SCORE; lia) He0 He1)
    as (x & -> & -> & Hx0 & Hx1).
  cbn [bind]. rewrite to_int_floor by done. split; [done|]. split.
  - rewrite <- (Qfloor_Z 0). by apply Qfloor_resp_le.
  - rewrite <- (Qfloor_Z 1000). apply Qfloor_resp_le.
    apply rne_le_int; [lia|]. unfold StandardScore.MAX_EFFICIENCY_SCORE.
    rewrite (rne_int 1000) by lia. change (inject_Z 1000) with 1000%Q. nra.
Qed.

Lemma final_closed (ps es : Z) (m : Q) :
  (0 ≤ ps ≤ 2 ^ 49)%Z → (0 ≤ es ≤ 1000)%Z → (0 <= m)%Q → (m <= 2)%Q →
  StandardScore.final_score ps es m = Ok (final_of ps es m) ∧
  (1000 + ps ≤ final_of ps es m ≤ 3000 + ps)%Z.
Proof.
  intros Hps Hes Hm0 Hm2.
  destruct (final_score_ok ps es m) as (t & s & _ & _ & -> & -> & _ & _ & ->);
    [lia|lia|done|done|].
  unfold StandardScore.WIN_BASE. split; [done|].
  assert (Hes' : (rne (inject_Z es) == inject_Z es)%Q) by (apply rne_int; lia).
  pose proof (Z_Q_le 0 es ltac:(lia)) as He0. change (inject_Z 0) with 0%Q in He0.
  pose proof (Z_Q_le es 1000 ltac:(lia)) as He1. change (inject_Z 1000) with 1000%Q in He1.
  assert (Ht0 : (0 <= rne (rne (inject_Z es) * m))%Q).
  { apply rne_nonneg. rewrite Hes'. nra. }
  assert (Ht1 : (rne (rne (inject_Z es) * m) <= inject_Z 2000)%Q).
  { apply rne_le_int; [lia|]. rewrite Hes'. change (inject_Z 2000) with 2000%Q. nra. }
  assert (Hb : (rne (inject_Z (1000 + ps)) == inject_Z (1000 + ps))%Q)
    by (apply rne_int; lia).
  split.
  - rewrite <- (Qfloor_Z (1000 + ps)) at 1. apply Qfloor_resp_le.
    apply rne_ge_int; [lia|]. rewrite Hb. lra.
  - rewrite <- (Qfloor_Z (3000 + ps)). apply Qfloor_resp_le.
    apply rne_le_int; [lia|]. rewrite Hb.
    replace (3000 + ps)%Z with (1000 + ps + 2000)%Z by lia.
    rewrite (inject_Z_plus (1000 + ps) 2000). lra.
Qed.

Lemma final_of_mono (ps1 ps2 es1 es2 : Z) (m : Q) :
  (ps1 ≤ ps2)%Z → (0 ≤ es1 ≤ es2)%Z → (0 <= m)%Q →
  (final_of ps1 es1 m ≤ final_of ps2 es2 m)%Z.
Proof.
  intros Hps Hes Hm. apply Qfloor_resp_le, rne_mono, Qplus_le_compat.
  - apply rne_mono, Z_Q_le. lia.
  - apply rne_mono.
    pose proof (rne_mono _ _ (Z_Q_le es1 es2 ltac:(lia))) as H12.
    pose proof (rne_nonneg _ (Z_Q_le 0 es1 ltac:(lia))) as H0. nra.
Qed.

Local Abbreviation standard_of state level :=
  (let ps := progress_score_of (StandardScore.collected state)
               (StandardScore.total_required level) in
   if bool_decide (GameState.status state = GameStatus.COMPLETED)
   then final_of ps
          (efficiency_score_of (Level.optimal_moves level) (GameState.move_count state))
          (ScoringPolicy.multiplier (Difficulty.scoring_policy (Level.difficulty level)))
   else ps).

Lemma StandardScore_closed state level :
  in_range state level → (StandardScore.collected state < 2 ^ 40)%Z →
  StandardScore.calculate state level = Ok (standard_of state level) ∧
  (0 ≤ standard_of state level < 2 ^ 50)%Z.
Proof.
  intros Hr Hc. unfold StandardScore.calculate.
  destruct (progress_score_closed state level Hc) as [-> Hps]. cbn [bind].
  cbn zeta. destruct (bool_decide _); cbn [negb]; [|split; [done|lia]].
  destruct (efficiency_score_closed state level Hr) as [-> Hes]. cbn [bind].
  destruct (multiplier_range (Level.difficulty level)) as [Hm0 Hm1].
  destruct (final_closed _ _ _ Hps Hes Hm0 Hm1) as [-> Hf]. split; [done|lia].
Qed.

Lemma efficiency_of_mono (o : option Z) (mc1 mc2 : Z) :
  match o with Some o => (0 ≤ o < 2 ^ 63)%Z | None => True end →
  (mc2 ≤ mc1)%Z → (efficiency_of o mc1 <= efficiency_of o mc2)%Q.
Proof.
  intros Ho Hmc. destruct (truthy_opt_int o) eqn:Ht; cbn [negb orb]; [|lra].
  destruct o as [o|]; [|done]. change (default 0%Z (Some o)) with o.
  destruct (Z.leb_spec mc2 0) as [H2|H2].
  - destruct (Z.leb_spec mc1 0); [lra|apply min_le_r].
  - destruct (Z.leb_spec mc1 0) as [H1|H1]; [lia|].
    pose proof (rne_mono _ _ (Qdiv_le_den o mc2 mc1 ltac:(lia) ltac:(lia))) as Hq.
    unfold PyFloat.min.
    destruct (Qle_bool (rne (inject_Z o / inject_Z mc1)) 1) eqn:E1;
      destruct (Qle_bool (rne (inject_Z o / inject_Z mc2)) 1) eqn:E2; try lra.
    + apply Qle_bool_iff. exact E1.
    + assert (¬ (rne (inject_Z o / inject_Z mc1) <= 1)%Q)
        by (intros H%Qle_bool_iff; congruence).
      lra.
Qed.

Lemma efficiency_score_of_mono (o : option Z) (mc1 mc2 : Z) :
  match o with Some o => (0 ≤ o < 2 ^ 63)%Z | None => True end →
  (mc2 ≤ mc1)%Z → (efficiency_score_of o mc1 ≤ efficiency_score_of o mc2)%Z.
Proof.
  intros Ho Hmc. apply Qfloor_resp_le, rne_mono.
  pose proof (efficiency_of_mono o mc1 mc2 Ho Hmc) as He.
  pose proof (rne_nonneg (inject_Z 1000) ltac:(done)) as H0. nra.
Qed.

Lemma progress_score_of_mono (c1 c2 t : Z) :
  (0 ≤ c1 ≤ c2)%Z → (0 ≤ t)%Z → (progress_score_of c1 t ≤ progress_score_of c2 t)%Z.
Proof.
  intros Hc Ht. apply Qfloor_resp_le, rne_mono.
  pose proof (progress_of_mono c1 c2 t Hc Ht) as Hp.
  pose proof (rne_nonneg (inject_Z 500) ltac:(done)) as H0. nra.
Qed.

Local Abbreviation ratio_of o mc :=
  (PyFloat.min (rne (inject_Z (mc - o) / inject_Z o)) 1%Q).
Local Abbreviation penalized state level :=
  (bool_decide (GameState.status state = GameStatus.COMPLETED)
   && truthy_opt_int (Level.optimal_moves level)
   && negb (GameState.move_count state <=? default 0%Z (Level.optimal_moves level))%Z).
Local Abbreviation max_moves_of state level :=
  (if penalized state level
   then Z.max (standard_of state level
               - penalty_of (standard_of state level)
                   (ratio_of (default 0%Z (Level.optimal_moves level))
                      (GameState.move_count state))) 0
   else standard_of state level).

Lemma ratio_of_range (o mc : Z) :
  (0 < o)%Z → (o < mc)%Z → (0 <= ratio_of o mc)%Q ∧ (ratio_of o mc <= 1)%Q.
Proof.
  intros Ho Hmc. split; [|apply min_le_r]. apply min_nonneg; [|lra]. apply rne_nonneg.
  pose proof (Qdiv_le_num 0 (mc - o) o ltac:(lia) ltac:(lia)) as H0.
  assert (E : (inject_Z 0 / inject_Z o == 0)%Q)
    by (unfold Qdiv; change (inject_Z 0) with 0%Q; ring).
  by rewrite E in H0.
Qed.

Lemma min_mono (x y : Q) : (x <= y)%Q → (PyFloat.min x 1 <= PyFloat.min y 1)%Q.
Proof.
  intros Hxy. unfold PyFloat.min.
  destruct (Qle_bool x 1) eqn:E1; destruct (Qle_bool y 1) eqn:E2; try lra.
  - apply Qle_bool_iff. exact E1.
  - assert (¬ (x <= 1)%Q) by (intros H%Qle_bool_iff; congruence). lra.
Qed.

Lemma ratio_of_mono (o mc1 mc2 : Z) :
  (0 < o)%Z → (o < mc2 ≤ mc1)%Z → (ratio_of o mc2 <= ratio_of o mc1)%Q.
Proof. intros Ho Hmc. apply min_mono, rne_mono, Qdiv_le_num; lia. Qed.

Lemma penalty_of_range (b : Z) (r : Q) :
  (0 ≤ b < 2 ^ 50)%Z → (0 <= r)%Q → (r <= 1)%Q → (0 ≤ penalty_of b r)%Z ∧ (2 * penalty_of b r ≤ b)%Z.
Proof.
  intros Hb Hr0 Hr1.
  assert (Hb' : (rne (inject_Z b) == inject_Z b)%Q) by (apply rne_int; lia).
  pose proof (Z_Q_le 0 b ltac:(lia)) as Hb0. change (inject_Z 0) with 0%Q in Hb0.
  assert (Hx0 : (0 <= rne (rne (inject_Z b) * r))%Q) by (apply rne_nonneg; rewrite Hb'; nra).
  assert (Hx1 : (rne (rne (inject_Z b) * r) <= inject_Z b)%Q)
    by (apply rne_le_int; [lia|]; rewrite Hb'; nra).
  split.
  - rewrite <- (Qfloor_Z 0). apply Qfloor_resp_le, rne_nonneg. lra.
  - assert (Hy : (rne (rne (rne (inject_Z b) * r) * (1 # 2)) <= inject_Z b * (1 # 2))%Q)
      by (apply rne_le_half; [lia|lra]).
    pose proof (Qfloor_le (rne (rne (rne (inject_Z b) * r) * (1 # 2)))) as Hfl.
    assert (Hz : (inject_Z (2 * penalty_of b r) <= inject_Z b)%Q).
    { rewrite inject_Z_mult. change (inject_Z 2) with 2%Q. lra. }
    by rewrite Zle_Qle.
Qed.

Lemma MaxMovesScore_closed state level :
  in_range state level → (StandardScore.collected state < 2 ^ 40)%Z →
  MaxMovesScore.calculate state level = Ok (max_moves_of state level).
Proof.
  intros Hr Hc. unfold MaxMovesScore.calculate.
  destruct (StandardScore_closed state level Hr Hc) as [-> Hb].
  remember (standard_of state level) as b eqn:Eb. clear Eb. cbn [bind].
  destruct (bool_decide (GameState.status state = GameStatus.COMPLETED)) eqn:Hst;
    cbn [negb andb]; [|done].
  destruct Hr as (_ & Hmc & Hopt).
  destruct (truthy_opt_int (Level.optimal_moves level)) eqn:Ht; cbn [negb andb]; [|done].
  destruct (Level.optimal_moves level) as [o|] eqn:Ho; [|done].
  change (default 0%Z (Some o)) with o. cbn in Ht. apply negb_true_iff, Z.eqb_neq in Ht.
  destruct (Z.leb_spec (GameState.move_count state) o) as [|Hlt]; cbn [negb]; [done|].
  unfold MaxMovesScore.penalty_ratio.
  destruct (truediv_bounded (GameState.move_count state - o) o 63)
    as (q & -> & -> & _); [lia..|].
  cbn [bind]. unfold MaxMovesScore.penalty.
  destruct (ratio_of_range o (GameState.move_count state)) as [Hr0 Hr1]; [lia..|].
  destruct (int_mul_bounded _ _ 50 0 ltac:(lia) ltac:(lia) ltac:(lia)
              ltac:(split; [apply Hb|apply Z.lt_le_incl, Hb]) Hr0 Hr1)
    as (x & -> & -> & Hx0 & Hx1).
  cbn [bind].
  destruct (mul_bounded _ MaxMovesScore.OVERAGE_PENALTY_FACTOR (50 + 0) 0
              ltac:(lia) Hx0 Hx1 ltac:(done) ltac:(done))
    as (y & -> & -> & Hy0 & Hy1).
  cbn [bind]. by rewrite to_int_floor.
Qed.

Lemma standard_of_mono state1 state2 level :
  in_range state1 level →
  GameState.status state1 = GameState.status state2 →
  (StandardScore.collected state1 ≤ StandardScore.collected state2)%Z →
  (GameState.move_count state2 ≤ GameState.move_count state1)%Z →
  (standard_of state1 level ≤ standard_of state2 level)%Z.
Proof.
  intros Hr Hst Hc Hmc. cbn zeta. rewrite Hst.
  assert (Hps : (progress_score_of (StandardScore.collected state1)
                   (StandardScore.total_required level)
                 ≤ progress_score_of (StandardScore.collected state2)
                     (StandardScore.total_required level))%Z).
  { apply progress_score_of_mono.
    - unfold StandardScore.collected in *. lia.
    - unfold StandardScore.total_required. lia. }
  destruct (bool_decide _); [|done].
  apply final_of_mono; [done| |apply multiplier_range].
  split.
  - by destruct (efficiency_score_closed state1 level Hr) as [_ [? _]].
  - apply efficiency_score_of_mono; [apply Hr|done].
Qed.

Lemma max_moves_of_mono state1 state2 level :
  in_range state1 level → in_range state2 level →
  (StandardScore.collected state2 < 2 ^ 40)%Z →
  GameState.status state1 = GameState.status state2 →
  (StandardScore.collected state1 ≤ StandardScore.collected state2)%Z →
  (GameState.move_count state2 ≤ GameState.move_count state1)%Z →
  (max_moves_of state1 level ≤ max_moves_of state2 level)%Z.
Proof.
  intros Hr1 Hr2 Hc2 Hst Hc Hmc.
  pose proof (standard_of_mono state1 state2 level Hr1 Hst Hc Hmc) as H12.
  destruct (StandardScore_closed state1 level Hr1 ltac:(lia)) as [_ Hb1].
  destruct (StandardScore_closed state2 level Hr2 Hc2) as [_ Hb2].
  remember (standard_of state1 level) as b1 eqn:E1. clear E1.
  remember (standard_of state2 level) as b2 eqn:E2. clear E2.
  rewrite Hst. destruct (bool_decide _); cbn [andb]; [|done].
  destruct Hr1 as (_ & _ & Hopt).
  destruct (Level.optimal_moves level) as [o|]; [|done].
  destruct (truthy_opt_int (Some o)) eqn:Ht; cbn [andb]; [|done].
  change (default 0%Z (Some o)) with o. cbn in Ht. apply negb_true_iff, Z.eqb_neq in Ht.
  destruct (Z.leb_spec (GameState.move_count state1) o) as [Hle1|Hlt1]; cbn [negb].
  { destruct (Z.leb_spec (GameState.move_count state2) o) as [_|?]; [done|lia]. }
  destruct (ratio_of_range o (GameState.move_count state1)) as [Hr10 Hr11]; [lia..|].
  destruct (penalty_of_range b1 _ Hb1 Hr10 Hr11) as [Hp1 _].
  destruct (Z.leb_spec (GameState.move_count state2) o) as [Hle2|Hlt2]; cbn [negb]; [lia|].
  destruct (ratio_of_range o (GameState.move_count state2)) as [Hr20 Hr21]; [lia..|].
  pose proof (ratio_of_mono o (GameState.move_count state1) (GameState.move_count state2)
                ltac:(lia) ltac:(lia)) as Hratio.
  pose proof (penalty_slope b2 b1 _ _ ltac:(lia) ltac:(lia) Hr20 Hratio Hr11) as Hslope.
  lia.
Qed.

(** The score rewards play: of two states of the same status on the same
    level, the one that holds at least as many items and took at most as
    many moves scores at least as much, under either strategy, whatever
    the rounding of the floating-point steps and of the hard penalty. *)
Theorem score_monotone (strategy : ScoreStrategy.t) state1 state2 level :
  in_range state1 level → in_range state2 level →
  (StandardScore.collected state2 < 2 ^ 40)%Z →
  GameState.status state1 = GameState.status state2 →
  (StandardScore.collected state1 ≤ StandardScore.collected state2)%Z →
  (GameState.move_count state2 ≤ GameState.move_count state1)%Z →
  ∃ v1 v2,
    ScoreStrategy_calculate strategy state1 level = Ok v1 ∧
    ScoreStrategy_calculate strategy state2 level = Ok v2 ∧
    (v1 ≤ v2)%Z.
Proof.
  intros Hr1 Hr2 Hc2 Hst Hc Hmc. destruct strategy; cbn [ScoreStrategy_calculate].
  - destruct (StandardScore_closed state1 level Hr1 ltac:(lia)) as [-> _].
    destruct (StandardScore_closed state2 level Hr2 Hc2) as [-> _].
    do 2 eexists. split; [done|]. split; [done|]. by apply standard_of_mono.
  - rewrite (MaxMovesScore_closed state1 level Hr1 ltac:(lia)).
    rewrite (MaxMovesScore_closed state2 level Hr2 Hc2).
    do 2 eexists. split; [done|]. split; [done|]. by apply max_moves_of_mono.
Qed.

Lemma progress_score_of_le_500 (c t : Z) :
  (0 ≤ c ≤ t)%Z → (0 ≤ progress_score_of c t ≤ 500)%Z.
Proof.
  intros Hc.
  assert (Hp : (0 <= progress_of c t)%Q ∧ (progress_of c t <= 1)%Q).
  { destruct (Z.eqb_spec t 0) as [->|Hne]; [split; lra|].
    pose proof (Qdiv_le_num 0 c t ltac:(lia) ltac:(lia)) as H0.
    assert (E : (inject_Z 0 / inject_Z t == 0)%Q)
      by (unfold Qdiv; change (inject_Z 0) with 0%Q; ring).
    rewrite E in H0. split; [by apply rne_nonneg|].
    apply (rne_le_int _ 1); [lia|].
    pose proof (Z_Q_le c t ltac:(lia)) as Hct.
    pose proof (Z_Q_lt 0 t ltac:(lia)) as Ht. change (inject_Z 0) with 0%Q in Ht.
    apply Qle_shift_div_r; [done|]. change (inject_Z 1) with 1%Q. lra. }
  destruct Hp as [Hp0 Hp1].
  assert (H500 : (rne (inject_Z 500) == 500)%Q) by (by rewrite (rne_int 500)).
  split.
  - rewrite <- (Qfloor_Z 0). apply Qfloor_resp_le, rne_nonneg. rewrite H500.
    apply Qmult_le_0_compat; [lra|done].
  - rewrite <- (Qfloor_Z 500). apply Qfloor_resp_le.
    apply rne_le_int; [lia|]. rewrite H500. change (inject_Z 500) with 500%Q.
    rewrite <- (Qmult_1_r 500) at 2. apply Qmult_le_l; [lra|done].
Qed.

Lemma final_of_le (ps es : Z) (m : Q) :
  (0 ≤ ps ≤ 500)%Z → (0 ≤ es ≤ 1000)%Z → (0 <= m)%Q → (m <= 5 # 4)%Q →
  (final_of ps es m ≤ 2250 + ps)%Z.
Proof.
  intros Hps Hes Hm0 Hm1.
  assert (Hes' : (rne (inject_Z es) == inject_Z es)%Q) by (apply rne_int; lia).
  pose proof (Z_Q_le 0 es ltac:(lia)) as He0. change (inject_Z 0) with 0%Q in He0.
  pose proof (Z_Q_le es 1000 ltac:(lia)) as He1. change (inject_Z 1000) with 1000%Q in He1.
  assert (Ht1 : (rne (rne (inject_Z es) * m) <= inject_Z 1250)%Q).
  { apply rne_le_int; [lia|]. rewrite Hes'. change (inject_Z 1250) with 1250%Q. nra. }
  assert (Hb : (rne (inject_Z (1000 + ps)) == inject_Z (1000 + ps))%Q)
    by (apply rne_int; lia).
  rewrite <- (Qfloor_Z (2250 + ps)). apply Qfloor_resp_le.
  apply rne_le_int; [lia|]. rewrite Hb.
  replace (2250 + ps)%Z with (1000 + ps + 1250)%Z by lia.
  rewrite (inject_Z_plus (1000 + ps) 1250). lra.
Qed.

Lemma multiplier_le (d : Difficulty.t) :
  (ScoringPolicy.multiplier (Difficulty.scoring_policy d) <= 5 # 4)%Q.
Proof. destruct d; cbn; lra. Qed.

(** The range of the scores, on a state that holds no more items than the
    level requires.  A game that is not completed scores between 0 and
    500.  A completed game scores at most 2750 and at least 1000 under the
    standard strategy; the penalty of the hard strategy takes at most half
    of that, so a completed game scores at least 500 under either: a win
    never scores less than a game that is not won. *)
Theorem score_range (strategy : ScoreStrategy.t) state level :
  in_range state level →
  (StandardScore.collected state ≤ StandardScore.total_required level)%Z →
  (StandardScore.total_required level < 2 ^ 40)%Z →
  ∃ v, ScoreStrategy_calculate strategy state level = Ok v ∧
    if bool_decide (GameState.status state = GameStatus.COMPLETED)
    then (500 ≤ v ≤ 2750)%Z ∧ (strategy = ScoreStrategy.StandardScore → (1000 ≤ v)%Z)
    else (0 ≤ v ≤ 500)%Z.
Proof.
  intros Hr Hct Ht.
  assert (Hc : (StandardScore.collected state < 2 ^ 40)%Z) by lia.
  assert (Hps := progress_score_of_le_500 (StandardScore.collected state)
                   (StandardScore.total_required level)
                   ltac:(unfold StandardScore.collected in *; lia)).
  destruct (efficiency_score_closed state level Hr) as [_ Hes].
  destruct (multiplier_range (Level.difficulty level)) as [Hm0 Hm2].
  pose proof (multiplier_le (Level.difficulty level)) as Hm1.
  assert (Hstd :
    if bool_decide (GameState.status state = GameStatus.COMPLETED)
    then (1000 ≤ standard_of state level ≤ 2750)%Z
    else (0 ≤ standard_of state level ≤ 500)%Z).
  { assert (Hps' : (0 ≤ progress_score_of (StandardScore.collected state)
                            (StandardScore.total_required level) ≤ 2 ^ 49)%Z) by lia.
    cbn zeta. destruct (bool_decide _); [|done].
    pose proof (final_of_le _ _ _ Hps Hes Hm0 Hm1).
    destruct (final_closed _ _ _ Hps' Hes Hm0 Hm2) as [_ [? _]]. lia. }
  destruct (StandardScore_closed state level Hr Hc) as [Hs Hb].
  destruct strategy; cbn [ScoreStrategy_calculate].
  - rewrite Hs. eexists. split; [done|].
    remember (standard_of state level) as b eqn:E. clear E.
    destruct (bool_decide _); [|done]. split; [lia|]. intros _. lia.
  - rewrite (MaxMovesScore_closed state level Hr Hc). eexists. split; [done|].
    remember (standard_of state level) as b eqn:E. clear E.
    destruct (bool_decide (GameState.status state = GameStatus.COMPLETED));
      cbn [andb]; [|done].
    split; [|done].
    destruct (truthy_opt_int (Level.optimal_moves level)) eqn:Htr; cbn [andb]; [|lia].
    destruct Hr as (_ & _ & Hopt).
    destruct (Level.optimal_moves level) as [o|]; [|done].
    change (default 0%Z (Some o)) with o. cbn in Htr. apply negb_true_iff, Z.eqb_neq in Htr.
    destruct (Z.leb_spec (GameState.move_count state) o) as [|Hlt]; cbn [negb]; [lia|].
    destruct (ratio_of_range o (GameState.move_count state)) as [Hr0 Hr1]; [lia..|].
    destruct (penalty_of_range b _ Hb Hr0 Hr1) as [Hp0 Hp1]. lia.
Qed.
End order.

Lemma score_monotone_witness :
  let state1 := sample_state six_stones 14 GameStatus.COMPLETED in
  let state2 := sample_state six_stones 9 GameStatus.COMPLETED in
  let level := sample_level Difficulty.HARD six_stones (Some 7%Z) in
  ∃ v1 v2,
    ScoreStrategy_calculate ScoreStrategy.MaxMovesScore state1 level = Ok v1 ∧
    ScoreStrategy_calculate ScoreStrategy.MaxMovesScore state2 level = Ok v2 ∧
    (v1 ≤ v2)%Z.
Proof.
  apply score_monotone.
  - repeat split; vm_compute; congruence.
  - repeat split; vm_compute; congruence.
  - by vm_compute.
  - reflexivity.
  - vm_compute. congruence.
  - vm_compute. congruence.
Defined.

Lemma score_range_witness :
  let state := sample_state six_stones 14 GameStatus.COMPLETED in
  let level := sample_level Difficulty.HARD six_stones (Some 7%Z) in
  ∃ v, ScoreStrategy_calculate ScoreStrategy.MaxMovesScore state level = Ok v ∧
    if bool_decide (GameState.status state = GameStatus.COMPLETED)
    then (500 ≤ v ≤ 2750)%Z ∧
         (ScoreStrategy.MaxMovesScore = ScoreStrategy.StandardScore → (1000 ≤ v)%Z)
    else (0 ≤ v ≤ 500)%Z.
Proof.
  apply score_range.
  - repeat split; vm_compute; congruence.
  - vm_compute. congruence.
  - by vm_compute.
Defined.

(** Nine moves against an optimum of seven beat fourteen, on the hard level. *)
Lemma nine_moves_beat_fourteen :
  let level := sample_level Difficulty.HARD six_stones (Some 7%Z) in
  ScoreStrategy_calculate ScoreStrategy.MaxMovesScore
    (sample_state six_stones 14 GameStatus.COMPLETED) level = Ok 1063%Z ∧
  ScoreStrategy_calculate ScoreStrategy.MaxMovesScore
    (sample_state six_stones 9 GameStatus.COMPLETED) level = Ok 2118%Z.
Proof. split; vm_compute; reflexivity. Qed.

End ScoringOrder.


(** * The solver against the game *)

Module GameVsSolver.
Import Validation SearchSpace SolverFacts FactoryFacts SessionFacts.

Section play.
Context {datetime : Type}.
Context (isoformat : datetime → string) (fromisoformat : string → result datetime).
Context (clock : nat → datetime) (levels_get : string → option Level.t).
Context (user_email level_id : string).

Local Abbreviation run :=
  (Session.run isoformat fromisoformat clock levels_get user_email level_id).

(** Play collects on entering a room through an exit, and nowhere else. *)
Lemma run_collects_entered level w0 state w :
  levels_get level_id = Some level →
  run w0 state w →
  ∀ name, name ∈ GameState.collected_items state → entered_relic level name.
Proof.
  intros Hget.
  induction 1 as [state w Hrun
                 |state w direction state' w' _ IH Hmove
                 |state w state' _ IH Hrestore].
  - apply start_new_run_inv in Hrun as (level' & _ & -> & _). cbn.
    intros name Hin. by apply elem_of_empty in Hin.
  - destruct (decide (GameState.status state = GameStatus.IN_PROGRESS)) as [Hst|Hst].
    + destruct (move_in_progress_inv _ _ _ _ _ _ _ _ _ Hst Hmove)
        as (level' & room & Hget' & Hroom
            & [[_ ->]|(next & entered & Hexit & Hent & ->)]);
        rewrite Hget in Hget'; injection Hget' as <-.
      * intros name. cbn. apply IH.
      * intros name. cbn [GameState.collected_items GameState.set_updated_at].
        pose proof (arrived_fields level direction next entered state)
          as (_ & _ & _ & _ & _ & _ & Hc & _).
        cbn zeta in Hc. rewrite Hc. intros [Hold|Hnew]%elem_of_union; [by apply IH|].
        unfold relic_of in Hnew.
        destruct (Room.item entered) as [[| name' |]|] eqn:Hitem;
          try by apply elem_of_empty in Hnew.
        apply elem_of_singleton in Hnew as ->.
        by exists (Player.location (GameState.player state)), room, direction, next, entered.
    + destruct (move_terminal_inv _ _ _ _ _ _ _ _ _ Hst Hmove) as [-> _]. apply IH.
  - destruct (restore_inv _ _ _ _ Hrestore) as (_ & _ & _ & Hc & _).
    intros name. rewrite Hc. apply IH.
Qed.

(** A level with a required item that no exit leads to is never won. *)
Lemma never_completed level w0 state w (name : string) :
  levels_get level_id = Some level →
  Level.start_room level ∈ dict_keys (MapGraph.rooms (Level.map level)) →
  name ∈ StandardRules.required_items (Level.rules level) →
  ¬ entered_relic level name →
  run w0 state w →
  GameState.status state ≠ GameStatus.COMPLETED.
Proof.
  intros Hget Hstart Hreq Hno Hrun Hst.
  pose proof (run_consistent_aux _ _ _ _ _ _ level w0 state w Hget Hstart Hrun) as Hcons.
  pose proof (Session.outcome _ _ _ Hcons) as Hout. rewrite Hst in Hout.
  apply Hno, (run_collects_entered level w0 state w Hget Hrun). by apply Hout.
Qed.

(** In every game, what the player holds was collected on entering a room
    through an exit: each collected item is the relic of a room that some
    exit of the map leads to.  So a game is completed only on a level all
    of whose required items are such relics; an item that lies only in a
    room no exit leads to, the start room for one, or that is the villain's
    name, is never collected. *)
Theorem play_collects_on_entry level w0 state w :
  levels_get level_id = Some level →
  Level.start_room level ∈ dict_keys (MapGraph.rooms (Level.map level)) →
  run w0 state w →
  (∀ name, name ∈ GameState.collected_items state → entered_relic level name) ∧
  (GameState.status state = GameStatus.COMPLETED →
   ∀ name, name ∈ StandardRules.required_items (Level.rules level) →
           entered_relic level name).
Proof.
  intros Hget Hstart Hrun. split; [by apply (run_collects_entered level w0 state w)|].
  intros Hst name Hreq.
  pose proof (run_consistent_aux _ _ _ _ _ _ level w0 state w Hget Hstart Hrun) as Hcons.
  pose proof (Session.outcome _ _ _ Hcons) as Hout. rewrite Hst in Hout.
  apply (run_collects_entered level w0 state w Hget Hrun). by apply Hout.
Qed.
End play.

(** The three-room level is what the factory builds. *)
Lemma level_three_rooms_built (fuel : nat) :
  LevelFactory.from_definition (4 + fuel) level_three_rooms = Some (Ok three_rooms_level).
Proof. vm_compute. reflexivity. Qed.

(** The game that walks east twice on the three-room level. *)
Ltac three_rooms_game :=
  eapply (Session.run_move _ _ _ _ _ _ _ _ _ "east");
    [eapply (Session.run_move _ _ _ _ _ _ _ _ _ "east");
       [apply Session.run_start; vm_compute; reflexivity | vm_compute; reflexivity]
    | vm_compute; reflexivity].

Lemma three_rooms_run :
  ∃ state w,
    Session.run text_isoformat text_fromisoformat noon_clock three_rooms_repo
      "player@example.com" "level_three" text_world state w ∧
    GameState.status state = GameStatus.COMPLETED ∧
    GameState.collected_items state = {[ "Relic1" ]} ∧
    GameState.move_count state = 2%Z.
Proof.
  do 2 eexists. split; [three_rooms_game|]. split; [reflexivity|].
  split; [by vm_compute|reflexivity].
Qed.

Lemma play_collects_on_entry_witness :
  ∃ state w,
    Session.run text_isoformat text_fromisoformat noon_clock three_rooms_repo
      "player@example.com" "level_three" text_world state w ∧
    GameState.status state = GameStatus.COMPLETED ∧
    "Relic1" ∈ GameState.collected_items state ∧
    (∀ name, name ∈ GameState.collected_items state →
             entered_relic three_rooms_level name) ∧
    (GameState.status state = GameStatus.COMPLETED →
     ∀ name, name ∈ StandardRules.required_items (Level.rules three_rooms_level) →
             entered_relic three_rooms_level name).
Proof.
  do 2 eexists. split; [three_rooms_game|]. split; [reflexivity|].
  split; [by vm_compute|].
  eapply (play_collects_on_entry text_isoformat text_fromisoformat noon_clock
            three_rooms_repo "player@example.com" "level_three" three_rooms_level text_world).
  - reflexivity.
  - compute_done.
  - three_rooms_game.
Defined.

(** The only exit of the level leads to the villain. *)
Lemma relic_level_no_entered_relic (name : string) : ¬ entered_relic relic_level name.
Proof.
  intros (room & r & direction & next & entered & Hr & Hexit & Hent & Hitem).
  unfold relic_level in Hr, Hent.
  cbn [Level.map MapGraph.rooms dict_get] in Hr, Hent.
  destruct (String.eqb "A" room).
  - injection Hr as <-. cbn [Room.exits dict_get] in Hexit.
    destruct (String.eqb "east" direction); [|done].
    injection Hexit as <-. change (String.eqb "A" "B") with false in Hent.
    change (String.eqb "B" "B") with true in Hent. by injection Hent as <-.
  - destruct (String.eqb "B" room); [|done]. by injection Hr as <-.
Qed.

(** C3: a level that cannot be won is built.  The definition
    [level_relic_at_start] is well formed; its only required relic lies in
    the start room, whose only exit leads to the villain.  No game on it is
    ever completed, since play collects a relic only on entering its room,
    and the one move there is loses the game.  Yet [from_definition] does
    not raise the unsolvable-level error: it returns the level, with an
    optimum of one move. *)
Theorem unwinnable_level_is_built :
  Solvability.well_formed level_relic_at_start
    [ ("A", LevelDefinition.mk_room [("east", "B")] (relic "Relic1"));
      ("B", LevelDefinition.mk_room []
              (Some (LevelDefinition.mk_item (Some "villain") (Some "Villain")))) ]
    [ "Relic1" ] "A" ∧
  (∀ fuel, LevelFactory.from_definition (S (S fuel)) level_relic_at_start
           = Some (Ok relic_level)) ∧
  Level.optimal_moves relic_level = Some 1%Z ∧
  (∀ (datetime : Type) (isoformat : datetime → string)
     (fromisoformat : string → result datetime) (clock : nat → datetime)
     (levels_get : string → option Level.t) (user_email level_id : string) w0 state w,
     levels_get level_id = Some relic_level →
     Session.run isoformat fromisoformat clock levels_get user_email level_id w0 state w →
     GameState.status state ≠ GameStatus.COMPLETED) ∧
  (∃ state0 w1 state w,
     GameController.start_new_run noon_clock relic_repo "player@example.com" "level_relic"
       text_world = Ok (state0, w1) ∧
     GameState.collected_items state0 = ∅ ∧
     GameController.move noon_clock relic_repo "player@example.com" "level_relic"
       state0 "east" w1 = Ok (state, w) ∧
     GameState.status state = GameStatus.GAME_OVER).
Proof.
  split; [|split; [|split; [|split]]].
  - split; try (by eexists); try reflexivity.
    all: try compute_done.
    + exists "hard". split; [reflexivity|]. compute_done.
    + eexists. split; [reflexivity|]. compute_done.
    + repeat constructor; by eexists.
  - intros fuel. vm_compute. reflexivity.
  - reflexivity.
  - intros datetime isoformat fromisoformat clock levels_get user_email level_id w0 state w
      Hget Hrun.
    apply (never_completed isoformat fromisoformat clock levels_get user_email level_id
             relic_level w0 state w "Relic1" Hget); [compute_done|compute_done| |done].
    apply relic_level_no_entered_relic.
  - do 4 eexists. split; [vm_compute; reflexivity|]. split; [reflexivity|].
    split; [vm_compute; reflexivity|]. reflexivity.
Qed.

End GameVsSolver.
